(** * The low-level IR optimizer (lib/Optimizer/IROptimizer.cpp)

    A shallow embedding of the optimizer passes over the linear IR: the
    instruction stream of a module is a list of instruction records, values
    are addressed by pointer, unordered maps and sets of pointers are
    finite maps and sets, and a pass that can abort (a failed assertion) or
    run into undefined behaviour returns a [result]. *)

From stdpp Require Import gmap list strings sorting.


(** ** Values, operands, instructions, modules *)

(** A [Value *].  The pointer carries the class of the object it points
    to: a [WeightVar] or an [Instruction] (an [AllocActivationInst] or a
    [TensorViewInst] when it is used as an operand).  Two pointers are
    equal when they point to the same object. *)
Inductive Value :=
  | WeightPtr (n : positive)
  | InstrPtr (n : positive).

#[global] Instance Value_eq_dec : EqDecision Value.
Proof. solve_decision. Defined.

#[global] Instance Value_countable : Countable Value.
Proof.
  refine (inj_countable'
            (λ v, match v with WeightPtr n => inl n | InstrPtr n => inr n end)
            (λ s, match s with inl n => WeightPtr n | inr n => InstrPtr n end) _).
  by intros [].
Defined.

(** [isa<WeightVar>(v)]. *)
Definition isWeightVar (v : Value) : bool :=
  match v with WeightPtr _ => true | InstrPtr _ => false end.

Module OperandKind.
(** Declared in this order, which is the order [std::sort] sees. *)
Inductive t := In | InOut | Out.

#[global] Instance eq_dec : EqDecision t.
Proof. solve_decision. Defined.

Definition rank (k : t) : nat :=
  match k with In => 0 | InOut => 1 | Out => 2 end.
End OperandKind.

Abbreviation Operand := (Value * OperandKind.t)%type.

Module Kind.
Inductive t :=
  | WeightVarKind
  | AllocActivationInstKind
  | DeallocActivationInstKind
  | TensorViewInstKind
  | CopyInstKind
  | DebugPrintInstKind
  | SplatInstKind
  | ReshapeInstKind
  | TransposeInstKind
  | ElementMaxInstKind
  | PoolMaxWithXYInstKind
  | PoolMaxInstKind
  | SoftMaxWithEInstKind
  | SoftMaxInstKind
  | OtherInstKind (tag : nat).

#[global] Instance eq_dec : EqDecision t.
Proof. solve_decision. Defined.
End Kind.

Module MutabilityKind.
Inductive t := Constant | Mutable.

#[global] Instance eq_dec : EqDecision t.
Proof. solve_decision. Defined.
End MutabilityKind.

(** An instruction of the stream.  [iid] is its address; [getType] is the
    type of the value it defines (uniqued types, compared by identity);
    [getAttrs] is the payload the optimizer only copies (kernel, stride,
    pad). *)
Record Instruction := mkInstruction {
  iid : positive;
  getKind : Kind.t;
  getName : string;
  getType : nat;
  getOperands : list Operand;
  getAttrs : list nat
}.

Record WeightVar := mkWeightVar {
  wid : positive;
  wName : string;
  wType : nat;
  getMutability : MutabilityKind.t
}.

Record Module := mkModule {
  getInstrs : list Instruction;
  getWeights : list WeightVar
}.

#[global] Instance Instruction_eq_dec : EqDecision Instruction.
Proof. solve_decision. Defined.

#[global] Instance WeightVar_eq_dec : EqDecision WeightVar.
Proof. solve_decision. Defined.

#[global] Instance Module_eq_dec : EqDecision Module.
Proof. solve_decision. Defined.

Definition self (I : Instruction) : Value := InstrPtr (iid I).
Definition wself (W : WeightVar) : Value := WeightPtr (wid W).

Definition setInstrs (M : Module) (l : list Instruction) : Module :=
  {| getInstrs := l; getWeights := getWeights M |}.

Definition setOperands (I : Instruction) (ops : list Operand) : Instruction :=
  {| iid := iid I; getKind := getKind I; getName := getName I;
     getType := getType I; getOperands := ops; getAttrs := getAttrs I |}.

(** [isa<K>(I)] on an instruction. *)
Definition isa (k : Kind.t) (I : Instruction) : bool :=
  bool_decide (getKind I = k).

Definition isDealloc (I : Instruction) : bool :=
  isa Kind.DeallocActivationInstKind I.
Definition isAlloc (I : Instruction) : bool :=
  isa Kind.AllocActivationInstKind I.
Definition isTensorView (I : Instruction) : bool :=
  isa Kind.TensorViewInstKind I.

(** Dereferencing a pointer: the instruction of the stream at that
    address; the weight of the module at that address. *)
Definition findInstr (l : list Instruction) (v : Value) : option Instruction :=
  match v with
  | InstrPtr n => find (λ I, bool_decide (iid I = n)) l
  | WeightPtr _ => None
  end.

Definition getInstr (M : Module) (v : Value) : option Instruction :=
  findInstr (getInstrs M) v.

Definition getWeight (M : Module) (v : Value) : option WeightVar :=
  match v with
  | WeightPtr n => find (λ W, bool_decide (wid W = n)) (getWeights M)
  | InstrPtr _ => None
  end.

(** [dyn_cast<AllocActivationInst>(v)] and [dyn_cast<TensorViewInst>(v)]
    on a value. *)
Definition isAllocValue (M : Module) (v : Value) : bool :=
  match getInstr M v with Some ins => isAlloc ins | None => false end.

Definition isTensorViewValue (M : Module) (v : Value) : bool :=
  match getInstr M v with Some ins => isTensorView ins | None => false end.

(** [v->getType()] and [v->getName()]. *)
Definition typeOf (M : Module) (v : Value) : option nat :=
  match v with
  | WeightPtr _ => wType <$> getWeight M v
  | InstrPtr _ => getType <$> getInstr M v
  end.

Definition nameOf (M : Module) (v : Value) : string :=
  match v with
  | WeightPtr _ => default EmptyString (wName <$> getWeight M v)
  | InstrPtr _ => default EmptyString (getName <$> getInstr M v)
  end.

(** The mutability of a weight ([Mutable] is the attribute's initial
    value). *)
Definition mutabilityOf (M : Module) (v : Value) : MutabilityKind.t :=
  default MutabilityKind.Mutable (getMutability <$> getWeight M v).

(** Operand accessors: [I->getOperand(i).first]. *)
Definition getOperandValue (I : Instruction) (i : nat) : option Value :=
  fst <$> getOperands I !! i.

(** ** Results *)

(** What a pass does: it returns, it aborts on a failed assertion, it
    runs into undefined behaviour, or (for the loops whose cursor is
    followed with a bound on the number of steps) it exceeds the bound. *)
Inductive result (A : Type) :=
  | Ok (a : A)
  | Abort (msg : string)
  | Undefined (msg : string)
  | OutOfFuel.

Arguments Ok {A} a.
Arguments Abort {A} msg.
Arguments Undefined {A} msg.
Arguments OutOfFuel {A}.

#[global] Instance result_ret : MRet result := λ A a, Ok a.
#[global] Instance result_bind : MBind result := λ A B f r,
  match r with
  | Ok a => f a
  | Abort msg => Abort msg
  | Undefined msg => Undefined msg
  | OutOfFuel => OutOfFuel
  end.

Definition isOk {A} (r : result A) : bool :=
  match r with Ok _ => true | _ => false end.

(** A left fold whose step can fail. *)
Fixpoint foldM {A B} (f : A → B → result A) (a : A) (l : list B) : result A :=
  match l with
  | [] => Ok a
  | b :: l' => a' ← f a b; foldM f a' l'
  end.

(** ** Origin resolution (IRUtils) *)

(** Modelled from the spec: [getOrigin] and [getAllocationOrigin] are
    declared in glow/IR/IRUtils.h, which is not part of the sources.
    Section 4.1: if [v] is a TensorView, recursively the origin of its
    source, else [v]; the allocation origin is that origin when it is an
    AllocActivation and none otherwise.  A chain of views is never longer
    than the stream, which bounds the recursion. *)
Fixpoint originOf (M : Module) (fuel : nat) (v : Value) : Value :=
  match fuel with
  | 0 => v
  | S fuel' =>
      match getInstr M v with
      | Some ins =>
          if isTensorView ins then
            match getOperandValue ins 0 with
            | Some src => originOf M fuel' src
            | None => v
            end
          else v
      | None => v
      end
  end.

Definition getOrigin (M : Module) (v : Value) : Value :=
  originOf M (length (getInstrs M)) v.

Definition getAllocationOrigin (M : Module) (v : Value) : option Value :=
  let o := getOrigin M v in
  if isAllocValue M o then Some o else None.

(** ** Use lists *)

(** Modelled from the spec: the use list of a value is kept by the
    [Value] and [Instruction] classes (glow/IR/IR.h, not part of the
    sources); by invariant I5 it holds one use for every operand slot of
    an instruction of the stream that references the value. *)
Definition usesIn (v : Value) (I : Instruction) : list (Instruction * OperandKind.t) :=
  (λ op, (I, op.2)) <$> filter (λ op, op.1 = v) (getOperands I).

Definition getUsers (M : Module) (v : Value) : list (Instruction * OperandKind.t) :=
  getInstrs M ≫= usesIn v.

Definition getNumUsers (M : Module) (v : Value) : nat :=
  length (getUsers M v).

(** [U.setOperand(with)] for every use of [val] by the instruction. *)
Definition replaceOperand (val with_ : Value) (op : Operand) : Operand :=
  if decide (op.1 = val) then (with_, op.2) else op.

Definition replaceUses (val with_ : Value) (I : Instruction) : Instruction :=
  setOperands I (replaceOperand val with_ <$> getOperands I).

(** Modelled from the spec: [Module::eraseInstruction] and
    [Module::removeInstruction] (glow/IR/IR.h) take the instruction at
    that address out of the stream; erasing also unwires its uses, which
    the use lists above do by themselves. *)
Definition eraseInstruction (M : Module) (p : Value) : Module :=
  setInstrs M (filter (λ I, self I ≠ p) (getInstrs M)).

(** ** Positions in the stream

    An [InstrIterator] is the address of the instruction it points to, or
    [None] for [end()]. *)
Definition begin_ (l : list Instruction) : option Value :=
  self <$> head l.

Definition indexOf (l : list Instruction) (p : Value) : option nat :=
  fst <$> list_find (λ ins, self ins = p) l.

(** [std::next(it)] for an iterator that points into the stream. *)
Definition next (l : list Instruction) (p : Value) : option Value :=
  i ← indexOf l p; self <$> l !! S i.

(** Modelled from the spec: [Module::insertInstruction(where, I)] and
    [Module::moveInstruction(where, I)] (glow/IR/IR.h, not part of the
    sources): insert before the position; move takes the instruction out
    of the stream and inserts it before the position. *)
Fixpoint insertBefore (p : Value) (ins : Instruction) (l : list Instruction)
    : list Instruction :=
  match l with
  | [] => [ins]
  | x :: l' => if decide (self x = p) then ins :: l else x :: insertBefore p ins l'
  end.

Definition insertInstruction (l : list Instruction) (where_ : option Value)
    (ins : Instruction) : list Instruction :=
  match where_ with
  | None => l ++ [ins]
  | Some p => insertBefore p ins l
  end.

Definition removeInstruction (l : list Instruction) (p : Value) : list Instruction :=
  filter (λ ins, self ins ≠ p) l.

Definition moveInstruction (l : list Instruction) (where_ : option Value)
    (ins : Instruction) : list Instruction :=
  insertInstruction (removeInstruction l (self ins)) where_ ins.

(** The address [new] returns: one that no instruction of the stream has
    and no operand refers to. *)
Definition maxId (l : list Instruction) : positive :=
  foldr (λ ins m,
    foldr (λ (op : Operand) m',
             match op.1 with InstrPtr n => Pos.max n m' | WeightPtr _ => m' end)
          (Pos.max (iid ins) m) (getOperands ins)) 1%positive l.

Definition freshId (l : list Instruction) : positive := Pos.succ (maxId l).

(** ** Live intervals *)

(** A live interval [(begin, end)]. *)
Abbreviation Interval := (nat * nat)%type.
Abbreviation Intervals := (list Interval).
Abbreviation LiveIntervalsMap := (gmap Value (list (nat * nat))).

(** [Intervals.back().second = idx]. *)
Fixpoint setBackSecond (l : Intervals) (idx : nat) : Intervals :=
  match l with
  | [] => []
  | [(b, _)] => [(b, idx)]
  | x :: l' => x :: setBackSecond l' idx
  end.

(** Provided a set of intervals, the first interval covering a given
    instruction. *)
Definition getEnclosingInterval (LiveIntervals : Intervals) (instIdx : nat)
    : option Interval :=
  find (λ iv : Interval, (iv.1 <=? instIdx) && (instIdx <=? iv.2)) LiveIntervals.

(** True if RHS is enclosed inside LHS. *)
Definition isEnclosedInside (LHS RHS : Interval) : bool :=
  (LHS.1 <? RHS.1) && (RHS.2 <=? LHS.2).

(** [operator<] of [std::pair<Value *, OperandKind>]: by address, then by
    kind.  Addresses are ordered class first, then number. *)
Definition Value_lt (a b : Value) : Prop :=
  match a, b with
  | WeightPtr m, WeightPtr n => (m < n)%positive
  | WeightPtr _, InstrPtr _ => True
  | InstrPtr _, WeightPtr _ => False
  | InstrPtr m, InstrPtr n => (m < n)%positive
  end.

#[global] Instance Value_lt_dec a b : Decision (Value_lt a b).
Proof. destruct a, b; simpl; apply _. Defined.

Definition Operand_lt (a b : Operand) : Prop :=
  Value_lt a.1 b.1 ∨ (a.1 = b.1 ∧ OperandKind.rank a.2 < OperandKind.rank b.2).

Definition Operand_le (a b : Operand) : Prop := ¬ Operand_lt b a.

#[global] Instance Operand_le_dec a b : Decision (Operand_le a b).
Proof. unfold Operand_le, Operand_lt. apply _. Defined.

(** [std::sort(SortedOperands.begin(), SortedOperands.end())]. *)
Definition sortOperands (ops : list Operand) : list Operand :=
  merge_sort Operand_le ops.

(** ** The passes *)

Section Optimizer.

(** [assert] is compiled out when [NDEBUG] is defined. *)
Variable NDEBUG : bool.

(** [Module::verify] and the table [Instruction::isInplaceOp] belong to
    the IR library (glow/IR), which is not part of the sources; so are
    the two command-line options. *)
Variable verify : Module → bool.
Variable isInplaceOp : Kind.t → nat → nat → bool.
Variable instrumentDebug : bool.
Variable optimizeIR : bool.

Definition assert (b : bool) (msg : string) : result unit :=
  if NDEBUG || b then Ok () else Abort msg.

(** *** hoistDealloc *)

(** One iteration of the loop that records, for each allocation, its
    last non-dealloc user. *)
Definition recordLastUser (M : Module) (lastUser : gmap Value Value)
    (ins : Instruction) : gmap Value Value :=
  if isDealloc ins then lastUser
  else if isAlloc ins then <[self ins := self ins]> lastUser
  else
    foldl (λ lu (op : Operand),
             match getAllocationOrigin M op.1 with
             | Some alloc => <[alloc := self ins]> lu
             | None => lu
             end) lastUser (getOperands ins).

Definition lastUsers (M : Module) : gmap Value Value :=
  foldl (recordLastUser M) ∅ (getInstrs M).

(** The body of the second loop for the instruction [curr].  The pass
    moves instructions and changes no object, so pointers are
    dereferenced in [H], the module as it was handed to the pass.
    [lastUser[alloc]] of an allocation that was never recorded is a
    singular iterator. *)
Definition hoistStep (H : Module) (lastUser : gmap Value Value)
    (l : list Instruction) (curr : Instruction) : result (list Instruction) :=
  if negb (isDealloc curr) then Ok l
  else
    match getOperandValue curr 0 with
    | None => Undefined "getOperand(0) of an instruction without operands"
    | Some op =>
        let alloc := getOrigin H op in
        _ ← assert (isAllocValue H alloc) "cast<AllocActivationInst>";
        match lastUser !! alloc with
        | None => Undefined "std::next of a singular iterator"
        | Some where_ =>
            if decide (next l where_ = Some (self curr)) then Ok l
            else Ok (moveInstruction l (next l where_) curr)
        end
    end.

Fixpoint hoistLoop (fuel : nat) (H : Module) (lastUser : gmap Value Value)
    (l : list Instruction) (it : option Value) : result (list Instruction) :=
  match it with
  | None => Ok l
  | Some p =>
      match fuel with
      | 0 => OutOfFuel
      | S fuel' =>
          match findInstr l p with
          | None => Undefined "iterator outside the stream"
          | Some curr =>
              let it' := next l p in
              l' ← hoistStep H lastUser l curr;
              hoistLoop fuel' H lastUser l' it'
          end
      end
  end.

(** Hoists Dealloc instructions right after their last use.  An
    instruction is visited at most twice (a second time when it was
    moved forward). *)
Definition hoistDealloc (M : Module) : result Module :=
  l ← hoistLoop (2 * length (getInstrs M)) M (lastUsers M)
        (getInstrs M) (begin_ (getInstrs M));
  Ok (setInstrs M l).

(** *** sinkAllocas *)

(** The operands of one instruction of the second loop: each operand
    that is one of the allocas still to place takes it out of [allocs]
    and inserts it before the instruction.  (The early return when
    [allocs] becomes empty only skips iterations that cannot insert.) *)
Definition sinkOperands (allocs : list Instruction) (ops : list Operand)
    : list Instruction * list Instruction :=
  foldl (λ (st : list Instruction * list Instruction) (op : Operand),
           match findInstr st.2 op.1 with
           | Some aa => (st.1 ++ [aa], filter (λ a, self a ≠ op.1) st.2)
           | None => st
           end) ([], allocs) ops.

Fixpoint sinkLoop (allocs : list Instruction) (l : list Instruction)
    : list Instruction * list Instruction :=
  match l with
  | [] => ([], allocs)
  | x :: l' =>
      let placed := sinkOperands allocs (getOperands x) in
      let rest := sinkLoop placed.2 l' in
      (placed.1 ++ x :: rest.1, rest.2)
  end.

(** Sink Alloc instructions right before their first use. *)
Definition sinkAllocas (M : Module) : result Module :=
  let allocs := filter (λ ins, isAlloc ins = true) (getInstrs M) in
  let l := filter (λ ins, isAlloc ins = false) (getInstrs M) in
  let placed := sinkLoop allocs l in
  _ ← assert (bool_decide (placed.2 = [])) "Forgot to insert some allocas!";
  Ok (setInstrs M placed.1).

(** *** deleteDeadAllocs *)

Definition eraseAll (M : Module) (ErasedInstructions : list Instruction) : Module :=
  foldl (λ M' ins, eraseInstruction M' (self ins)) M ErasedInstructions.

(** Modelled from the spec: [DeallocActivationInst::getAlloc] (not part
    of the sources) is the allocation the dealloc closes, its operand. *)
Definition getAlloc (DA : Instruction) : option Value := getOperandValue DA 0.

Definition isUnusedTensorView (M : Module) (ins : Instruction) : bool :=
  isTensorView ins && (getNumUsers M (self ins) =? 0).

Definition closesUnusedAlloc (M : Module) (ins : Instruction) : bool :=
  isDealloc ins &&
  match getAlloc ins with
  | Some a => getNumUsers M a <? 2
  | None => false
  end.

Definition isUnusedAlloc (M : Module) (ins : Instruction) : bool :=
  isAlloc ins && (getNumUsers M (self ins) <? 2).

(** [std::copy_if] into [ErasedInstructions], then erase each. *)
Definition sweep (p : Module → Instruction → bool) (M : Module) : Module :=
  eraseAll M (filter (λ ins, p M ins = true) (getInstrs M)).

(** Delete alloc instructions that have no readers or writers. *)
Definition deleteDeadAllocs (M : Module) : Module :=
  sweep isUnusedAlloc (sweep closesUnusedAlloc (sweep isUnusedTensorView M)).

(** *** replaceAllNonDeallocUsersWith *)

Definition replaceAllNonDeallocUsersWith (M : Module) (val with_ : Value)
    : result Module :=
  _ ← assert (bool_decide (val ≠ with_)) "Replacing value with self";
  Ok (setInstrs M
        ((λ ins, if isDealloc ins then ins else replaceUses val with_ ins)
           <$> getInstrs M)).

(** *** shareBuffers *)

(** The operand or its allocation origin. *)
Definition originOrSelf (M : Module) (v : Value) : Value :=
  default v (getAllocationOrigin M v).

(** The pairs [(first, second)], [first < second < e], in the order in
    which the two nested loops visit them. *)
Definition operandPairs (e : nat) : list (nat * nat) :=
  first ← seq 0 e; (λ second, (first, second)) <$> seq (S first) (e - S first).

(** The test the loop body makes on a pair of operand slots. *)
Definition canShare (liveBuffers : gset Value) (M : Module) (ins : Instruction)
    (pr : nat * nat) : option (Value * Value) :=
  match getOperandValue ins pr.1, getOperandValue ins pr.2 with
  | Some destOp, Some srcOp =>
      let dest := originOrSelf M destOp in
      let src := originOrSelf M srcOp in
      if bool_decide (typeOf M dest ≠ typeOf M src) || bool_decide (dest = src)
      then None
      else if negb (isInplaceOp (getKind ins) pr.1 pr.2) then None
      else if bool_decide (dest ∉ liveBuffers) && bool_decide (src ∉ liveBuffers)
      then Some (dest, src)
      else None
  | _, _ => None
  end.

(** The first pair of slots whose buffers can be shared, if any. *)
Definition sharedPair (liveBuffers : gset Value) (M : Module) (ins : Instruction)
    : option (Value * Value) :=
  list_find (λ pr, is_Some (canShare liveBuffers M ins pr))
    (operandPairs (length (getOperands ins)))
  ≫= λ found, canShare liveBuffers M ins found.2.

(** Optimize the input/output buffer for the instruction, based on the
    liveness information in [liveBuffers]. *)
Definition tryToShareBuffersForInstr (liveBuffers : gset Value) (M : Module)
    (ins : Instruction) : result Module :=
  match sharedPair liveBuffers M ins with
  | Some (dest, src) => replaceAllNonDeallocUsersWith M dest src
  | None => Ok M
  end.

(** The body of the first operand loop: remove <out> dependencies from
    the live set.  The state is [(liveBuffers, outBuffers)]. *)
Definition killOut (M : Module) (st : gset Value * gset Value) (O : Operand)
    : gset Value * gset Value :=
  match getAllocationOrigin M O.1 with
  | None => st
  | Some ai =>
      match O.2 with
      | OperandKind.Out =>
          if decide (ai ∈ st.1) then (st.1 ∖ {[ai]}, {[ai]} ∪ st.2) else st
      | OperandKind.InOut => ({[ai]} ∪ st.1, st.2)
      | OperandKind.In =>
          if decide (ai ∈ st.2) then ({[ai]} ∪ st.1, st.2) else st
      end
  end.

(** The body of the last operand loop: the input operand-buffers go
    into the live set. *)
Definition reviveIn (M : Module) (liveBuffers : gset Value) (O : Operand)
    : gset Value :=
  match getAllocationOrigin M O.1 with
  | None => liveBuffers
  | Some ai =>
      if decide (O.2 ≠ OperandKind.Out) then {[ai]} ∪ liveBuffers else liveBuffers
  end.

(** The state of the reverse walk: [pos] instructions are still to be
    visited, the next one is the instruction at index [pos - 1]. *)
Record ShareState := mkShareState {
  pos : nat;
  shareModule : Module;
  liveBuffers : gset Value
}.

(** The live set with which [tryToShareBuffersForInstr] is called. *)
Definition liveAtShare (M : Module) (live : gset Value) (ins : Instruction)
    : gset Value :=
  (foldl (killOut M) (live, ∅) (getOperands ins)).1.

Definition shareStep (s : ShareState) : result ShareState :=
  match pos s with
  | 0 => Ok s
  | S k =>
      match getInstrs (shareModule s) !! k with
      | None => Ok (mkShareState k (shareModule s) (liveBuffers s))
      | Some ins =>
          let live1 := liveAtShare (shareModule s) (liveBuffers s) ins in
          M' ← tryToShareBuffersForInstr live1 (shareModule s) ins;
          let ops := default [] (getOperands <$> getInstrs M' !! k) in
          Ok (mkShareState k M' (foldl (reviveIn M') live1 ops))
      end
  end.

Fixpoint shareLoop (n : nat) (s : ShareState) : result ShareState :=
  match n with
  | 0 => Ok s
  | S n' => s' ← shareStep s; shareLoop n' s'
  end.

Definition shareStart (M : Module) : ShareState :=
  mkShareState (length (getInstrs M)) M (list_to_set (wself <$> getWeights M)).

Definition shareBuffers (M : Module) : result Module :=
  s ← shareLoop (length (getInstrs M)) (shareStart M);
  Ok (shareModule s).

(** *** getSingleWriter, makeWeightsConst *)

(** The single writer that writes into this value, or none if the number
    of writers is not exactly one: the uses that are neither by a
    dealloc nor reads. *)
Definition isWriterUse (U : Instruction * OperandKind.t) : bool :=
  negb (isDealloc U.1) && bool_decide (U.2 ≠ OperandKind.In).

Definition getSingleWriter (M : Module) (V : Value) : option Instruction :=
  match filter (λ U, isWriterUse U = true) (getUsers M V) with
  | [U] => Some U.1
  | _ => None
  end.

Definition setMutability (W : WeightVar) (m : MutabilityKind.t) : WeightVar :=
  {| wid := wid W; wName := wName W; wType := wType W; getMutability := m |}.

Definition makeWeightsConst (M : Module) : Module :=
  {| getInstrs := getInstrs M;
     getWeights :=
       (λ W,
          let readOnly :=
            forallb (λ U : Instruction * OperandKind.t,
                       bool_decide (U.2 = OperandKind.In))
                    (getUsers M (wself W)) in
          if readOnly then setMutability W MutabilityKind.Constant
          else setMutability W MutabilityKind.Mutable)
       <$> getWeights M |}.

(** *** calculateLiveIntervals *)

(** The mutable location an operand stands for: an AllocActivationInst
    or a WeightVar that is not a constant. *)
Definition locationOf (M : Module) (op : Value) : option Value :=
  if isAllocValue M op then Some op
  else if isWeightVar op then
    if decide (mutabilityOf M op = MutabilityKind.Constant) then None
    else Some op
  else None.

(** The body of the loop over the sorted operands of the instruction
    [ins], whose index is [instIdx]. *)
Definition liveOperand (M : Module) (ins : Instruction) (instIdx : nat)
    (liveness : gmap Value (list (nat * nat))) (O : Operand)
    : result (gmap Value (list (nat * nat))) :=
  match locationOf M O.1 with
  | None => Ok liveness
  | Some loc =>
      match liveness !! loc with
      | None =>
          _ ← assert (isTensorView ins || isWeightVar O.1
                      || bool_decide (O.2 = OperandKind.Out)
                      || bool_decide (O.2 = OperandKind.InOut))
                "First reference inside a live interval should be either an input variable or a write";
          Ok (<[loc := [(instIdx, instIdx)]]> liveness)
      | Some ivs =>
          match last ivs with
          | None => Undefined "back() of an empty list"
          | Some bk =>
              let ivs1 :=
                if bool_decide (O.2 ≠ OperandKind.Out) || bool_decide (bk.2 ≠ bk.1)
                then setBackSecond ivs instIdx else ivs in
              if bool_decide (O.2 = OperandKind.In)
                 || bool_decide (O.2 = OperandKind.InOut)
              then Ok (<[loc := ivs1]> liveness)
              else Ok (<[loc := ivs1 ++ [(instIdx, instIdx)]]> liveness)
          end
      end
  end.

(** One instruction of the walk: deallocations are ignored. *)
Definition liveInstr (M : Module) (instIdx : nat)
    (liveness : gmap Value (list (nat * nat))) (ins : Instruction)
    : result (gmap Value (list (nat * nat))) :=
  if isDealloc ins then Ok liveness
  else foldM (liveOperand M ins instIdx) liveness (sortOperands (getOperands ins)).

(** The [for] loop: [continue] still runs [++it, ++instIdx]. *)
Fixpoint liveLoop (M : Module) (l : list Instruction) (instIdx : nat)
    (liveness : gmap Value (list (nat * nat)))
    : result (gmap Value (list (nat * nat))) :=
  match l with
  | [] => Ok liveness
  | ins :: l' =>
      liveness' ← liveInstr M instIdx liveness ins;
      liveLoop M l' (S instIdx) liveness'
  end.

(** Extend the last interval of every WeightVar till the end of the
    program. *)
Definition extendWeights (instIdx : nat) (liveness : gmap Value (list (nat * nat)))
    : gmap Value (list (nat * nat)) :=
  map_imap (λ ML IL, Some (if isWeightVar ML then setBackSecond IL instIdx else IL))
    liveness.

Definition calculateLiveIntervals (M : Module)
    : result (gmap Value (list (nat * nat))) :=
  liveness ← liveLoop M (getInstrs M) 0 ∅;
  _ ← assert (bool_decide (map_Forall (λ ML (IL : list (nat * nat)),
                                         isWeightVar ML = true → IL ≠ []) liveness))
        "Live interval list cannot be empty";
  Ok (extendWeights (length (getInstrs M)) liveness).

(** *** replaceAllUsesWith, eraseInstructions *)

(** Whether the operand [O] of the instruction at [instIdx] is replaced. *)
Definition isReplaced (val : Value) (iv : nat * nat) (instIdx : nat) (O : Operand)
    : bool :=
  (iv.1 <=? instIdx) && (instIdx <=? iv.2)
  && bool_decide (O.1 = val)
  && negb (bool_decide (instIdx = iv.1) && bool_decide (O.2 ≠ OperandKind.Out)).

Definition replaceInside (val with_ : Value) (iv : nat * nat) (instIdx : nat)
    (ins : Instruction) : Instruction :=
  setOperands ins
    ((λ O : Operand, if isReplaced val iv instIdx O then (with_, O.2) else O)
       <$> getOperands ins).

(** The module after the replacement, and [ChangedInstrs]. *)
Definition replaceAllUsesWith (val with_ : Value) (iv : nat * nat) (M : Module)
    : Module * list Value :=
  (setInstrs M (imap (replaceInside val with_ iv) (getInstrs M)),
   mjoin (imap (λ instIdx ins,
                  (λ _, self ins)
                    <$> filter (λ O, isReplaced val iv instIdx O = true)
                          (getOperands ins))
               (getInstrs M))).

(** Erase all instructions from the set. *)
Definition eraseInstructions (M : Module) (ErasedInstructions : gset Value) : Module :=
  foldl eraseInstruction M (elements ErasedInstructions).

(** *** copyPropagation *)

(** Modelled from the spec: the accessors of [CopyInst] (generated
    code, not part of the sources); a copy is [Copy(dest, src)]. *)
Definition getDest (ins : Instruction) : option Value := getOperandValue ins 0.
Definition getSrc (ins : Instruction) : option Value := getOperandValue ins 1.

(** The copy [ci] at index [instIdx] whose source is a WeightVar. *)
Definition propagateFromWeight (M : Module) (ci : Instruction) (Src Dest : Value)
    (erased : gset Value) : result (Module * gset Value) :=
  if bool_decide (mutabilityOf M Src = MutabilityKind.Mutable)
     || bool_decide (self <$> getSingleWriter M Dest ≠ Some (self ci))
     || isWeightVar Dest
  then Ok (M, erased)
  else
    M' ← replaceAllNonDeallocUsersWith M Dest Src;
    Ok (M', {[self ci]} ∪ erased).

Definition canPropagate (SrcInterval DestInterval : nat * nat) : bool :=
  (SrcInterval.2 <=? DestInterval.1) || isEnclosedInside SrcInterval DestInterval.

(** The copy [ci] at index [instIdx] whose source is not a WeightVar.
    [IntervalsMap[v]] of a value without an entry is the empty list. *)
Definition propagateInInterval (IntervalsMap : gmap Value (list (nat * nat)))
    (M : Module) (instIdx : nat) (ci : Instruction) (Src Dest : Value)
    (erased : gset Value) : result (Module * gset Value) :=
  let SrcIntervals := default [] (IntervalsMap !! Src) in
  let DestIntervals := default [] (IntervalsMap !! Dest) in
  if bool_decide (SrcIntervals = []) || bool_decide (DestIntervals = [])
  then Ok (M, erased)
  else
    match getEnclosingInterval SrcIntervals instIdx with
    | None => Ok (M, erased)
    | Some SrcInterval =>
        match getEnclosingInterval DestIntervals instIdx with
        | None => Ok (M, erased)
        | Some DestInterval =>
            if negb (canPropagate SrcInterval DestInterval) then Ok (M, erased)
            else
              let replaced := replaceAllUsesWith Src Dest SrcInterval M in
              _ ← assert (negb (bool_decide (replaced.2 = [])))
                    "Some instructions should have been changed";
              _ ← assert (bool_decide
                            ((getInstrs replaced.1 !! instIdx ≫= getSrc)
                             = (getInstrs replaced.1 !! instIdx ≫= getDest)))
                    "Src and Dest of a copy instruction should be the same after copy propagation";
              Ok (replaced.1, {[self ci]} ∪ erased)
        end
    end.

(** The body of the loop for the instruction at index [instIdx]. *)
Definition copyStep (IntervalsMap : gmap Value (list (nat * nat)))
    (st : Module * gset Value) (instIdx : nat) : result (Module * gset Value) :=
  match getInstrs st.1 !! instIdx with
  | None => Ok st
  | Some ci =>
      if negb (isa Kind.CopyInstKind ci) then Ok st
      else
        match getSrc ci, getDest ci with
        | Some Src, Some Dest =>
            _ ← assert (bool_decide (typeOf st.1 Src = typeOf st.1 Dest))
                  "Both src and dest of copy should have the same type";
            if isWeightVar Src
            then propagateFromWeight st.1 ci Src Dest st.2
            else propagateInInterval IntervalsMap st.1 instIdx ci Src Dest st.2
        | _, _ => Undefined "operand of a copy"
        end
  end.

(** Perform a copy propagation. *)
Definition copyPropagation (M : Module) : result Module :=
  IntervalsMap ← calculateLiveIntervals M;
  st ← foldM (copyStep IntervalsMap) (M, ∅) (seq 0 (length (getInstrs M)));
  Ok (eraseInstructions st.1 st.2).

(** *** eliminateDeadStores *)

(** Representation of the analysis state: the instruction that contained
    a last seen read, and a last seen write. *)
Record MemoryLocationState := mkMemoryLocationState {
  lastSeenRead_ : option Value;
  lastSeenWrite_ : option Value
}.

(** [memoryState[v]]: a location without an entry has the state with two
    null pointers. *)
Definition stateOf (memoryState : gmap Value MemoryLocationState) (v : Value)
    : MemoryLocationState :=
  default (mkMemoryLocationState None None) (memoryState !! v).

(** Create a fake last read for each of the weight variables:
    [*std::prev(instrs.end())], which dereferences no instruction when
    the stream is empty. *)
Definition seedWeights (M : Module) : result (gmap Value MemoryLocationState) :=
  foldM (λ memoryState WV,
           match last (getInstrs M) with
           | None => Undefined "*std::prev(instrs.end()) of an empty stream"
           | Some lastInstr =>
               Ok (<[wself WV :=
                       mkMemoryLocationState (Some (self lastInstr))
                         (lastSeenWrite_ (stateOf memoryState (wself WV)))]>
                     memoryState)
           end) ∅ (getWeights M).

(** Process an operand write.  The state carries the two counters
    [NumMutatedOperands] and [NumNonReadMutatedOperands]. *)
Definition dseWrite (M : Module) (ins : Instruction)
    (st : gmap Value MemoryLocationState * nat * nat) (Op : Operand)
    : gmap Value MemoryLocationState * nat * nat :=
  let OpOrigin := getOrigin M Op.1 in
  let State := stateOf st.1.1 OpOrigin in
  if decide (Op.2 ≠ OperandKind.In) then
    (<[OpOrigin := mkMemoryLocationState None (Some (self ins))]> st.1.1,
     S st.1.2,
     if lastSeenRead_ State is None then S st.2 else st.2)
  else st.

(** Process an operand read. *)
Definition dseRead (M : Module) (ins : Instruction)
    (memoryState : gmap Value MemoryLocationState) (Op : Operand)
    : gmap Value MemoryLocationState :=
  let OpOrigin := getOrigin M Op.1 in
  let State := stateOf memoryState OpOrigin in
  if decide (Op.2 ≠ OperandKind.Out) then
    <[OpOrigin := mkMemoryLocationState (Some (self ins)) (lastSeenWrite_ State)]>
      memoryState
  else memoryState.

(** One instruction of the walk in reversed order. *)
Definition dseInstr (M : Module)
    (st : gmap Value MemoryLocationState * gset Value) (ins : Instruction)
    : gmap Value MemoryLocationState * gset Value :=
  if isDealloc ins || isAlloc ins || isTensorView ins then st
  else
    let w := foldl (dseWrite M ins) (st.1, 0, 0) (getOperands ins) in
    if (0 <? w.1.2) && (w.1.2 =? w.2) then (w.1.1, {[self ins]} ∪ st.2)
    else (foldl (dseRead M ins) w.1.1 (getOperands ins), st.2).

Definition eliminateDeadStores (M : Module) : result Module :=
  memoryState ← seedWeights M;
  let st := foldl (dseInstr M) (memoryState, ∅) (reverse (getInstrs M)) in
  Ok (eraseInstructions M st.2).

(** *** performDebugInstrumentation *)

(** [new DebugPrintInst(&M, name, Op.first)] at the address [n]. *)
Definition DebugPrintInst (n : positive) (name : string) (v : Value) : Instruction :=
  mkInstruction n Kind.DebugPrintInstKind name 0 [(v, OperandKind.In)] [].

(** The prints of one operand: the state is the prints inserted before
    the instruction, those inserted after it, and the next free
    address. *)
Definition debugOperand (M : Module) (instrName : string)
    (st : list Instruction * list Instruction * positive) (Op : Operand)
    : list Instruction * list Instruction * positive :=
  let st1 :=
    if decide (Op.2 ≠ OperandKind.Out) then
      (st.1.1 ++ [DebugPrintInst st.2
                    (String.append "debug_print.before."
                       (String.append (nameOf M Op.1) (String.append "." instrName)))
                    Op.1],
       st.1.2, Pos.succ st.2)
    else st in
  if decide (Op.2 ≠ OperandKind.In) then
    (st1.1.1,
     st1.1.2 ++ [DebugPrintInst st1.2
                   (String.append "debug_print.after."
                      (String.append (nameOf M Op.1) (String.append "." instrName)))
                   Op.1],
     Pos.succ st1.2)
  else st1.

Definition debugInstr (M : Module) (st : list Instruction * positive)
    (ins : Instruction) : list Instruction * positive :=
  if isa Kind.DebugPrintInstKind ins || isAlloc ins || isDealloc ins
  then (st.1 ++ [ins], st.2)
  else
    let d := foldl (debugOperand M (getName ins)) ([], [], st.2) (getOperands ins) in
    (st.1 ++ d.1.1 ++ ins :: d.1.2, d.2).

(** Instrument the code to make it easier to debug issues. *)
Definition performDebugInstrumentation (M : Module) : Module :=
  if negb instrumentDebug then M
  else
    setInstrs M
      (foldl (debugInstr M) ([], freshId (getInstrs M)) (getInstrs M)).1.

(** *** performPeepholeOptimizations *)

(** Modelled from the spec: the factory methods of [IRBuilder]
    (glow/IR/IRBuilder.h, not part of the sources) create an instruction
    of the kind, wire its operands and append it to the stream.  The
    operand slots of each kind are those of section 4.10. *)
Definition create (M : Module) (k : Kind.t) (name : string) (ty : nat)
    (ops : list Operand) (attrs : list nat) : Module * Instruction :=
  let ins := mkInstruction (freshId (getInstrs M)) k name ty ops attrs in
  (setInstrs M (getInstrs M ++ [ins]), ins).

(** [M.moveInstruction(cur, New)]. *)
Definition moveBefore (M : Module) (cur New : Instruction) : Module :=
  setInstrs M (moveInstruction (getInstrs M) (Some (self cur)) New).

(** [it = M.moveInstruction(cur, New); M.eraseInstruction(cur)]. *)
Definition replaceBy (M : Module) (cur New : Instruction)
    : Module * option Value :=
  (eraseInstruction (moveBefore M cur New) (self cur), Some (self New)).

Definition isSplatWriter (M : Module) (v : Value) : bool :=
  match getSingleWriter M v with
  | Some W => isa Kind.SplatInstKind W
  | None => false
  end.

(** The body of the loop for the instruction [cur]; [it] is already
    [std::next(cur)].  The result is the module and the iterator with
    which the loop goes on. *)
Definition peepholeStep (M : Module) (cur : Instruction) (it : option Value)
    : result (Module * option Value) :=
  let op := getOperandValue cur in
  match getKind cur with
  | Kind.PoolMaxWithXYInstKind =>
      match op 0, op 1, op 2 with
      | Some Dest, Some Src, Some SrcXY =>
          if negb (isAllocValue M SrcXY) || negb (getNumUsers M SrcXY =? 2)
          then Ok (M, it)
          else
            let c := create M Kind.PoolMaxInstKind (getName cur) (getType cur)
                       [(Dest, OperandKind.Out); (Src, OperandKind.In)]
                       (getAttrs cur) in
            Ok (replaceBy c.1 cur c.2)
      | _, _, _ => Undefined "operand of a pool max"
      end
  | Kind.SoftMaxWithEInstKind =>
      match op 0, op 1, op 2, op 3 with
      | Some Dest, Some Src, Some Selected, Some E =>
          let isUsedE :=
            existsb (λ U : Instruction * OperandKind.t,
                       bool_decide (U.2 ≠ OperandKind.Out)
                       && bool_decide (self U.1 ≠ self cur))
                    (getUsers M (getOrigin M E)) in
          if isUsedE then Ok (M, it)
          else
            let c := create M Kind.SoftMaxInstKind (getName cur) (getType cur)
                       [(Dest, OperandKind.Out); (Src, OperandKind.In);
                        (Selected, OperandKind.In)] (getAttrs cur) in
            Ok (replaceBy c.1 cur c.2)
      | _, _, _, _ => Undefined "operand of a soft max"
      end
  | Kind.ReshapeInstKind =>
      match op 0, op 1 with
      | Some Dest, Some Src =>
          let t := create M Kind.TensorViewInstKind (getName cur)
                     (default 0 (typeOf M Dest)) [(Src, OperandKind.In)] [] in
          let M1 := moveBefore t.1 cur t.2 in
          let c := create M1 Kind.CopyInstKind (getName cur) (getType cur)
                     [(Dest, OperandKind.Out); (self t.2, OperandKind.In)] [] in
          Ok (eraseInstruction (moveBefore c.1 cur c.2) (self cur),
              Some (self t.2))
      | _, _ => Undefined "operand of a reshape"
      end
  | Kind.TransposeInstKind =>
      match op 0, op 1 with
      | Some Dest, Some Src =>
          if isSplatWriter M Src then
            let viewed :=
              if bool_decide (typeOf M Src ≠ typeOf M Dest) then
                let t := create M Kind.TensorViewInstKind (getName cur)
                           (default 0 (typeOf M Dest)) [(Src, OperandKind.In)] [] in
                (moveBefore t.1 cur t.2, self t.2)
              else (M, Src) in
            let c := create viewed.1 Kind.CopyInstKind (getName cur) (getType cur)
                       [(Dest, OperandKind.Out); (viewed.2, OperandKind.In)] [] in
            Ok (replaceBy c.1 cur c.2)
          else Ok (M, it)
      | _, _ => Undefined "operand of a transpose"
      end
  | Kind.ElementMaxInstKind =>
      match op 0, op 1, op 2 with
      | Some Dest, Some LHS, Some RHS =>
          if negb (isSplatWriter M LHS) then Ok (M, it)
          else if isSplatWriter M RHS then Ok (M, it)
          else
            let c := create M Kind.ElementMaxInstKind (getName cur) (getType cur)
                       [(Dest, OperandKind.Out); (RHS, OperandKind.In);
                        (LHS, OperandKind.In)] (getAttrs cur) in
            Ok (replaceBy c.1 cur c.2)
      | _, _, _ => Undefined "operand of an element max"
      end
  | Kind.TensorViewInstKind =>
      match op 0 with
      | Some Src =>
          if bool_decide (Some (getType cur) = typeOf M Src) then
            M' ← replaceAllNonDeallocUsersWith M (self cur) Src;
            Ok (M', it)
          else Ok (M, it)
      | None => Undefined "operand of a tensor view"
      end
  | Kind.CopyInstKind =>
      match getSrc cur, getDest cur with
      | Some Src, Some Dest =>
          if bool_decide (getOrigin M Src = getOrigin M Dest)
          then Ok (eraseInstruction M (self cur), it)
          else Ok (M, it)
      | _, _ => Undefined "operand of a copy"
      end
  | _ => Ok (M, it)
  end.

Fixpoint peepholeLoop (fuel : nat) (M : Module) (it : option Value)
    : result Module :=
  match it with
  | None => Ok M
  | Some p =>
      match fuel with
      | 0 => OutOfFuel
      | S fuel' =>
          match getInstr M p with
          | None => Undefined "iterator outside the stream"
          | Some cur =>
              st ← peepholeStep M cur (next (getInstrs M) p);
              peepholeLoop fuel' st.1 st.2
          end
      end
  end.

(** Perform peephole optimizations.  A rewrite puts at most two new
    instructions in front of the cursor, and none of them is rewritten
    into new instructions again. *)
Definition performPeepholeOptimizations (M : Module) : result Module :=
  peepholeLoop (3 * length (getInstrs M)) M (begin_ (getInstrs M)).

(** *** optimize *)

Inductive CompilationMode := Train | Infer.

Definition optimize (M : Module) (mode : CompilationMode) : result Module :=
  _ ← assert (verify M) "verify";
  if negb optimizeIR then Ok M
  else
    M1 ← performPeepholeOptimizations M;
    (* Reuse buffers from previous operations. *)
    M2 ← shareBuffers M1;
    (* Remove unused allocations. *)
    let M3 := deleteDeadAllocs M2 in
    (* Shorten the lifetime of buffers. *)
    M4 ← hoistDealloc M3;
    M5 ← sinkAllocas M4;
    (* Turn read-only weights into constant weights. *)
    let M6 := makeWeightsConst M5 in
    (* Perform copy propagation. *)
    M7 ← copyPropagation M6;
    M8 ← performPeepholeOptimizations M7;
    let M9 := deleteDeadAllocs M8 in
    (* Perform Dead Store Elimination. *)
    M10 ← eliminateDeadStores M9;
    let M11 := deleteDeadAllocs M10 in
    (* Perform a debug instrumentation if required. *)
    let M12 := performDebugInstrumentation M11 in
    _ ← assert (verify M12) "verify";
    Ok M12.

End Optimizer.

(** ** The IR library's side of the optimizer *)

(** Modelled from the spec: [Module::verify] (glow/IR/IR.cpp) is not part
    of the sources.  Section 3 gives the invariants it stands for: I1,
    every operand references a WeightVar of the module, an
    AllocActivation, or a TensorView whose chain of sources ends in one of
    those; I2, an AllocActivation has at most one DeallocActivation, which
    follows it, and every use of the allocation lies between the two; I3,
    a Constant WeightVar appears only in In operands.  (I4 and I5 hold of
    every module of this model.) *)
Definition verifyOperand (M : Module) (O : Operand) : bool :=
  let o := getOrigin M O.1 in
  (isAllocValue M o || bool_decide (is_Some (getWeight M o)))
  && (bool_decide (isWeightVar O.1 = true
                   ∧ mutabilityOf M O.1 = MutabilityKind.Constant
                   → O.2 = OperandKind.In)).

Definition usesValue (v : Value) (ins : Instruction) : bool :=
  bool_decide (v ∈ (getOperands ins).*1).

Definition verifyAlloc (M : Module) (a : nat) (alloc : Instruction) : bool :=
  negb (isAlloc alloc) ||
  match filter (λ d : nat * Instruction,
                  isDealloc d.2 = true ∧ getOperandValue d.2 0 = Some (self alloc))
               (imap pair (getInstrs M)) with
  | [] => true
  | [(d, _)] =>
      (a <? d)
      && forallb (λ j : nat * Instruction,
                    negb (usesValue (self alloc) j.2) || ((a <? j.1) && (j.1 <=? d)))
                 (imap pair (getInstrs M))
  | _ => false
  end.

Definition verifyInvariants (M : Module) : bool :=
  forallb (λ ins, forallb (verifyOperand M) (getOperands ins)) (getInstrs M)
  && forallb (λ a : nat * Instruction, verifyAlloc M a.1 a.2) (imap pair (getInstrs M)).

(** Modelled from the spec: [Instruction::isInplaceOp] is generated code
    that is not part of the sources.  Section 4.5: elementwise binary
    operations permit the reuse of operand 0 with operand 1 or operand 2;
    copy and the other kinds of section 3 permit none. *)
Definition inplaceTable (k : Kind.t) (first second : nat) : bool :=
  match k with
  | Kind.ElementMaxInstKind => (first =? 0) && ((second =? 1) || (second =? 2))
  | _ => false
  end.

(** Two modules are structurally identical up to instruction names when
    they are equal once the names are erased. *)
Definition stripNames (M : Module) : Module :=
  setInstrs M
    ((λ ins, mkInstruction (iid ins) (getKind ins) EmptyString (getType ins)
               (getOperands ins) (getAttrs ins)) <$> getInstrs M).

(** ** Sample modules *)

Module Samples.
Import Kind OperandKind.

Definition alloc (n : positive) (ty : nat) : Instruction :=
  mkInstruction n AllocActivationInstKind "alloc" ty [] [].
Definition dealloc (n a : positive) : Instruction :=
  mkInstruction n DeallocActivationInstKind "dealloc" 0 [(InstrPtr a, Out)] [].
Definition tensorview (n : positive) (src : Value) (ty : nat) : Instruction :=
  mkInstruction n TensorViewInstKind "view" ty [(src, In)] [].
Definition splat (n : positive) (dest : Value) : Instruction :=
  mkInstruction n SplatInstKind "splat" 0 [(dest, Out)] [].
Definition copy (n : positive) (dest src : Value) : Instruction :=
  mkInstruction n CopyInstKind "copy" 0 [(dest, Out); (src, In)] [].
Definition elementmax (n : positive) (dest lhs rhs : Value) : Instruction :=
  mkInstruction n ElementMaxInstKind "max" 0
    [(dest, Out); (lhs, In); (rhs, In)] [].
Definition weight (n : positive) (m : MutabilityKind.t) : WeightVar :=
  mkWeightVar n "w" 7 m.

(** An allocation under a chain of four views that nothing uses. *)
Definition viewChain : Module :=
  mkModule [alloc 1 7; tensorview 2 (InstrPtr 1) 8; tensorview 3 (InstrPtr 2) 9;
            tensorview 4 (InstrPtr 3) 10; tensorview 5 (InstrPtr 4) 11;
            dealloc 6 1] [].

(** What one run of the optimizer leaves of it. *)
Definition viewChainOnce : Module :=
  mkModule [alloc 1 7; tensorview 2 (InstrPtr 1) 8; dealloc 6 1] [].

(** No instruction, one weight. *)
Definition onlyWeight : Module :=
  mkModule [] [weight 1 MutabilityKind.Mutable].

(** An instruction that writes and reads the same buffer, which nothing
    reads afterwards. *)
Definition selfMax : Module :=
  mkModule [alloc 1 7; splat 2 (InstrPtr 1);
            elementmax 3 (InstrPtr 1) (InstrPtr 1) (InstrPtr 1);
            dealloc 4 1] [].

(** Two buffers, one after the other. *)
Definition twoBuffers : Module :=
  mkModule [alloc 1 7; splat 2 (InstrPtr 1); dealloc 3 1;
            alloc 4 7; splat 5 (InstrPtr 4); dealloc 6 4] [].

(** A buffer that is written, copied into a second buffer and not used
    again; the second buffer is then read. *)
Definition print (n : positive) (src : Value) : Instruction :=
  mkInstruction n DebugPrintInstKind "print" 0 [(src, In)] [].

Definition copyChain : Module :=
  mkModule [alloc 1 7; splat 2 (InstrPtr 1); alloc 3 7;
            copy 4 (InstrPtr 3) (InstrPtr 1); dealloc 5 1;
            print 6 (InstrPtr 3); dealloc 7 3] [].

(** Two buffers whose last use is the same instruction. *)
Definition sharedLastUse : Module :=
  mkModule [alloc 1 7; alloc 2 7; copy 3 (InstrPtr 2) (InstrPtr 1);
            dealloc 4 1; dealloc 5 2] [].

(** A buffer that is copied into a weight. *)
Definition storeToWeight : Module :=
  mkModule [alloc 1 7; splat 2 (InstrPtr 1); copy 3 (WeightPtr 1) (InstrPtr 1);
            dealloc 4 1] [weight 1 MutabilityKind.Mutable].

(** An element max from a first buffer into a second one that is read
    afterwards. *)
Definition maxIntoSecond : Module :=
  mkModule [alloc 1 7; splat 3 (InstrPtr 1); alloc 2 7;
            elementmax 4 (InstrPtr 2) (InstrPtr 1) (InstrPtr 1);
            dealloc 5 1; print 6 (InstrPtr 2); dealloc 7 2] [].

(** A buffer whose dealloc stands in front of its last use: what buffer
    sharing and the dead-allocation sweep leave of [maxIntoSecond]. *)
Definition earlyDealloc : Module :=
  mkModule [alloc 1 7; splat 3 (InstrPtr 1);
            elementmax 4 (InstrPtr 1) (InstrPtr 1) (InstrPtr 1);
            dealloc 5 1; print 6 (InstrPtr 1)] [].
End Samples.

(** ** Predicates on the analyses *)

(** The intervals of a location cover the index [k]. *)
Definition coveredIn (liveness : gmap Value (list (nat * nat))) (loc : Value)
    (k : nat) : Prop :=
  ∃ ivs iv, liveness !! loc = Some ivs ∧ iv ∈ ivs ∧ iv.1 ≤ k ≤ iv.2.

(** The shape of the interval map while the walk is at the index [idx]:
    no location has an empty list, and every interval is well formed and
    ends at [idx] at the latest. *)
Definition livenessOk (liveness : gmap Value (list (nat * nat))) (idx : nat) : Prop :=
  ∀ loc ivs, liveness !! loc = Some ivs →
    ivs ≠ [] ∧ Forall (λ iv : nat * nat, iv.1 ≤ iv.2 ∧ iv.2 ≤ idx) ivs.

(** The states of the reverse walk of [shareBuffers] over a module. *)
Inductive shareReach (NDEBUG : bool) (isInplaceOp : Kind.t → nat → nat → bool)
    (M : Module) : ShareState → Prop :=
  | shareReach_start : shareReach NDEBUG isInplaceOp M (shareStart M)
  | shareReach_step s s' :
      shareReach NDEBUG isInplaceOp M s →
      shareStep NDEBUG isInplaceOp s = Ok s' →
      shareReach NDEBUG isInplaceOp M s'.

(** A non-dealloc use of the allocation [a]: the allocation itself, or
    an instruction with an operand whose allocation origin is [a] (a use
    of a view is a use of the underlying allocation). *)
Definition usesAlloc (M : Module) (a : Value) (ins : Instruction) : bool :=
  if isDealloc ins then false
  else if isAlloc ins then bool_decide (self ins = a)
  else bool_decide (Exists (λ op : Operand, getAllocationOrigin M op.1 = Some a)
                      (getOperands ins)).

(** The last non-dealloc use of an allocation, in stream order. *)
Definition lastUse (M : Module) (a : Value) : option Instruction :=
  last (filter (λ ins, usesAlloc M a ins = true) (getInstrs M)).

(** The instruction [d] stands after the instruction at the address [u],
    with nothing but deallocs between the two. *)
Definition placedAfter (u : Value) (d : Instruction) (l : list Instruction) : Prop :=
  ∃ pre ux ds post,
    l = pre ++ ux :: ds ++ d :: post
    ∧ self ux = u
    ∧ Forall (λ x, isDealloc x = true) ds.

(** The last non-dealloc use of the allocation that the dealloc [d]
    closes. *)
Definition lastUseOf (M : Module) (d : Instruction) : option Instruction :=
  op ← getOperandValue d 0; lastUse M (getOrigin M op).

(** Every dealloc of the stream closes an allocation (invariant I2). *)
Definition deallocsCloseAllocs (M : Module) : Prop :=
  ∀ d, d ∈ getInstrs M → isDealloc d = true →
    ∃ op, getOperandValue d 0 = Some op
          ∧ isAllocValue M (getOrigin M op) = true.

(** The body of the second loop of [hoistDealloc] returns on the dealloc
    [d]: it has an operand, the cast succeeds and the allocation has a
    recorded last user. *)
Definition hoistable (NDEBUG : bool) (M : Module) (d : Instruction) : Prop :=
  ∃ op ux,
    getOperandValue d 0 = Some op
    ∧ NDEBUG || isAllocValue M (getOrigin M op) = true
    ∧ lastUse M (getOrigin M op) = Some ux.

(** A state of the second loop of [hoistDealloc]: the part [P] of the
    stream behind the cursor and the part [R] from the cursor on.  The
    two hold the instructions of the module, the ones that are not
    deallocs in the same order, and every dealloc behind the cursor is
    placed after the last use of its allocation. *)
Definition hoistedSoFar (M : Module) (P R : list Instruction) : Prop :=
  P ++ R ≡ₚ getInstrs M
  ∧ filter (λ ins, isDealloc ins = false) (P ++ R)
    = filter (λ ins, isDealloc ins = false) (getInstrs M)
  ∧ ∀ d, d ∈ P → isDealloc d = true →
      ∃ ux, lastUseOf M d = Some ux ∧ placedAfter (self ux) d P.

(** The dealloc [d], at the cursor with [R] after it, is moved forward:
    the last use of its allocation is still ahead. *)
Definition movesForward (M : Module) (d : Instruction) (R : list Instruction)
    : bool :=
  isDealloc d
  && match lastUseOf M d with
     | Some ux => bool_decide (ux ∈ R)
     | None => false
     end.

(** The number of iterations the second loop has left: one for each
    instruction from the cursor on, and one more for each dealloc that is
    moved forward and visited again. *)
Fixpoint visitsLeft (M : Module) (R : list Instruction) : nat :=
  match R with
  | [] => 0
  | x :: R' => (if movesForward M x R' then 2 else 1) + visitsLeft M R'
  end.

(** The states of the second loop of [hoistDealloc] over a module: the
    stream and the cursor. *)
Inductive hoistReach (NDEBUG : bool) (M : Module)
    : list Instruction → option Value → Prop :=
  | hoistReach_start :
      hoistReach NDEBUG M (getInstrs M) (begin_ (getInstrs M))
  | hoistReach_step l p curr l' :
      hoistReach NDEBUG M l (Some p) →
      findInstr l p = Some curr →
      hoistStep NDEBUG M (lastUsers M) l curr = Ok l' →
      hoistReach NDEBUG M l' (next l p).

(** The dealloc [d] stands after [ux], separated from it by nothing but
    deallocs of allocations whose last use is [ux] as well. *)
Definition placedAmong (M : Module) (ux d : Instruction) (l : list Instruction)
    : Prop :=
  ∃ pre ds post,
    l = pre ++ ux :: ds ++ d :: post
    ∧ Forall (λ x, isDealloc x = true ∧ lastUseOf M x = Some ux) ds.

(** The operand slots of the stream that reference the value [v]. *)
Definition slotsOf (v : Value) (M : Module) : list (list bool) :=
  (λ ins, (λ op : Operand, bool_decide (op.1 = v)) <$> getOperands ins)
    <$> getInstrs M.

(** ** The one-shot event (lib/Onnxifi/Base.cpp) *)

Module Event.
(** The state of an [Event] is its flag.  A call of [signal] holds the
    mutex while it reads and writes the flag, so the calls take effect one
    after the other. *)
Record t := mk { fired_ : bool }.

(** [Event::signal]: false when the event has fired already, else the
    event fires and the result is true. *)
Definition signal (e : t) : bool * t :=
  if fired_ e then (false, e) else (true, mk true).

(** The results of [n] calls, in the order in which they take effect. *)
Fixpoint signals (n : nat) (e : t) : list bool * t :=
  match n with
  | 0 => ([], e)
  | S n' => let r := signal e in
            let rs := signals n' r.2 in
            (r.1 :: rs.1, rs.2)
  end.

(** The predicate [Event::wait] waits for. *)
Definition waitDone (e : t) : bool := fired_ e.
End Event.

(** ** More predicates on the passes *)

(** What no pass but the peephole changes of an instruction: everything
    but the values of its operands. *)
Definition skeleton (ins : Instruction)
    : positive * Kind.t * string * nat * list nat * list OperandKind.t :=
  (iid ins, getKind ins, getName ins, getType ins, getAttrs ins,
   (getOperands ins).*2).

(** What no pass changes of a weight: everything but its mutability. *)
Definition weightId (W : WeightVar) : positive * string * nat :=
  (wid W, wName W, wType W).

(** The instruction mutates one of its operands. *)
Definition mutatesOperand (ins : Instruction) : Prop :=
  Exists (λ op : Operand, op.2 ≠ OperandKind.In) (getOperands ins).

(** The instructions dead-store elimination does not look at. *)
Definition isMemoryOp (ins : Instruction) : bool :=
  isDealloc ins || isAlloc ins || isTensorView ins.

(** The instruction references the value directly. *)
Definition references (v : Value) (ins : Instruction) : Prop :=
  v ∈ (getOperands ins).*1.

(** Consecutive intervals of a list do not overlap: each ends where the
    next begins, at the latest. *)
Definition consecutive (ivs : list (nat * nat)) : Prop :=
  ∀ i iv1 iv2, ivs !! i = Some iv1 → ivs !! S i = Some iv2 → iv1.2 ≤ iv2.1.

(** The shape of an interval map: its keys are locations of the module
    and the intervals of a location follow one another. *)
Definition intervalsSorted (M : Module) (liveness : gmap Value (list (nat * nat)))
    : Prop :=
  ∀ loc ivs, liveness !! loc = Some ivs →
    locationOf M loc = Some loc ∧ consecutive ivs.

(** The kinds of instruction the peephole pass rewrites. *)
Definition isPeepholeKind (k : Kind.t) : bool :=
  match k with
  | Kind.PoolMaxWithXYInstKind | Kind.SoftMaxWithEInstKind
  | Kind.ReshapeInstKind | Kind.TransposeInstKind | Kind.ElementMaxInstKind
  | Kind.TensorViewInstKind | Kind.CopyInstKind => true
  | _ => false
  end.

(** * Properties *)

(** ** The result monad *)

Lemma bind_Ok {A B} (r : result A) (f : A → result B) (b : B) :
  r ≫= f = Ok b ↔ ∃ a, r = Ok a ∧ f a = Ok b.
Proof.
  split.
  - destruct r; simpl; intros; try discriminate; eauto.
  - by intros (a & -> & ?).
Qed.

Lemma assert_Ok NDEBUG b msg :
  assert NDEBUG b msg = Ok () ↔ NDEBUG || b = true.
Proof. unfold assert. by destruct (NDEBUG || b). Qed.

Lemma assert_ndebug b msg : assert true b msg = Ok ().
Proof. done. Qed.

(** ** The driver *)

Section Driver.
Variable NDEBUG : bool.
Variable verify : Module → bool.
Variable isInplaceOp : Kind.t → nat → nat → bool.
Variable instrumentDebug : bool.

(** C9: with [optimizeIR] off, [optimize] makes the verify check and
    returns the module it was given: no pass runs, so no instruction is
    inserted, erased, moved or rewritten and no weight changes its
    mutability.  The only other outcome is the abort of a failed
    verify. *)
Theorem optimize_disabled (M : Module) (mode : CompilationMode) :
  optimize NDEBUG verify isInplaceOp instrumentDebug false M mode
    = (_ ← assert NDEBUG (verify M) "verify"; Ok M)
  ∧ (NDEBUG || verify M = true →
     optimize NDEBUG verify isInplaceOp instrumentDebug false M mode = Ok M)
  ∧ (∀ M', optimize NDEBUG verify isInplaceOp instrumentDebug false M mode = Ok M' →
           M' = M).
Proof.
  unfold optimize, assert. destruct (NDEBUG || verify M); simpl.
  - split_and!; [done | done | by intros M' [= <-]].
  - split_and!; [done | done | done].
Qed.

(** The passes on a module without instructions. *)
Lemma peephole_empty ws :
  performPeepholeOptimizations NDEBUG (mkModule [] ws) = Ok (mkModule [] ws).
Proof. done. Qed.

Lemma shareBuffers_empty ws :
  shareBuffers NDEBUG isInplaceOp (mkModule [] ws) = Ok (mkModule [] ws).
Proof. done. Qed.

Lemma deleteDeadAllocs_empty ws :
  deleteDeadAllocs (mkModule [] ws) = mkModule [] ws.
Proof. done. Qed.

Lemma hoistDealloc_empty ws :
  hoistDealloc NDEBUG (mkModule [] ws) = Ok (mkModule [] ws).
Proof. done. Qed.

Lemma sinkAllocas_empty ws :
  sinkAllocas NDEBUG (mkModule [] ws) = Ok (mkModule [] ws).
Proof. unfold sinkAllocas, assert. simpl. by rewrite orb_true_r. Qed.

Lemma makeWeightsConst_empty ws :
  makeWeightsConst (mkModule [] ws)
  = mkModule [] ((λ W, setMutability W MutabilityKind.Constant) <$> ws).
Proof. done. Qed.

Lemma eraseInstructions_none M : eraseInstructions M ∅ = M.
Proof.
  unfold eraseInstructions. rewrite elements_empty. done.
Qed.

Lemma calculateLiveIntervals_empty ws :
  calculateLiveIntervals NDEBUG (mkModule [] ws) = Ok ∅.
Proof.
  unfold calculateLiveIntervals, assert. simpl.
  rewrite bool_decide_true by apply map_Forall_empty.
  rewrite orb_true_r. simpl. unfold extendWeights. by rewrite map_imap_empty.
Qed.

Lemma copyPropagation_empty ws :
  copyPropagation NDEBUG (mkModule [] ws) = Ok (mkModule [] ws).
Proof.
  unfold copyPropagation. rewrite calculateLiveIntervals_empty. simpl.
  by rewrite eraseInstructions_none.
Qed.

Lemma eliminateDeadStores_empty :
  eliminateDeadStores (mkModule [] []) = Ok (mkModule [] []).
Proof.
  unfold eliminateDeadStores. simpl. by rewrite eraseInstructions_none.
Qed.

(** The dereference of [std::prev(instrs.end())] in the empty stream. *)
Lemma eliminateDeadStores_empty_weights W ws :
  eliminateDeadStores (mkModule [] (W :: ws))
  = Undefined "*std::prev(instrs.end()) of an empty stream".
Proof. done. Qed.

Lemma performDebugInstrumentation_empty ws :
  performDebugInstrumentation instrumentDebug (mkModule [] ws) = mkModule [] ws.
Proof. unfold performDebugInstrumentation. by destruct instrumentDebug. Qed.

Lemma optimize_empty optimizeIR mode :
  optimize NDEBUG verify isInplaceOp instrumentDebug optimizeIR (mkModule [] []) mode
  = if NDEBUG || verify (mkModule [] []) then Ok (mkModule [] [])
    else Abort "verify".
Proof.
  unfold optimize, assert.
  destruct (NDEBUG || verify (mkModule [] [])) eqn:Hv; [|done].
  destruct optimizeIR; [|done].
  cbv beta iota delta [mbind result_bind negb].
  rewrite peephole_empty, shareBuffers_empty, deleteDeadAllocs_empty.
  rewrite hoistDealloc_empty, sinkAllocas_empty, makeWeightsConst_empty.
  cbv beta iota delta [fmap list_fmap].
  rewrite copyPropagation_empty, peephole_empty, deleteDeadAllocs_empty.
  rewrite eliminateDeadStores_empty, deleteDeadAllocs_empty.
  rewrite performDebugInstrumentation_empty.
  by rewrite Hv.
Qed.

(** C7, as amended: on a module whose instruction stream is empty the
    passes that come before dead-store elimination are well defined and
    leave the stream empty, making weights constant marks every weight
    Constant (a weight without users is read-only), and the invariants
    of [verify] hold; when the module has no weights either, [optimize]
    as a whole returns it unchanged. *)
Theorem optimize_empty_stream (optimizeIR : bool) (M : Module)
    (mode : CompilationMode) :
  getInstrs M = [] →
  performPeepholeOptimizations NDEBUG M = Ok M
  ∧ shareBuffers NDEBUG isInplaceOp M = Ok M
  ∧ deleteDeadAllocs M = M
  ∧ hoistDealloc NDEBUG M = Ok M
  ∧ sinkAllocas NDEBUG M = Ok M
  ∧ makeWeightsConst M
    = mkModule [] ((λ W, setMutability W MutabilityKind.Constant) <$> getWeights M)
  ∧ copyPropagation NDEBUG (makeWeightsConst M) = Ok (makeWeightsConst M)
  ∧ verifyInvariants M = true
  ∧ (getWeights M = [] →
     optimize NDEBUG verify isInplaceOp instrumentDebug optimizeIR M mode
     = if NDEBUG || verify M then Ok M else Abort "verify").
Proof.
  destruct M as [l ws]; simpl; intros ->.
  split_and!;
    [apply peephole_empty | apply shareBuffers_empty | apply deleteDeadAllocs_empty
    | apply hoistDealloc_empty | apply sinkAllocas_empty | apply makeWeightsConst_empty
    | rewrite makeWeightsConst_empty; apply copyPropagation_empty | done | ].
  intros ->. apply optimize_empty.
Qed.

(** C8, as amended: a second run of [optimize] returns the module of
    the first run when that module has no instruction and no weight
    left. *)
Theorem optimize_twice_empty (optimizeIR : bool) (M M' : Module)
    (mode : CompilationMode) :
  optimize NDEBUG verify isInplaceOp instrumentDebug optimizeIR M mode = Ok M' →
  getInstrs M' = [] →
  getWeights M' = [] →
  optimize NDEBUG verify isInplaceOp instrumentDebug optimizeIR M' mode = Ok M'.
Proof.
  intros Hopt Hi Hw. destruct M' as [l ws]; simpl in *; subst.
  rewrite optimize_empty.
  assert (NDEBUG || verify (mkModule [] []) = true) as ->; [|done].
  unfold optimize in Hopt.
  apply bind_Ok in Hopt as ([] & Hv1 & Hopt).
  destruct optimizeIR; cbn [negb] in Hopt.
  - do 7 (apply bind_Ok in Hopt as (? & _ & Hopt)).
    apply bind_Ok in Hopt as ([] & Hv & [= Heq]).
    apply assert_Ok in Hv. by rewrite Heq in Hv.
  - injection Hopt as ->. by apply assert_Ok in Hv1.
Qed.
End Driver.

(** The empty module goes through [optimize] unchanged. *)
Lemma optimize_empty_stream_witness :
  getInstrs (mkModule [] []) = []
  ∧ optimize false verifyInvariants inplaceTable false true (mkModule [] []) Train
    = Ok (mkModule [] []).
Proof.
  split; [reflexivity|].
  pose proof (optimize_empty_stream false verifyInvariants inplaceTable false true
                (mkModule [] []) Train eq_refl) as H.
  exact (proj2 (proj2 (proj2 (proj2 (proj2 (proj2 (proj2 (proj2 H))))))) eq_refl).
Defined.

(** C7 as stated fails on a module with no instruction and one Mutable
    weight: [optimize] does not return the module.  Making weights
    constant has changed the weight, and dead-store elimination then
    dereferences [std::prev(instrs.end())] in the empty stream. *)
Lemma optimize_empty_stream_weight :
  optimize false verifyInvariants inplaceTable false true Samples.onlyWeight Train
    ≠ Ok Samples.onlyWeight
  ∧ optimize false verifyInvariants inplaceTable false true Samples.onlyWeight Train
    = Undefined "*std::prev(instrs.end()) of an empty stream"
  ∧ makeWeightsConst Samples.onlyWeight ≠ Samples.onlyWeight.
Proof. split_and!; [by vm_compute | by vm_compute | by vm_compute]. Qed.

(** C8 as stated fails on an allocation under a chain of four unused
    views: each sweep of dead allocations erases the views without users
    at its start, so the three sweeps of the first run leave one view,
    which the second run erases with its allocation. *)
Lemma optimize_not_idempotent :
  optimize false verifyInvariants inplaceTable false true Samples.viewChain Train
    = Ok Samples.viewChainOnce
  ∧ optimize false verifyInvariants inplaceTable false true Samples.viewChainOnce Train
    = Ok (mkModule [] [])
  ∧ stripNames (mkModule [] []) ≠ stripNames Samples.viewChainOnce.
Proof. split_and!; [by vm_compute | by vm_compute | by vm_compute]. Qed.

(** The third run on the chain of views changes nothing any more. *)
Lemma optimize_twice_empty_witness :
  optimize false verifyInvariants inplaceTable false true Samples.viewChainOnce Train
    = Ok (mkModule [] [])
  ∧ optimize false verifyInvariants inplaceTable false true (mkModule [] []) Train
    = Ok (mkModule [] []).
Proof.
  assert (optimize false verifyInvariants inplaceTable false true
            Samples.viewChainOnce Train = Ok (mkModule [] [])) as H
    by (vm_compute; reflexivity).
  split; [exact H|].
  exact (optimize_twice_empty false verifyInvariants inplaceTable false true
           Samples.viewChainOnce (mkModule [] []) Train H eq_refl eq_refl).
Defined.

(** ** Buffer sharing: the live set and the output buffers *)


Section KillOut.
Import OperandKind.

Lemma killOut_no_origin M st O :
  getAllocationOrigin M O.1 = None → killOut M st O = st.
Proof. unfold killOut. by intros ->. Qed.


End KillOut.



(** ** Live intervals: the index of an instruction, the order of its operands *)

Section OperandOrder.
Import OperandKind.

Lemma Value_lt_irrefl a : ¬ Value_lt a a.
Proof. destruct a; simpl; lia. Qed.

Lemma Value_lt_trans a b c : Value_lt a b → Value_lt b c → Value_lt a c.
Proof. destruct a, b, c; simpl; try done; lia. Qed.

Lemma Value_lt_trichotomy a b : Value_lt a b ∨ a = b ∨ Value_lt b a.
Proof.
  destruct a as [m|m], b as [n|n]; simpl; try tauto;
    destruct (Pos.lt_total m n) as [?|[->|?]]; tauto.
Qed.

Lemma rank_inj k1 k2 : rank k1 = rank k2 → k1 = k2.
Proof. by destruct k1, k2. Qed.

Lemma Operand_lt_asym a b : Operand_lt a b → ¬ Operand_lt b a.
Proof.
  intros [H1|[E1 H1]] [H2|[E2 H2]].
  - exact (Value_lt_irrefl _ (Value_lt_trans _ _ _ H1 H2)).
  - rewrite E2 in H1. exact (Value_lt_irrefl _ H1).
  - rewrite E1 in H2. exact (Value_lt_irrefl _ H2).
  - lia.
Qed.

Lemma Operand_lt_trans a b c : Operand_lt a b → Operand_lt b c → Operand_lt a c.
Proof.
  intros [H1|[E1 H1]] [H2|[E2 H2]].
  - left. by eapply Value_lt_trans.
  - left. by rewrite <- E2.
  - left. by rewrite E1.
  - right. split; [congruence | lia].
Qed.

Lemma Operand_lt_trichotomy a b : Operand_lt a b ∨ a = b ∨ Operand_lt b a.
Proof.
  destruct a as [va ka], b as [vb kb]. unfold Operand_lt. simpl.
  destruct (Value_lt_trichotomy va vb) as [?|[->|?]]; [tauto| |tauto].
  destruct (lt_eq_lt_dec (rank ka) (rank kb)) as [[?|E]|?]; [tauto| |tauto].
  apply rank_inj in E as ->. tauto.
Qed.

#[global] Instance Operand_le_total : Total Operand_le.
Proof.
  intros a b. unfold Operand_le.
  destruct (decide (Operand_lt b a)) as [H|H]; [right | by left].
  by apply Operand_lt_asym.
Qed.

#[global] Instance Operand_le_trans : Transitive Operand_le.
Proof.
  intros a b c Hab Hbc Hca. unfold Operand_le in *.
  destruct (Operand_lt_trichotomy a b) as [H|[->|H]]; [|done|done].
  apply Hbc. by eapply Operand_lt_trans.
Qed.

(** Among the operands on one value, the order is that of the kinds. *)
Lemma Operand_le_same_value v k1 k2 :
  Operand_le (v, k1) (v, k2) ↔ rank k1 ≤ rank k2.
Proof.
  unfold Operand_le, Operand_lt. simpl. split.
  - intros H. destruct (le_lt_dec (rank k1) (rank k2)); [done|].
    exfalso. apply H. by right.
  - intros H [Hlt|[_ Hlt]]; [by apply Value_lt_irrefl in Hlt | lia].
Qed.
End OperandOrder.

Section LiveLoop.
Variable NDEBUG : bool.

Lemma liveLoop_app M pre post i lv :
  liveLoop NDEBUG M (pre ++ post) i lv
  = (lv1 ← liveLoop NDEBUG M pre i lv;
     liveLoop NDEBUG M post (i + length pre) lv1).
Proof.
  revert i lv. induction pre as [|x pre IH]; intros i lv; simpl.
  - by rewrite Nat.add_0_r.
  - destruct (liveInstr NDEBUG M i lv x) as [lv'| | |]; simpl; [|done..].
    rewrite IH. by replace (S i + length pre) with (i + S (length pre)) by lia.
Qed.

(** C2, as amended: the running index is the position in the stream.
    A DeallocActivation is ignored, its operands are not looked at, but
    it advances the index like every other instruction: the
    instruction after [pre] is processed with the index [length pre],
    and the instructions after it from [length pre + 1] on.  Within an
    instruction that is not a dealloc the operands are processed in the
    order of [std::sort]: the same operands, sorted by value and then
    by kind, with In before InOut before Out. *)
Theorem liveLoop_index_and_order (M : Module) (pre post : list Instruction)
    (ins : Instruction) (lv : gmap Value (list (nat * nat))) :
  liveLoop NDEBUG M (pre ++ ins :: post) 0 lv
  = (lv1 ← liveLoop NDEBUG M pre 0 lv;
     lv2 ← (if isDealloc ins then Ok lv1
            else foldM (liveOperand NDEBUG M ins (length pre)) lv1
                   (sortOperands (getOperands ins)));
     liveLoop NDEBUG M post (S (length pre)) lv2)
  ∧ sortOperands (getOperands ins) ≡ₚ getOperands ins
  ∧ StronglySorted Operand_le (sortOperands (getOperands ins))
  ∧ (∀ v k1 k2, Operand_le (v, k1) (v, k2)
                ↔ OperandKind.rank k1 ≤ OperandKind.rank k2).
Proof.
  split_and!.
  - rewrite liveLoop_app. simpl.
    destruct (liveLoop NDEBUG M pre 0 lv) as [lv1| | |]; simpl; [|done..].
    unfold liveInstr. by destruct (isDealloc ins).
  - apply merge_sort_Permutation.
  - apply (StronglySorted_merge_sort _).
  - apply Operand_le_same_value.
Qed.
End LiveLoop.

(** C2 as stated fails in [twoBuffers]: the write to the second buffer
    is the fifth instruction of the stream and the fourth that is not a
    dealloc; its interval starts at the index 4, not 3.  Dropping the
    dealloc in front of it changes the intervals. *)
Lemma liveLoop_dealloc_advances_index :
  (∃ lv, calculateLiveIntervals false Samples.twoBuffers = Ok lv
         ∧ lv !! InstrPtr 4 = Some [(4, 4)])
  ∧ length (filter (λ ins, isDealloc ins = false)
              (take 4 (getInstrs Samples.twoBuffers))) = 3
  ∧ liveLoop false Samples.twoBuffers (drop 2 (getInstrs Samples.twoBuffers)) 2 ∅
    ≠ liveLoop false Samples.twoBuffers (drop 3 (getInstrs Samples.twoBuffers)) 2 ∅.
Proof.
  split_and!.
  - eexists. split; by vm_compute.
  - by vm_compute.
  - by vm_compute.
Qed.

(** ** Live intervals cover the references *)

Section Coverage.
Variable NDEBUG : bool.
Implicit Types (lv : gmap Value (list (nat * nat))) (ivs : list (nat * nat)).

Lemma getEnclosingInterval_covers ivs k :
  is_Some (getEnclosingInterval ivs k) ↔ ∃ iv, iv ∈ ivs ∧ iv.1 ≤ k ≤ iv.2.
Proof.
  unfold getEnclosingInterval. induction ivs as [|x ivs IH]; simpl.
  - split; [by intros [? ?] | intros (iv & Hin & _); by apply elem_of_nil in Hin].
  - destruct ((x.1 <=? k) && (k <=? x.2)) eqn:E.
    + split; [|by eauto]. intros _. exists x. split; [by left|].
      apply andb_true_iff in E as [?%Nat.leb_le ?%Nat.leb_le]. lia.
    + rewrite IH. split.
      * intros (iv & Hin & Hk). exists iv. split; [by right | done].
      * intros (iv & Hin & Hk). apply elem_of_cons in Hin as [->|Hin]; [|by eauto].
        apply andb_false_iff in E as [?%Nat.leb_gt | ?%Nat.leb_gt]; lia.
Qed.

Lemma setBackSecond_snoc ivs b e idx :
  setBackSecond (ivs ++ [(b, e)]) idx = ivs ++ [(b, idx)].
Proof.
  induction ivs as [|x ivs IH]; [done|].
  simpl. rewrite IH. destruct x. by destruct ivs.
Qed.

Lemma setBackSecond_nil_inv ivs idx : setBackSecond ivs idx = [] → ivs = [].
Proof.
  destruct ivs as [|[b e] ivs _] using rev_ind; [done|].
  rewrite setBackSecond_snoc. intros H. by apply app_nil in H as [_ ?].
Qed.

Lemma setBackSecond_bounded ivs idx idx' :
  idx ≤ idx' →
  Forall (λ iv : nat * nat, iv.1 ≤ iv.2 ∧ iv.2 ≤ idx) ivs →
  Forall (λ iv : nat * nat, iv.1 ≤ iv.2 ∧ iv.2 ≤ idx') (setBackSecond ivs idx').
Proof.
  intros Hle. destruct ivs as [|[b e] ivs _] using rev_ind; [done|].
  rewrite setBackSecond_snoc, !Forall_app, !Forall_singleton. simpl.
  intros [Hall [? ?]]. split; [|lia].
  eapply Forall_impl; [exact Hall|]. simpl. lia.
Qed.

Lemma setBackSecond_covers ivs idx idx' k :
  idx ≤ idx' →
  Forall (λ iv : nat * nat, iv.1 ≤ iv.2 ∧ iv.2 ≤ idx) ivs →
  (∃ iv, iv ∈ ivs ∧ iv.1 ≤ k ≤ iv.2) →
  ∃ iv, iv ∈ setBackSecond ivs idx' ∧ iv.1 ≤ k ≤ iv.2.
Proof.
  intros Hle. destruct ivs as [|[b e] ivs _] using rev_ind.
  { intros _ (iv & Hin & _). by apply elem_of_nil in Hin. }
  rewrite setBackSecond_snoc, Forall_app, Forall_singleton. simpl.
  intros [_ [? ?]] (iv & Hin & Hk).
  apply elem_of_app in Hin as [Hin|Hin%list_elem_of_singleton].
  - exists iv. split; [apply elem_of_app; by left | done].
  - subst iv. simpl in Hk. exists (b, idx'). split; [|simpl; lia].
    apply elem_of_app. right. by apply list_elem_of_singleton.
Qed.

Lemma livenessOk_mono lv idx idx' : idx ≤ idx' → livenessOk lv idx → livenessOk lv idx'.
Proof.
  intros Hle Hok loc ivs Hl. destruct (Hok loc ivs Hl) as [Hne Hall].
  split; [done|]. eapply Forall_impl; [exact Hall|]. simpl. lia.
Qed.

Lemma livenessOk_empty idx : livenessOk ∅ idx.
Proof. intros loc ivs Hl. by rewrite lookup_empty in Hl. Qed.

Lemma livenessOk_insert lv idx loc ivs :
  livenessOk lv idx → ivs ≠ [] →
  Forall (λ iv : nat * nat, iv.1 ≤ iv.2 ∧ iv.2 ≤ idx) ivs →
  livenessOk (<[loc := ivs]> lv) idx.
Proof.
  intros Hok Hne Hall loc' ivs' Hl.
  destruct (decide (loc = loc')) as [->|Hneq].
  - rewrite lookup_insert_eq in Hl. by injection Hl as <-.
  - rewrite lookup_insert_ne in Hl by done. exact (Hok _ _ Hl).
Qed.

Lemma coveredIn_insert lv loc ivs ivs' :
  lv !! loc = Some ivs →
  (∀ k, (∃ iv, iv ∈ ivs ∧ iv.1 ≤ k ≤ iv.2) → ∃ iv, iv ∈ ivs' ∧ iv.1 ≤ k ≤ iv.2) →
  ∀ loc' k, coveredIn lv loc' k → coveredIn (<[loc := ivs']> lv) loc' k.
Proof.
  intros Hl Hcov loc' k (ivs0 & iv & Hl0 & Hin & Hk).
  destruct (decide (loc = loc')) as [->|Hneq].
  - rewrite Hl in Hl0. injection Hl0 as <-.
    destruct (Hcov k) as (iv' & Hin' & Hk'); [by eauto|].
    exists ivs', iv'. by rewrite lookup_insert_eq.
  - exists ivs0, iv. by rewrite lookup_insert_ne.
Qed.

Lemma covers_app_l ivs ivs' k :
  (∃ iv, iv ∈ ivs ∧ iv.1 ≤ k ≤ iv.2) → ∃ iv, iv ∈ ivs ++ ivs' ∧ iv.1 ≤ k ≤ iv.2.
Proof. intros (iv & Hin & Hk). exists iv. split; [apply elem_of_app; by left | done]. Qed.

(** What the update of the last interval keeps. *)
Lemma extend_back_ok ivs ivs1 idx :
  ivs ≠ [] →
  Forall (λ iv : nat * nat, iv.1 ≤ iv.2 ∧ iv.2 ≤ idx) ivs →
  ivs1 = ivs ∨ ivs1 = setBackSecond ivs idx →
  ivs1 ≠ []
  ∧ Forall (λ iv : nat * nat, iv.1 ≤ iv.2 ∧ iv.2 ≤ idx) ivs1
  ∧ (∀ k, (∃ iv, iv ∈ ivs ∧ iv.1 ≤ k ≤ iv.2) → ∃ iv, iv ∈ ivs1 ∧ iv.1 ≤ k ≤ iv.2).
Proof.
  intros Hne Hall [->| ->]; [done|].
  split_and!.
  - intros H. by apply setBackSecond_nil_inv in H.
  - by apply (setBackSecond_bounded ivs idx idx).
  - intros k. by apply (setBackSecond_covers ivs idx idx).
Qed.

Lemma setBackSecond_covers_idx ivs idx :
  ivs ≠ [] →
  Forall (λ iv : nat * nat, iv.1 ≤ iv.2 ∧ iv.2 ≤ idx) ivs →
  ∃ iv, iv ∈ setBackSecond ivs idx ∧ iv.1 ≤ idx ≤ iv.2.
Proof.
  destruct ivs as [|[b e] ivs _] using rev_ind; [done|]. intros _.
  rewrite setBackSecond_snoc, Forall_app, Forall_singleton. simpl.
  intros [_ [? ?]]. exists (b, idx). split; [|simpl; lia].
  apply elem_of_app. right. by apply list_elem_of_singleton.
Qed.

Lemma covers_snoc_idx ivs idx :
  ∃ iv, iv ∈ ivs ++ [(idx, idx)] ∧ iv.1 ≤ idx ≤ iv.2.
Proof.
  exists (idx, idx). split; [|simpl; lia].
  apply elem_of_app. right. by apply list_elem_of_singleton.
Qed.

Lemma livenessOk_insert_covers lv idx loc ivs ivs' :
  livenessOk lv idx →
  lv !! loc = Some ivs →
  ivs' ≠ [] →
  Forall (λ iv : nat * nat, iv.1 ≤ iv.2 ∧ iv.2 ≤ idx) ivs' →
  (∀ k, (∃ iv, iv ∈ ivs ∧ iv.1 ≤ k ≤ iv.2) → ∃ iv, iv ∈ ivs' ∧ iv.1 ≤ k ≤ iv.2) →
  (∃ iv, iv ∈ ivs' ∧ iv.1 ≤ idx ≤ iv.2) →
  livenessOk (<[loc := ivs']> lv) idx
  ∧ (∀ loc' k, coveredIn lv loc' k → coveredIn (<[loc := ivs']> lv) loc' k)
  ∧ coveredIn (<[loc := ivs']> lv) loc idx.
Proof.
  intros Hok Hl Hne Hall Hcov (iv & Hin & Hk). split_and!.
  - by apply livenessOk_insert.
  - by eapply coveredIn_insert.
  - exists ivs', iv. by rewrite lookup_insert_eq.
Qed.

(** One operand: the shape is kept, what was covered stays covered, and
    the location of the operand is covered at the current index. *)
Lemma liveOperand_spec M ins idx lv O lv' :
  livenessOk lv idx →
  liveOperand NDEBUG M ins idx lv O = Ok lv' →
  livenessOk lv' idx
  ∧ (∀ loc k, coveredIn lv loc k → coveredIn lv' loc k)
  ∧ (∀ loc, locationOf M O.1 = Some loc → coveredIn lv' loc idx).
Proof.
  intros Hok. unfold liveOperand.
  destruct (locationOf M O.1) as [loc|] eqn:Hloc.
  2: { intros [= <-]. by split_and!. }
  destruct (lv !! loc) as [ivs|] eqn:Hl.
  - destruct (Hok loc ivs Hl) as [Hne Hall].
    destruct (last ivs) as [bk|] eqn:Hlast; [|done].
    set (ivs1 := if bool_decide (O.2 ≠ OperandKind.Out) || bool_decide (bk.2 ≠ bk.1)
                 then setBackSecond ivs idx else ivs).
    assert (ivs1 = ivs ∨ ivs1 = setBackSecond ivs idx) as Hivs1.
    { unfold ivs1. destruct (_ || _); [by right | by left]. }
    destruct (extend_back_ok ivs ivs1 idx Hne Hall Hivs1) as (Hne1 & Hall1 & Hcov1).
    destruct (bool_decide (O.2 = OperandKind.In)
              || bool_decide (O.2 = OperandKind.InOut)) eqn:Hkind.
    + intros [= <-].
      assert (ivs1 = setBackSecond ivs idx) as Heq.
      { unfold ivs1. rewrite (bool_decide_true (O.2 ≠ OperandKind.Out)); [done|].
        apply orb_true_iff in Hkind as [H%bool_decide_eq_true|H%bool_decide_eq_true];
          by rewrite H. }
      destruct (livenessOk_insert_covers lv idx loc ivs ivs1) as (? & ? & ?);
        [done | done | done | done | done | |].
      { rewrite Heq. by apply setBackSecond_covers_idx. }
      split_and!; [done | done | by intros loc0 [= <-]].
    + intros [= <-].
      destruct (livenessOk_insert_covers lv idx loc ivs (ivs1 ++ [(idx, idx)]))
        as (? & ? & ?); [done | done | | | | |].
      * intros H. by apply app_nil in H as [_ ?].
      * rewrite Forall_app, Forall_singleton. simpl. split; [done | lia].
      * intros k Hk. by apply covers_app_l, Hcov1.
      * apply covers_snoc_idx.
      * split_and!; [done | done | by intros loc0 [= <-]].
  - intros H. apply bind_Ok in H as ([] & _ & [= <-]).
    split_and!.
    + apply livenessOk_insert; [done | done |].
      rewrite Forall_singleton. simpl. lia.
    + intros loc' k (ivs0 & iv & Hl0 & Hin & Hk).
      exists ivs0, iv. rewrite lookup_insert_ne; [done|]. congruence.
    + intros loc0 [= <-]. exists [(idx, idx)], (idx, idx).
      rewrite lookup_insert_eq. split_and!; [done | by left | simpl; lia | simpl; lia].
Qed.

Lemma liveOperands_spec M ins idx ops lv lv' :
  livenessOk lv idx →
  foldM (liveOperand NDEBUG M ins idx) lv ops = Ok lv' →
  livenessOk lv' idx
  ∧ (∀ loc k, coveredIn lv loc k → coveredIn lv' loc k)
  ∧ (∀ O loc, O ∈ ops → locationOf M O.1 = Some loc → coveredIn lv' loc idx).
Proof.
  revert lv. induction ops as [|O ops IH]; intros lv Hok; simpl.
  - intros [= <-]. split_and!; [done | done |].
    intros O loc Hin. by apply elem_of_nil in Hin.
  - intros H. apply bind_Ok in H as (lv1 & H1 & H).
    destruct (liveOperand_spec M ins idx lv O lv1 Hok H1) as (Hok1 & Hkeep1 & Hnew1).
    destruct (IH lv1 Hok1 H) as (Hok' & Hkeep' & Hnew').
    split_and!; [done | by eauto |].
    intros O' loc Hin Hloc. apply elem_of_cons in Hin as [->|Hin]; [|by eauto].
    by apply Hkeep', Hnew1.
Qed.

(** The walk from the index [i] on. *)
Lemma liveLoop_spec M l i lv lv' :
  livenessOk lv i →
  liveLoop NDEBUG M l i lv = Ok lv' →
  livenessOk lv' (i + length l)
  ∧ (∀ loc k, coveredIn lv loc k → coveredIn lv' loc k)
  ∧ (∀ j ins O loc,
       l !! j = Some ins → isDealloc ins = false →
       O ∈ getOperands ins → locationOf M O.1 = Some loc →
       coveredIn lv' loc (i + j)).
Proof.
  revert i lv. induction l as [|x l IH]; intros i lv Hok; simpl.
  - intros [= <-]. rewrite Nat.add_0_r. split_and!; [done | done |].
    intros j ins O loc Hj. by rewrite lookup_nil in Hj.
  - intros H. apply bind_Ok in H as (lv1 & H1 & H).
    assert (livenessOk lv1 i
            ∧ (∀ loc k, coveredIn lv loc k → coveredIn lv1 loc k)
            ∧ (isDealloc x = false → ∀ O loc, O ∈ getOperands x →
               locationOf M O.1 = Some loc → coveredIn lv1 loc i))
      as (Hok1 & Hkeep1 & Hnew1).
    { unfold liveInstr in H1. destruct (isDealloc x).
      - injection H1 as <-. by split_and!.
      - destruct (liveOperands_spec M x i _ lv lv1 Hok H1) as (? & ? & Hnew).
        split_and!; [done | done |].
        intros _ O loc Hin. apply Hnew.
        unfold sortOperands. by rewrite merge_sort_Permutation. }
    destruct (IH (S i) lv1 (livenessOk_mono _ _ _ (Nat.le_succ_diag_r i) Hok1) H)
      as (Hok' & Hkeep' & Hnew').
    split_and!.
    + by replace (i + S (length l)) with (S i + length l) by lia.
    + by eauto.
    + intros [|j] ins O loc Hj Hd Hin Hloc; simpl in Hj.
      * injection Hj as <-. rewrite Nat.add_0_r. by eapply Hkeep', Hnew1.
      * replace (i + S j) with (S i + j) by lia. by eapply Hnew'.
Qed.

Lemma extendWeights_lookup n lv loc :
  extendWeights n lv !! loc
  = (λ IL, if isWeightVar loc then setBackSecond IL n else IL) <$> lv !! loc.
Proof.
  unfold extendWeights. rewrite map_lookup_imap. by destruct (lv !! loc).
Qed.

Lemma extendWeights_covers n lv loc k :
  livenessOk lv n → coveredIn lv loc k → coveredIn (extendWeights n lv) loc k.
Proof.
  intros Hok (ivs & iv & Hl & Hin & Hk).
  destruct (Hok loc ivs Hl) as [Hne Hall].
  unfold coveredIn. rewrite extendWeights_lookup, Hl. simpl.
  destruct (isWeightVar loc); [|by eauto].
  destruct (setBackSecond_covers ivs n n k) as (iv' & ? & ?); by eauto.
Qed.

(** C4: in the result of [calculateLiveIntervals], the intervals of a
    location (an allocation or a weight that is not constant) cover
    every index at which the location is an operand of an instruction
    that is not a dealloc: [getEnclosingInterval] finds an interval
    there.  The index is the position in the stream. *)
Theorem liveIntervals_cover (M : Module) (liveness : gmap Value (list (nat * nat)))
    (k : nat) (ins : Instruction) (O : Operand) (loc : Value) :
  calculateLiveIntervals NDEBUG M = Ok liveness →
  getInstrs M !! k = Some ins →
  isDealloc ins = false →
  O ∈ getOperands ins →
  locationOf M O.1 = Some loc →
  ∃ ivs, liveness !! loc = Some ivs ∧ is_Some (getEnclosingInterval ivs k).
Proof.
  intros Hc Hk Hd Hin Hloc. unfold calculateLiveIntervals in Hc.
  apply bind_Ok in Hc as (lv & Hloop & Hc).
  apply bind_Ok in Hc as ([] & _ & [= <-]).
  destruct (liveLoop_spec M (getInstrs M) 0 ∅ lv (livenessOk_empty 0) Hloop)
    as (Hok & _ & Hnew).
  pose proof (Hnew k ins O loc Hk Hd Hin Hloc) as Hcov.
  apply (extendWeights_covers (length (getInstrs M))) in Hcov; [|done].
  destruct Hcov as (ivs & iv & Hl & Hiv & Hb).
  exists ivs. split; [done|]. apply getEnclosingInterval_covers. by eauto.
Qed.
End Coverage.

(** With the assertions compiled out the analysis always returns. *)
Section CoverageDefined.
Implicit Types (lv : gmap Value (list (nat * nat))).

Lemma liveOperand_defined M ins idx lv O :
  livenessOk lv idx → ∃ lv', liveOperand true M ins idx lv O = Ok lv'.
Proof.
  intros Hok. unfold liveOperand.
  destruct (locationOf M O.1) as [loc|]; [|by eauto].
  destruct (lv !! loc) as [ivs|] eqn:Hl; [|by eauto].
  destruct (Hok loc ivs Hl) as [Hne _].
  destruct (last ivs) as [bk|] eqn:Hlast.
  - destruct (_ || _); by eauto.
  - by apply last_None in Hlast.
Qed.

Lemma liveOperands_defined M ins idx ops lv :
  livenessOk lv idx → ∃ lv', foldM (liveOperand true M ins idx) lv ops = Ok lv'.
Proof.
  revert lv. induction ops as [|O ops IH]; intros lv Hok; simpl; [by eauto|].
  destruct (liveOperand_defined M ins idx lv O Hok) as [lv1 H1]. rewrite H1. simpl.
  apply IH. by destruct (liveOperand_spec true M ins idx lv O lv1 Hok H1).
Qed.

Lemma liveLoop_defined M l i lv :
  livenessOk lv i → ∃ lv', liveLoop true M l i lv = Ok lv'.
Proof.
  revert i lv. induction l as [|x l IH]; intros i lv Hok; simpl; [by eauto|].
  assert (∃ lv1, liveInstr true M i lv x = Ok lv1 ∧ livenessOk lv1 i) as (lv1 & H1 & Hok1).
  { unfold liveInstr. destruct (isDealloc x); [by eauto|].
    destruct (liveOperands_defined M x i (sortOperands (getOperands x)) lv Hok)
      as [lv1 H1].
    exists lv1. split; [done|]. by destruct (liveOperands_spec true M x i _ lv lv1 Hok H1). }
  rewrite H1. simpl. apply IH. eapply livenessOk_mono; [|done]. lia.
Qed.

Lemma calculateLiveIntervals_defined M :
  ∃ liveness, calculateLiveIntervals true M = Ok liveness.
Proof.
  unfold calculateLiveIntervals.
  destruct (liveLoop_defined M (getInstrs M) 0 ∅ (livenessOk_empty 0)) as [lv ->].
  simpl. by eauto.
Qed.
End CoverageDefined.

(** In [twoBuffers] the write to the second buffer, at the index 4, lies
    in an interval of the buffer. *)
Lemma liveIntervals_cover_witness :
  ∃ liveness ivs,
    calculateLiveIntervals false Samples.twoBuffers = Ok liveness
    ∧ liveness !! InstrPtr 4 = Some ivs
    ∧ is_Some (getEnclosingInterval ivs 4).
Proof.
  assert (∃ lv, calculateLiveIntervals false Samples.twoBuffers = Ok lv) as [lv Hlv].
  { eexists. vm_compute. reflexivity. }
  destruct (liveIntervals_cover false Samples.twoBuffers lv 4
              (Samples.splat 5 (InstrPtr 4)) (InstrPtr 4, OperandKind.Out) (InstrPtr 4)
              Hlv eq_refl eq_refl ltac:(by left) eq_refl) as (ivs & Hl & Hc).
  by exists lv, ivs.
Defined.

(** ** Copy propagation between two allocations *)

Section CopyPropagation.
Variable NDEBUG : bool.
Implicit Types (IntervalsMap : gmap Value (list (nat * nat))).

Lemma isReplaced_spec val iv j (O : Operand) :
  isReplaced val iv j O = true
  ↔ iv.1 ≤ j ≤ iv.2 ∧ O.1 = val ∧ (j = iv.1 → O.2 = OperandKind.Out).
Proof.
  unfold isReplaced.
  rewrite !andb_true_iff, negb_true_iff, andb_false_iff, !Nat.leb_le.
  rewrite bool_decide_eq_true, !bool_decide_eq_false.
  split.
  - intros [[[? ?] ?] Hk]. split_and!; [done..|].
    intros Hj. destruct Hk as [Hk|Hk]; [done|].
    by destruct (decide (O.2 = OperandKind.Out)).
  - intros [[? ?] [? Hk]]. split_and!; [done..|].
    destruct (decide (j = iv.1)) as [Hj|Hj]; [right | by left].
    rewrite (Hk Hj). intros Hne. by apply Hne.
Qed.

(** The instruction at [j] after the replacement: the same instruction
    with the operands on [val] inside the interval redirected, but for
    those at the first index of the interval that are not writes. *)
Lemma replaceAllUsesWith_lookup val with_ iv M j :
  getInstrs (replaceAllUsesWith val with_ iv M).1 !! j
  = replaceInside val with_ iv j <$> getInstrs M !! j.
Proof. unfold replaceAllUsesWith. simpl. apply list_lookup_imap. Qed.

Lemma replaceInside_operand val with_ iv j ins k :
  getOperands (replaceInside val with_ iv j ins) !! k
  = (λ O : Operand, if isReplaced val iv j O then (with_, O.2) else O)
      <$> getOperands ins !! k.
Proof. unfold replaceInside. simpl. apply list_lookup_fmap. Qed.

Lemma replaceAllUsesWith_weights val with_ iv M :
  getWeights (replaceAllUsesWith val with_ iv M).1 = getWeights M.
Proof. done. Qed.

Lemma filter_all {A} (P : A → Prop) `{∀ x, Decision (P x)} (l : list A) :
  Forall P l → filter P l = l.
Proof.
  induction 1 as [|x l Hx Hl IH]; [done|].
  by rewrite filter_cons_True, IH.
Qed.

(** Erasing a set of instructions leaves those outside the set. *)
Lemma eraseAll_pointers M (ps : list Value) :
  getInstrs (foldl eraseInstruction M ps)
  = filter (λ ins, self ins ∉ ps) (getInstrs M)
  ∧ getWeights (foldl eraseInstruction M ps) = getWeights M.
Proof.
  revert M. induction ps as [|p ps IH]; intros M; simpl.
  - split; [|done]. symmetry. apply filter_all.
    apply Forall_forall. intros x _. apply not_elem_of_nil.
  - destruct (IH (eraseInstruction M p)) as [-> ->]. split; [|done].
    unfold eraseInstruction. simpl. rewrite list_filter_filter.
    apply list_filter_iff. intros x. rewrite not_elem_of_cons. tauto.
Qed.

Lemma eraseInstructions_instrs M (E : gset Value) :
  getInstrs (eraseInstructions M E) = filter (λ ins, self ins ∉ E) (getInstrs M).
Proof.
  unfold eraseInstructions. rewrite (proj1 (eraseAll_pointers M (elements E))).
  apply list_filter_iff. intros x. by rewrite elem_of_elements.
Qed.

Lemma canPropagate_spec (SI DI : nat * nat) :
  canPropagate SI DI = true ↔ SI.2 ≤ DI.1 ∨ (SI.1 < DI.1 ∧ DI.2 ≤ SI.2).
Proof.
  unfold canPropagate, isEnclosedInside.
  by rewrite orb_true_iff, andb_true_iff, !Nat.leb_le, Nat.ltb_lt.
Qed.

Lemma getEnclosingInterval_nonempty ivs i iv :
  getEnclosingInterval ivs i = Some iv → ivs ≠ [].
Proof. by intros H ->. Qed.

(** The body of the loop at a copy between two values with enclosing
    intervals. *)
Lemma copyStep_caseB IntervalsMap M erased i ci Src Dest SI DI :
  getInstrs M !! i = Some ci →
  isa Kind.CopyInstKind ci = true →
  getSrc ci = Some Src →
  getDest ci = Some Dest →
  isWeightVar Src = false →
  typeOf M Src = typeOf M Dest →
  getEnclosingInterval (default [] (IntervalsMap !! Src)) i = Some SI →
  getEnclosingInterval (default [] (IntervalsMap !! Dest)) i = Some DI →
  copyStep NDEBUG IntervalsMap (M, erased) i
  = if canPropagate SI DI then
      _ ← assert NDEBUG
            (negb (bool_decide ((replaceAllUsesWith Src Dest SI M).2 = [])))
            "Some instructions should have been changed";
      _ ← assert NDEBUG
            (bool_decide
               ((getInstrs (replaceAllUsesWith Src Dest SI M).1 !! i ≫= getSrc)
                = (getInstrs (replaceAllUsesWith Src Dest SI M).1 !! i ≫= getDest)))
            "Src and Dest of a copy instruction should be the same after copy propagation";
      Ok ((replaceAllUsesWith Src Dest SI M).1, {[self ci]} ∪ erased)
    else Ok (M, erased).
Proof.
  intros Hi Hcopy Hsrc Hdest Hw Hty HSI HDI.
  unfold copyStep. simpl. rewrite Hi, Hcopy. simpl. rewrite Hsrc, Hdest.
  unfold assert at 1. rewrite (bool_decide_true _ Hty), orb_true_r. simpl.
  rewrite Hw. unfold propagateInInterval.
  rewrite (bool_decide_false _ (getEnclosingInterval_nonempty _ _ _ HSI)).
  rewrite (bool_decide_false _ (getEnclosingInterval_nonempty _ _ _ HDI)).
  simpl. rewrite HSI, HDI. by destruct (canPropagate SI DI).
Qed.

(** The set of instructions to erase only grows. *)
Lemma copyStep_erased_mono IntervalsMap st i st' :
  copyStep NDEBUG IntervalsMap st i = Ok st' → st.2 ⊆ st'.2.
Proof.
  unfold copyStep, propagateFromWeight, propagateInInterval.
  repeat (case_match; simpl; try done);
    intros Hres; repeat (apply bind_Ok in Hres as (? & _ & Hres));
    try (injection Hres as <-); simpl; try done;
    try (apply union_subseteq_r).
Qed.

Lemma copyLoop_erased_mono IntervalsMap l st st' :
  foldM (copyStep NDEBUG IntervalsMap) st l = Ok st' → st.2 ⊆ st'.2.
Proof.
  revert st. induction l as [|i l IH]; intros st; simpl.
  - by intros [= <-].
  - intros H. apply bind_Ok in H as (st1 & H1 & H).
    etrans; [by eapply copyStep_erased_mono | by apply IH].
Qed.

(** The body of the loop at a copy from [Src] to [Dest], both with an
    interval that encloses the index of the copy ([SI] and [DI]): the
    propagation fires exactly when [SI] ends at or before the start of
    [DI], or [DI] is enclosed in [SI].  When it fires, every operand
    that references [Src] in an instruction inside the index range of
    [SI] is redirected to [Dest], except the operands at the index
    [SI.begin] whose kind is not Out; nothing else changes, and the copy
    joins the instructions to erase. *)
Lemma copyStep_fires IntervalsMap (M : Module) (erased : gset Value)
    (i : nat) (ci : Instruction) (Src Dest : Value) (SI DI : nat * nat) :
  getInstrs M !! i = Some ci →
  isa Kind.CopyInstKind ci = true →
  getSrc ci = Some Src →
  getDest ci = Some Dest →
  isWeightVar Src = false →
  typeOf M Src = typeOf M Dest →
  getEnclosingInterval (default [] (IntervalsMap !! Src)) i = Some SI →
  getEnclosingInterval (default [] (IntervalsMap !! Dest)) i = Some DI →
  (¬ (SI.2 ≤ DI.1 ∨ (SI.1 < DI.1 ∧ DI.2 ≤ SI.2)) →
     copyStep NDEBUG IntervalsMap (M, erased) i = Ok (M, erased))
  ∧ (SI.2 ≤ DI.1 ∨ (SI.1 < DI.1 ∧ DI.2 ≤ SI.2) → NDEBUG = true →
     ∃ st, copyStep NDEBUG IntervalsMap (M, erased) i = Ok st)
  ∧ (∀ M' erased',
       copyStep NDEBUG IntervalsMap (M, erased) i = Ok (M', erased') →
       self ci ∉ erased →
       (self ci ∈ erased' ↔ SI.2 ≤ DI.1 ∨ (SI.1 < DI.1 ∧ DI.2 ≤ SI.2)))
  ∧ (SI.2 ≤ DI.1 ∨ (SI.1 < DI.1 ∧ DI.2 ≤ SI.2) →
     ∀ M' erased',
       copyStep NDEBUG IntervalsMap (M, erased) i = Ok (M', erased') →
       erased' = {[self ci]} ∪ erased
       ∧ getWeights M' = getWeights M
       ∧ length (getInstrs M') = length (getInstrs M)
       ∧ (∀ j ins, getInstrs M !! j = Some ins →
            ∃ ops, getInstrs M' !! j = Some (setOperands ins ops)
                   ∧ length ops = length (getOperands ins)
                   ∧ ∀ k v kd, getOperands ins !! k = Some (v, kd) →
                       ops !! k
                       = Some (if decide (SI.1 ≤ j ≤ SI.2 ∧ v = Src
                                          ∧ (j = SI.1 → kd = OperandKind.Out))
                               then Dest else v, kd))
       ∧ (∀ rest st',
            foldM (copyStep NDEBUG IntervalsMap) (M', erased') rest = Ok st' →
            Forall (λ ins, self ins ≠ self ci)
              (getInstrs (eraseInstructions st'.1 st'.2)))).
Proof.
  intros Hi Hcopy Hsrc Hdest Hw Hty HSI HDI.
  rewrite (copyStep_caseB IntervalsMap M erased i ci Src Dest SI DI) by done.
  rewrite <- canPropagate_spec.
  destruct (canPropagate SI DI) eqn:Hc.
  - split_and!.
    + intros H. by destruct H.
    + intros _ ->. unfold assert. simpl. by eauto.
    + intros M' erased' H _. rewrite <- canPropagate_spec, Hc.
      split; [done|]. intros _.
      apply bind_Ok in H as ([] & _ & H). apply bind_Ok in H as ([] & _ & H).
      injection H as _ <-. apply elem_of_union_l. by apply elem_of_singleton.
    + intros _ M' erased' H.
      apply bind_Ok in H as ([] & _ & H). apply bind_Ok in H as ([] & _ & H).
      injection H as <- <-. split_and!; [done | done | | |].
      * unfold replaceAllUsesWith. simpl. apply length_imap.
      * intros j ins Hj.
        exists ((λ O : Operand, if isReplaced Src SI j O then (Dest, O.2) else O)
                  <$> getOperands ins).
        pose proof (replaceAllUsesWith_lookup Src Dest SI M j) as Hlk.
        rewrite Hj in Hlk.
        split_and!; [exact Hlk | apply length_fmap |].
        intros k v kd Hk. rewrite list_lookup_fmap, Hk. simpl. f_equal.
        destruct (isReplaced Src SI j (v, kd)) eqn:Hr.
        -- apply isReplaced_spec in Hr. simpl in Hr. by rewrite decide_True.
        -- rewrite decide_False; [done|]. intros Hr'.
           apply (isReplaced_spec Src SI j (v, kd)) in Hr'. congruence.
      * intros rest st' Hrest. apply copyLoop_erased_mono in Hrest. simpl in Hrest.
        rewrite eraseInstructions_instrs. apply Forall_forall. intros ins Hin.
        apply list_elem_of_filter in Hin as [Hnot _]. intros Heq. apply Hnot.
        apply Hrest. rewrite Heq. apply elem_of_union_l. by apply elem_of_singleton.
  - split_and!.
    + done.
    + intros H. discriminate H.
    + intros M' erased' [= <- <-] Hnot. rewrite <- canPropagate_spec, Hc.
      split; [done | intros H; discriminate H].
    + intros H. discriminate H.
Qed.
End CopyPropagation.

(** ** The dead-allocation sweep *)

Section DeleteDeadAllocs.

Lemma NoDup_iid_inj (l : list Instruction) x y :
  NoDup (iid <$> l) → x ∈ l → y ∈ l → iid x = iid y → x = y.
Proof.
  induction l as [|z l IH]; simpl.
  - intros _ Hx. by apply elem_of_nil in Hx.
  - intros Hnd Hx Hy Heq. apply NoDup_cons in Hnd as [Hz Hnd].
    apply elem_of_cons in Hx as [->|Hx]; apply elem_of_cons in Hy as [->|Hy].
    + done.
    + exfalso. apply Hz. rewrite Heq. by apply list_elem_of_fmap_2.
    + exfalso. apply Hz. rewrite <- Heq. by apply list_elem_of_fmap_2.
    + by apply IH.
Qed.

Lemma filter_ext_in {A} (P Q : A → Prop) `{∀ x, Decision (P x)}
    `{∀ x, Decision (Q x)} (l : list A) :
  (∀ x, x ∈ l → P x ↔ Q x) → filter P l = filter Q l.
Proof.
  induction l as [|x l IH]; intros Hext; [done|].
  assert (filter P l = filter Q l) as IH'.
  { apply IH. intros y Hy. apply Hext. by right. }
  destruct (decide (P x)) as [HP|HP].
  - rewrite !filter_cons_True, IH'; [done | | done]. apply Hext; [by left | done].
  - rewrite !filter_cons_False, IH'; [done | | done].
    intros HQ. apply HP. apply Hext; [by left | done].
Qed.

Lemma NoDup_iid_filter (P : Instruction → Prop) `{∀ x, Decision (P x)} l :
  NoDup (iid <$> l) → NoDup (iid <$> filter P l).
Proof.
  intros Hnd. eapply sublist_NoDup; [exact Hnd|].
  apply fmap_sublist, sublist_filter.
Qed.

(** One sweep: the instructions collected by [std::copy_if] are the
    ones that leave the stream. *)
Lemma sweep_filter (p : Module → Instruction → bool) (M : Module) :
  NoDup (iid <$> getInstrs M) →
  getInstrs (sweep p M) = filter (λ ins, p M ins = false) (getInstrs M)
  ∧ getWeights (sweep p M) = getWeights M
  ∧ NoDup (iid <$> getInstrs (sweep p M)).
Proof.
  intros Hnd. unfold sweep, eraseAll.
  rewrite <- (foldl_fmap eraseInstruction M _ self).
  destruct (eraseAll_pointers M (self <$> filter (λ ins, p M ins = true) (getInstrs M)))
    as [-> ->].
  assert (filter (λ ins, self ins ∉ self <$> filter (λ ins0, p M ins0 = true) (getInstrs M))
            (getInstrs M)
          = filter (λ ins, p M ins = false) (getInstrs M)) as ->.
  { apply filter_ext_in. intros x Hx. split.
    - intros Hnot. destruct (p M x) eqn:Hp; [|done].
      exfalso. apply Hnot. apply list_elem_of_fmap_2. by apply list_elem_of_filter.
    - intros Hp Hin. apply list_elem_of_fmap in Hin as (y & Hself & Hy).
      apply list_elem_of_filter in Hy as [Hpy Hy].
      assert (x = y) as ->; [|congruence].
      apply (NoDup_iid_inj (getInstrs M)); [done..|]. by injection Hself. }
  split_and!; [done | done | by apply NoDup_iid_filter].
Qed.

Lemma isUnusedTensorView_spec M ins :
  isUnusedTensorView M ins = true
  ↔ isTensorView ins = true ∧ getNumUsers M (self ins) = 0.
Proof. unfold isUnusedTensorView. by rewrite andb_true_iff, Nat.eqb_eq. Qed.

Lemma closesUnusedAlloc_spec M ins :
  closesUnusedAlloc M ins = true
  ↔ isDealloc ins = true ∧ ∃ a, getAlloc ins = Some a ∧ getNumUsers M a < 2.
Proof.
  unfold closesUnusedAlloc. rewrite andb_true_iff.
  destruct (getAlloc ins) as [a|].
  - rewrite Nat.ltb_lt. split.
    + intros [? ?]. split; [done|]. by exists a.
    + intros [? (a' & Ha & ?)]. injection Ha as <-. by split.
  - split.
    + intros [_ Hf]. discriminate Hf.
    + intros [_ (a & Ha & _)]. discriminate Ha.
Qed.

Lemma isUnusedAlloc_spec M ins :
  isUnusedAlloc M ins = true ↔ isAlloc ins = true ∧ getNumUsers M (self ins) < 2.
Proof. unfold isUnusedAlloc. by rewrite andb_true_iff, Nat.ltb_lt. Qed.

(** C6: the sweep is three erasure passes, in this order.  The first
    erases the TensorViews without users; the second, on the module the
    first leaves, the DeallocActivations whose allocation has fewer than
    two users; the third, on the module the second leaves, the
    AllocActivations with fewer than two users.  Each pass keeps the
    other instructions in their order, and the weights; so an
    instruction of the stream is gone after the sweep exactly when one
    of the three passes erased it. *)
Theorem deleteDeadAllocs_three_passes (M : Module) :
  NoDup (iid <$> getInstrs M) →
  let M1 := sweep isUnusedTensorView M in
  let M2 := sweep closesUnusedAlloc M1 in
  deleteDeadAllocs M = sweep isUnusedAlloc M2
  ∧ getInstrs M1
    = filter (λ ins, ¬ (isTensorView ins = true ∧ getNumUsers M (self ins) = 0))
        (getInstrs M)
  ∧ getInstrs M2
    = filter (λ ins, ¬ (isDealloc ins = true
                        ∧ default 2 (getNumUsers M1 <$> getAlloc ins) < 2))
        (getInstrs M1)
  ∧ getInstrs (deleteDeadAllocs M)
    = filter (λ ins, ¬ (isAlloc ins = true ∧ getNumUsers M2 (self ins) < 2))
        (getInstrs M2)
  ∧ getWeights (deleteDeadAllocs M) = getWeights M
  ∧ (∀ ins, ins ∈ getInstrs M →
       ins ∉ getInstrs (deleteDeadAllocs M)
       ↔ (isTensorView ins = true ∧ getNumUsers M (self ins) = 0)
         ∨ (isDealloc ins = true
            ∧ ∃ a, getAlloc ins = Some a ∧ getNumUsers M1 a < 2)
         ∨ (isAlloc ins = true ∧ getNumUsers M2 (self ins) < 2)).
Proof.
  intros Hnd M1 M2.
  destruct (sweep_filter isUnusedTensorView M Hnd) as (H1 & Hw1 & Hnd1).
  fold M1 in H1, Hw1, Hnd1.
  destruct (sweep_filter closesUnusedAlloc M1 Hnd1) as (H2 & Hw2 & Hnd2).
  fold M2 in H2, Hw2, Hnd2.
  destruct (sweep_filter isUnusedAlloc M2 Hnd2) as (H3 & Hw3 & _).
  assert (∀ b : bool, b = false ↔ ¬ b = true) as Hneg
    by (intros []; split; [done | by intros [] | done | done]).
  split_and!.
  - done.
  - rewrite H1. apply list_filter_iff. intros x.
    by rewrite Hneg, isUnusedTensorView_spec.
  - rewrite H2. apply list_filter_iff. intros x.
    rewrite Hneg, closesUnusedAlloc_spec.
    destruct (getAlloc x) as [a|]; simpl.
    + split; intros Hn [Hd Hu]; apply Hn; (split; [done|]).
      * by exists a.
      * destruct Hu as (a' & Ha & ?). by injection Ha as <-.
    + split; intros Hn [Hd Hu]; [lia|]. destruct Hu as (a' & Ha & _). discriminate Ha.
  - unfold deleteDeadAllocs. fold M1. fold M2. rewrite H3.
    apply list_filter_iff. intros x. by rewrite Hneg, isUnusedAlloc_spec.
  - unfold deleteDeadAllocs. fold M1. fold M2. by rewrite Hw3, Hw2, Hw1.
  - intros ins Hin. unfold deleteDeadAllocs. fold M1. fold M2.
    rewrite H3, H2, H1, !list_elem_of_filter.
    rewrite <- isUnusedTensorView_spec, <- closesUnusedAlloc_spec,
      <- isUnusedAlloc_spec.
    clear -Hin.
    destruct (isUnusedTensorView M ins), (closesUnusedAlloc M1 ins),
      (isUnusedAlloc M2 ins); intuition congruence.
Qed.
End DeleteDeadAllocs.

(** The first sweep over the chain of views erases the last view and
    nothing else. *)
Lemma deleteDeadAllocs_three_passes_witness :
  NoDup (iid <$> getInstrs Samples.viewChain)
  ∧ getInstrs (deleteDeadAllocs Samples.viewChain)
    = take 4 (getInstrs Samples.viewChain) ++ drop 5 (getInstrs Samples.viewChain).
Proof.
  assert (NoDup (iid <$> getInstrs Samples.viewChain)) as Hnd.
  { apply (bool_decide_unpack _). by vm_compute. }
  split; [exact Hnd|].
  destruct (deleteDeadAllocs_three_passes Samples.viewChain Hnd) as (-> & _).
  by vm_compute.
Defined.

(** ** Buffer sharing: the weights stay live *)

Section WeightsLive.
Variable NDEBUG : bool.
Variable isInplaceOp : Kind.t → nat → nat → bool.

Lemma getAllocationOrigin_not_weight M v a :
  getAllocationOrigin M v = Some a → isWeightVar a = false.
Proof.
  unfold getAllocationOrigin.
  destruct (isAllocValue M (getOrigin M v)) eqn:Ha; [|done].
  intros [= <-]. unfold isAllocValue, getInstr in Ha.
  by destruct (getOrigin M v).
Qed.

Lemma killOut_keeps_weight M st O w :
  isWeightVar w = true → w ∈ st.1 → w ∈ (killOut M st O).1.
Proof.
  intros Hw Hin. unfold killOut.
  destruct (getAllocationOrigin M O.1) as [ai|] eqn:Ho; [|done].
  apply getAllocationOrigin_not_weight in Ho.
  destruct O.2; repeat case_decide; simpl; try done.
  - by apply elem_of_union_r.
  - by apply elem_of_union_r.
  - apply elem_of_difference. split; [done|].
    rewrite elem_of_singleton. intros ->. congruence.
Qed.

Lemma liveAtShare_keeps_weight M live ins w :
  isWeightVar w = true → w ∈ live → w ∈ liveAtShare M live ins.
Proof.
  intros Hw. unfold liveAtShare.
  generalize (∅ : gset Value). revert live.
  induction (getOperands ins) as [|O ops IH]; intros live outs Hin; [done|].
  simpl. destruct (killOut M (live, outs) O) as [live' outs'] eqn:Hk.
  apply IH. change live' with (live', outs').1. rewrite <- Hk.
  by apply killOut_keeps_weight.
Qed.

Lemma reviveIn_grows M ops live w :
  w ∈ live → w ∈ foldl (reviveIn M) live ops.
Proof.
  revert live. induction ops as [|O ops IH]; intros live Hin; [done|].
  simpl. apply IH. unfold reviveIn.
  destruct (getAllocationOrigin M O.1); [|done].
  case_decide; [by apply elem_of_union_r | done].
Qed.

Lemma replaceAllNonDeallocUsersWith_weights M val with_ M' :
  replaceAllNonDeallocUsersWith NDEBUG M val with_ = Ok M' →
  getWeights M' = getWeights M.
Proof.
  unfold replaceAllNonDeallocUsersWith. intros H.
  apply bind_Ok in H as ([] & _ & H). by injection H as <-.
Qed.

Lemma tryToShare_weights live M ins M' :
  tryToShareBuffersForInstr NDEBUG isInplaceOp live M ins = Ok M' →
  getWeights M' = getWeights M.
Proof.
  unfold tryToShareBuffersForInstr.
  destruct (sharedPair isInplaceOp live M ins) as [[dest src]|].
  - apply replaceAllNonDeallocUsersWith_weights.
  - by intros [= <-].
Qed.

(** The buffers of a shared pair are outside the live set. *)
Lemma sharedPair_dead live M ins dest src :
  sharedPair isInplaceOp live M ins = Some (dest, src) →
  (dest ∉ live) ∧ (src ∉ live).
Proof.
  unfold sharedPair.
  destruct (list_find _ _) as [[k pr]|]; [|done]. simpl.
  unfold canShare.
  destruct (getOperandValue ins pr.1) as [destOp|]; [|done].
  destruct (getOperandValue ins pr.2) as [srcOp|]; [|done].
  repeat (case_match; try done).
  intros [= <- <-].
  match goal with H : _ && _ = true |- _ =>
    apply andb_true_iff in H as [H1%bool_decide_eq_true H2%bool_decide_eq_true] end.
  done.
Qed.

Lemma shareStep_weights s s' :
  shareStep NDEBUG isInplaceOp s = Ok s' →
  getWeights (shareModule s') = getWeights (shareModule s)
  ∧ ∀ w, isWeightVar w = true → w ∈ liveBuffers s → w ∈ liveBuffers s'.
Proof.
  unfold shareStep. destruct (pos s) as [|k]; [by intros [= <-]|].
  destruct (getInstrs (shareModule s) !! k) as [ins|]; [|by intros [= <-]].
  intros H. apply bind_Ok in H as (M' & Ht & [= <-]). simpl.
  split; [by eapply tryToShare_weights|].
  intros w Hw Hin. by apply reviveIn_grows, liveAtShare_keeps_weight.
Qed.

Lemma shareStart_weights M W :
  W ∈ getWeights M → wself W ∈ liveBuffers (shareStart M).
Proof.
  intros HW. simpl. apply elem_of_list_to_set. by apply list_elem_of_fmap_2.
Qed.

(** The weights are live in every state of the walk. *)
Lemma shareReach_weights M s W :
  shareReach NDEBUG isInplaceOp M s →
  W ∈ getWeights M →
  wself W ∈ liveBuffers s ∧ getWeights (shareModule s) = getWeights M.
Proof.
  intros Hreach HW. induction Hreach as [|s s' _ [IH1 IH2] Hstep].
  - split; [by apply shareStart_weights | done].
  - destruct (shareStep_weights s s' Hstep) as [Hw Hkeep].
    split; [by apply Hkeep | congruence].
Qed.

(** The pair picked for an instruction holds no weight of the module. *)
Lemma sharedPair_not_weight M s W ins dest src :
  shareReach NDEBUG isInplaceOp M s →
  W ∈ getWeights M →
  sharedPair isInplaceOp (liveAtShare (shareModule s) (liveBuffers s) ins)
    (shareModule s) ins = Some (dest, src) →
  dest ≠ wself W ∧ src ≠ wself W.
Proof.
  intros Hreach HW Hpair.
  destruct (shareReach_weights M s W Hreach HW) as [Hlive _].
  assert (wself W ∈ liveAtShare (shareModule s) (liveBuffers s) ins) as Hat
    by by apply liveAtShare_keeps_weight.
  apply sharedPair_dead in Hpair as [Hd Hs].
  split; intros ->; done.
Qed.

(** C10: in every state of the reverse walk every WeightVar of the
    module is in the live set, and so it is in the live set with which
    [tryToShareBuffersForInstr] is called; the pair of buffers that the
    in-place rewrite picks is outside that set, so the value whose
    users are replaced (and the value they are replaced with) is never
    a WeightVar of the module. *)
Theorem shareBuffers_weights_live (M : Module) (s : ShareState) (W : WeightVar) :
  shareReach NDEBUG isInplaceOp M s →
  W ∈ getWeights M →
  wself W ∈ liveBuffers s
  ∧ getWeights (shareModule s) = getWeights M
  ∧ ∀ ins, wself W ∈ liveAtShare (shareModule s) (liveBuffers s) ins
           ∧ ∀ dest src,
               sharedPair isInplaceOp
                 (liveAtShare (shareModule s) (liveBuffers s) ins)
                 (shareModule s) ins = Some (dest, src) →
               dest ≠ wself W ∧ src ≠ wself W.
Proof.
  intros Hreach HW.
  destruct (shareReach_weights M s W Hreach HW) as [Hlive Hws].
  split_and!; [done | done |].
  intros ins. split.
  - by apply liveAtShare_keeps_weight.
  - intros dest src. by apply (sharedPair_not_weight M).
Qed.

(** A replacement between two other values keeps the slots of [w]. *)
Lemma replaceAllNonDeallocUsersWith_slots M val with_ M' w :
  replaceAllNonDeallocUsersWith NDEBUG M val with_ = Ok M' →
  val ≠ w → with_ ≠ w →
  slotsOf w M' = slotsOf w M.
Proof.
  unfold replaceAllNonDeallocUsersWith. intros H Hval Hwith.
  apply bind_Ok in H as ([] & _ & H). injection H as <-.
  unfold slotsOf. simpl. rewrite <- list_fmap_compose.
  apply list_fmap_ext. intros k ins _. simpl.
  destruct (isDealloc ins); [done|]. unfold replaceUses. simpl.
  rewrite <- list_fmap_compose. apply list_fmap_ext. intros j op _. simpl.
  unfold replaceOperand. destruct (decide (op.1 = val)) as [Heq|Hne]; simpl; [|done].
  rewrite !bool_decide_false; [done | congruence | done].
Qed.

(** The slots that reference a weight of the module are the same in
    every state of the walk, and so after [shareBuffers]. *)
Lemma shareReach_weight_slots M s W :
  shareReach NDEBUG isInplaceOp M s →
  W ∈ getWeights M →
  slotsOf (wself W) (shareModule s) = slotsOf (wself W) M.
Proof.
  intros Hreach HW. induction Hreach as [|s s' Hreach IH Hstep]; [done|].
  rewrite <- IH. revert Hstep. unfold shareStep.
  destruct (pos s) as [|k]; [by intros [= <-]|].
  destruct (getInstrs (shareModule s) !! k) as [ins|]; [|by intros [= <-]].
  intros H. apply bind_Ok in H as (M' & Ht & [= <-]). simpl.
  revert Ht. unfold tryToShareBuffersForInstr.
  destruct (sharedPair _ _ _ _) as [[dest src]|] eqn:Hpair; [|by intros [= <-]].
  intros Ht.
  destruct (sharedPair_not_weight M s W ins dest src Hreach HW Hpair)
    as [Hd Hs].
  by eapply replaceAllNonDeallocUsersWith_slots.
Qed.

(** The walk of [shareBuffers] goes through reachable states only. *)
Lemma shareLoop_reach M n s s' :
  shareReach NDEBUG isInplaceOp M s →
  shareLoop NDEBUG isInplaceOp n s = Ok s' →
  shareReach NDEBUG isInplaceOp M s'.
Proof.
  revert s. induction n as [|n IH]; intros s Hreach; simpl.
  - by intros [= <-].
  - intros H. apply bind_Ok in H as (s1 & Hstep & H).
    eapply IH; [|done]. by eapply shareReach_step.
Qed.
(** The uses of a weight are the same after [shareBuffers]. *)
Lemma shareBuffers_weight_slots M M' W :
  shareBuffers NDEBUG isInplaceOp M = Ok M' →
  W ∈ getWeights M →
  slotsOf (wself W) M' = slotsOf (wself W) M ∧ getWeights M' = getWeights M.
Proof.
  unfold shareBuffers. intros H HW.
  apply bind_Ok in H as (s & Hloop & [= <-]).
  assert (shareReach NDEBUG isInplaceOp M s) as Hreach.
  { eapply shareLoop_reach; [|done]. apply shareReach_start. }
  split; [by apply shareReach_weight_slots|].
  by destruct (shareReach_weights M s W Hreach HW).
Qed.
End WeightsLive.

(** In [storeToWeight] the weight is live after the first two steps of
    the walk. *)
Lemma shareBuffers_weights_live_witness :
  ∃ s, shareLoop false inplaceTable 2 (shareStart Samples.storeToWeight) = Ok s
       ∧ WeightPtr 1 ∈ liveBuffers s.
Proof.
  destruct (shareLoop false inplaceTable 2 (shareStart Samples.storeToWeight))
    as [s| | |] eqn:Hloop; [| by vm_compute in Hloop..].
  exists s. split; [done|].
  refine (proj1 (shareBuffers_weights_live false inplaceTable Samples.storeToWeight s
                   (Samples.weight 1 MutabilityKind.Mutable) _ _)).
  - exact (shareLoop_reach false inplaceTable Samples.storeToWeight 2 _ s
             (shareReach_start false inplaceTable Samples.storeToWeight) Hloop).
  - by left.
Defined.

(** ** Hoisting the deallocations *)

(** Lists that differ by the bracketing of [++]. *)
Ltac assoc := repeat (rewrite <- app_assoc; simpl); done.

Section Stream.
Implicit Types (l A B : list Instruction) (x y c : Instruction).

Lemma self_inj x y : self x = self y → iid x = iid y.
Proof. by intros [= ?]. Qed.

Lemma NoDup_iid_split l A x B :
  NoDup (iid <$> l) → l = A ++ x :: B →
  (∀ a, a ∈ A → self a ≠ self x) ∧ (∀ b, b ∈ B → self b ≠ self x).
Proof.
  intros Hnd ->. rewrite fmap_app, fmap_cons in Hnd.
  apply NoDup_app in Hnd as (_ & HA & HB). apply NoDup_cons in HB as [HB _].
  split.
  - intros a Ha Heq%self_inj. apply (HA (iid a)); [by apply list_elem_of_fmap_2|].
    rewrite Heq. by left.
  - intros b Hb Heq%self_inj. apply HB. rewrite <- Heq. by apply list_elem_of_fmap_2.
Qed.

Lemma findInstr_app_cons A x B :
  (∀ a, a ∈ A → self a ≠ self x) → findInstr (A ++ x :: B) (self x) = Some x.
Proof.
  intros HA. unfold findInstr, self. induction A as [|a A IH]; simpl.
  - by rewrite bool_decide_true.
  - rewrite bool_decide_false.
    + apply IH. intros a' Ha'. apply HA. by right.
    + intros Heq. apply (HA a); [by left|]. unfold self. by rewrite Heq.
Qed.

Lemma indexOf_app_cons A x B :
  (∀ a, a ∈ A → self a ≠ self x) → indexOf (A ++ x :: B) (self x) = Some (length A).
Proof.
  intros HA. unfold indexOf.
  assert (list_find (λ ins, self ins = self x) (A ++ x :: B) = Some (length A, x)) as ->;
    [|done].
  apply list_find_Some. split_and!.
  - by rewrite lookup_app_r, Nat.sub_diag by lia.
  - done.
  - intros j y Hj Hlt. rewrite lookup_app_l in Hj by done.
    apply HA. by eapply list_elem_of_lookup_2.
Qed.

Lemma next_app_cons A x B :
  (∀ a, a ∈ A → self a ≠ self x) → next (A ++ x :: B) (self x) = self <$> head B.
Proof.
  intros HA. unfold next. rewrite indexOf_app_cons by done. simpl.
  rewrite lookup_app_r by lia.
  replace (S (length A) - length A) with 1 by lia. by destruct B.
Qed.

Lemma removeInstruction_app_cons A x B :
  (∀ a, a ∈ A → self a ≠ self x) → (∀ b, b ∈ B → self b ≠ self x) →
  removeInstruction (A ++ x :: B) (self x) = A ++ B.
Proof.
  intros HA HB. unfold removeInstruction.
  rewrite filter_app, filter_cons_False by (intros H; by apply H).
  rewrite !filter_all; [done | |]; apply Forall_forall; by auto.
Qed.

Lemma insertBefore_app_cons A y B c :
  (∀ a, a ∈ A → self a ≠ self y) →
  insertBefore (self y) c (A ++ y :: B) = A ++ c :: y :: B.
Proof.
  intros HA. induction A as [|a A IH]; simpl.
  - by rewrite decide_True.
  - rewrite decide_False by (apply HA; by left).
    f_equal. apply IH. intros a' Ha'. apply HA. by right.
Qed.

(** Inserting a dealloc anywhere keeps an instruction placed after its
    target. *)
Lemma placedAfter_insert u d A B c :
  isDealloc c = true → placedAfter u d (A ++ B) → placedAfter u d (A ++ c :: B).
Proof.
  intros Hc (pre & ux & ds & post & Heq & Hu & Hds).
  apply app_eq_inv in Heq as [(K & HA & HB)|(K & Hpre & HB)].
  - destruct K as [|k K]; simpl in HB.
    + exists (pre ++ [c]), ux, ds, post. split_and!; [|done|done].
      rewrite HA, <- HB, app_nil_r. assoc.
    + injection HB as <- HB.
      apply app_eq_inv in HB as [(K2 & Hds' & HB)|(K2 & HK & HB)].
      * exists pre, ux, (K ++ c :: K2), post. split_and!; [|done|].
        -- rewrite HA, HB. assoc.
        -- rewrite Hds' in Hds. apply Forall_app in Hds as [? ?].
           apply Forall_app. split; [done|]. by apply Forall_cons.
      * destruct K2 as [|k2 K2]; simpl in HB.
        -- exists pre, ux, (ds ++ [c]), post. split_and!; [|done|].
           ++ rewrite HA, HK, <- HB, app_nil_r. assoc.
           ++ apply Forall_app. split; [done|]. by apply Forall_singleton.
        -- injection HB as <- HB. exists pre, ux, ds, (K2 ++ c :: B).
           split_and!; [|done|done].
           rewrite HA, HK. assoc.
  - exists (A ++ c :: K), ux, ds, post. split_and!; [|done|done].
    rewrite HB. assoc.
Qed.

Lemma placedAfter_app u d l B : placedAfter u d l → placedAfter u d (l ++ B).
Proof.
  intros (pre & ux & ds & post & -> & Hu & Hds).
  exists pre, ux, ds, (post ++ B). split_and!; [|done|done]. assoc.
Qed.

Lemma findInstr_Some l v x : findInstr l v = Some x → x ∈ l ∧ self x = v.
Proof.
  destruct v as [n|n]; simpl; try done.
  intros [Hin Hid]%find_some. split; [by apply list_elem_of_In|].
  apply bool_decide_eq_true in Hid. unfold self. by rewrite Hid.
Qed.

Lemma findInstr_None l v x : findInstr l v = None → x ∈ l → self x ≠ v.
Proof.
  destruct v as [n|n]; simpl; try done.
  intros Hnone Hin Heq. apply list_elem_of_In in Hin.
  pose proof (find_none _ _ Hnone x Hin) as Hf. simpl in Hf.
  apply bool_decide_eq_false in Hf. apply Hf. by injection Heq.
Qed.

(** A stream splits at an instruction that occurs once in one way. *)
Lemma split_unique A x B A' B' :
  (∀ a, a ∈ A → a ≠ x) → (∀ a, a ∈ A' → a ≠ x) →
  A ++ x :: B = A' ++ x :: B' → A = A'.
Proof.
  revert A'. induction A as [|a A IH]; intros [|a' A'] HA HA' Heq; simpl in Heq.
  - done.
  - injection Heq as -> _. destruct (HA' a'); [by left | done].
  - injection Heq as -> _. destruct (HA x); [by left | done].
  - injection Heq as -> Heq. f_equal. apply (IH A'); [| |done].
    + intros b Hb. apply HA. by right.
    + intros b Hb. apply HA'. by right.
Qed.

(** The last instruction that is not a dealloc. *)
Lemma last_nondealloc A x B :
  isDealloc x = false → Forall (λ y, isDealloc y = true) B →
  last (filter (λ ins, isDealloc ins = false) (A ++ x :: B)) = Some x.
Proof.
  intros Hx HB. rewrite filter_app, filter_cons_True by done.
  assert (filter (λ ins, isDealloc ins = false) B = []) as ->.
  { induction HB as [|y B Hy HB IH]; [done|].
    rewrite filter_cons_False; [done|]. by rewrite Hy. }
  apply last_snoc.
Qed.
End Stream.

Section LastUsers.
Implicit Types (lastUser : gmap Value Value).

Lemma recordOperands_lookup M lastUser (p : Value) (ops : list Operand) a :
  foldl (λ lu (op : Operand),
           match getAllocationOrigin M op.1 with
           | Some alloc => <[alloc := p]> lu
           | None => lu
           end) lastUser ops !! a
  = if bool_decide (Exists (λ op : Operand, getAllocationOrigin M op.1 = Some a) ops)
    then Some p else lastUser !! a.
Proof.
  revert lastUser. induction ops as [|op ops IH]; intros lastUser; cbn [foldl].
  - rewrite bool_decide_false; [done|]. by intros H%Exists_nil.
  - rewrite IH. destruct (bool_decide (Exists _ ops)) eqn:Hex.
    + apply bool_decide_eq_true in Hex. rewrite bool_decide_true; [done|].
      by apply Exists_cons_tl.
    + apply bool_decide_eq_false in Hex.
      destruct (decide (getAllocationOrigin M op.1 = Some a)) as [Ho|Ho].
      * rewrite Ho, lookup_insert_eq. rewrite bool_decide_true; [done|].
        by apply Exists_cons_hd.
      * rewrite bool_decide_false.
        -- destruct (getAllocationOrigin M op.1) as [a'|]; [|done].
           rewrite lookup_insert_ne; [done|]. congruence.
        -- intros [?|?]%Exists_cons; done.
Qed.

Lemma recordLastUser_lookup M lastUser ins a :
  recordLastUser M lastUser ins !! a
  = if usesAlloc M a ins then Some (self ins) else lastUser !! a.
Proof.
  unfold recordLastUser, usesAlloc.
  destruct (isDealloc ins); [done|]. destruct (isAlloc ins).
  - destruct (decide (self ins = a)) as [Heq|Hne].
    + by rewrite bool_decide_true, Heq, lookup_insert_eq.
    + by rewrite bool_decide_false, lookup_insert_ne.
  - apply recordOperands_lookup.
Qed.

Lemma lastUsers_fold M l lastUser a :
  foldl (recordLastUser M) lastUser l !! a
  = match last (filter (λ ins, usesAlloc M a ins = true) l) with
    | Some x => Some (self x)
    | None => lastUser !! a
    end.
Proof.
  induction l as [|x l IH] using rev_ind; [done|].
  rewrite foldl_app, filter_app. simpl. rewrite recordLastUser_lookup.
  destruct (usesAlloc M a x) eqn:Hx.
  - rewrite filter_cons_True, filter_nil by done. by rewrite last_snoc.
  - rewrite filter_cons_False, filter_nil, app_nil_r by congruence. done.
Qed.

(** The map of the first loop: the last non-dealloc use of each
    allocation. *)
Lemma lastUsers_lookup M a : lastUsers M !! a = self <$> lastUse M a.
Proof.
  unfold lastUsers, lastUse. rewrite lastUsers_fold.
  by destruct (last _).
Qed.
End LastUsers.

Section Hoist.
Variable NDEBUG : bool.
Variable M : Module.
Hypothesis Hnd : NoDup (iid <$> getInstrs M).
Implicit Types (P R A B : list Instruction) (d curr ux : Instruction).

Lemma hoistLoop_end fuel l : hoistLoop NDEBUG fuel M (lastUsers M) l None = Ok l.
Proof. by destruct fuel. Qed.

(** The last use of an allocation is an instruction of the stream that is
    not a dealloc; an allocation of the stream has one. *)
Lemma lastUse_Some a ux :
  lastUse M a = Some ux → ux ∈ getInstrs M ∧ isDealloc ux = false.
Proof.
  unfold lastUse. intros [l' Hl]%last_Some.
  assert (ux ∈ filter (λ ins, usesAlloc M a ins = true) (getInstrs M)) as Hin.
  { rewrite Hl. apply elem_of_app. right. by left. }
  apply list_elem_of_filter in Hin as [Hu Hin]. split; [done|].
  unfold usesAlloc in Hu. by destruct (isDealloc ux).
Qed.

Lemma lastUse_alloc a : isAllocValue M a = true → is_Some (lastUse M a).
Proof.
  unfold isAllocValue, getInstr. destruct (findInstr _ a) as [ins|] eqn:Hf; [|done].
  intros Ha. apply findInstr_Some in Hf as [Hin Hself].
  unfold lastUse. apply last_is_Some. intros Hnil.
  assert (ins ∈ filter (λ ins, usesAlloc M a ins = true) (getInstrs M)) as Hin'.
  { apply list_elem_of_filter. split; [|done]. unfold usesAlloc.
    unfold isAlloc, isDealloc, isa in *. apply bool_decide_eq_true in Ha.
    rewrite Ha. simpl. by apply bool_decide_eq_true. }
  rewrite Hnil in Hin'. by apply elem_of_nil in Hin'.
Qed.

Lemma lastUseOf_Some d ux :
  lastUseOf M d = Some ux ↔
  ∃ op, getOperandValue d 0 = Some op ∧ lastUse M (getOrigin M op) = Some ux.
Proof.
  unfold lastUseOf. destruct (getOperandValue d 0) as [op|]; simpl.
  - split; [by eauto|]. by intros (op' & [= <-] & ?).
  - split; [done|]. by intros (op' & ? & ?).
Qed.

Lemma lastUseOf_stream d ux :
  lastUseOf M d = Some ux → ux ∈ getInstrs M ∧ isDealloc ux = false.
Proof. intros (op & _ & Hl)%lastUseOf_Some. by eapply lastUse_Some. Qed.

Lemma hoistable_lastUseOf d : hoistable NDEBUG M d → is_Some (lastUseOf M d).
Proof.
  intros (op & ux & Hop & _ & Hl). exists ux. apply lastUseOf_Some. eauto.
Qed.

(** The body of the loop. *)
Lemma hoistStep_other l curr :
  isDealloc curr = false → hoistStep NDEBUG M (lastUsers M) l curr = Ok l.
Proof. intros Hd. unfold hoistStep. by rewrite Hd. Qed.

Lemma hoistStep_dealloc l curr ux :
  isDealloc curr = true → hoistable NDEBUG M curr →
  lastUseOf M curr = Some ux →
  hoistStep NDEBUG M (lastUsers M) l curr
  = if decide (next l (self ux) = Some (self curr)) then Ok l
    else Ok (moveInstruction l (next l (self ux)) curr).
Proof.
  intros Hd (op & ux' & Hop & Ha & Hl) (op' & Hop' & Hl')%lastUseOf_Some.
  rewrite Hop in Hop'. injection Hop' as <-.
  unfold hoistStep. rewrite Hd, Hop. cbn [negb]. unfold assert. rewrite Ha.
  cbn [mbind result_bind]. rewrite lastUsers_lookup, Hl'. done.
Qed.

Lemma hoistStep_Ok l curr l' :
  isDealloc curr = true →
  hoistStep NDEBUG M (lastUsers M) l curr = Ok l' → hoistable NDEBUG M curr.
Proof.
  intros Hd. unfold hoistStep. rewrite Hd. cbn [negb].
  destruct (getOperandValue curr 0) as [op|] eqn:Hop; [|done].
  intros ([] & Ha%assert_Ok & Hrest)%bind_Ok.
  rewrite lastUsers_lookup in Hrest.
  destruct (lastUse M (getOrigin M op)) as [ux|] eqn:Hl; [|done].
  by exists op, ux.
Qed.

Lemma hoistStep_defined l curr :
  (isDealloc curr = true → hoistable NDEBUG M curr) →
  ∃ l', hoistStep NDEBUG M (lastUsers M) l curr = Ok l'.
Proof.
  intros Hh. destruct (isDealloc curr) eqn:Hd.
  - destruct (hoistable_lastUseOf curr (Hh eq_refl)) as [ux Hux].
    rewrite (hoistStep_dealloc l curr ux) by auto.
    destruct (decide _); eauto.
  - rewrite hoistStep_other by done. eauto.
Qed.

(** The states of the loop keep the addresses distinct. *)
Lemma hoistedSoFar_NoDup P R : hoistedSoFar M P R → NoDup (iid <$> (P ++ R)).
Proof. intros (Hperm & _). by rewrite Hperm. Qed.

Lemma movesForward_insert x A B c :
  isDealloc c = true →
  movesForward M x (A ++ c :: B) = movesForward M x (A ++ B).
Proof.
  intros Hc. unfold movesForward. destruct (isDealloc x); [|done]. simpl.
  destruct (lastUseOf M x) as [u|] eqn:Hu; [|done].
  apply lastUseOf_stream in Hu as [_ Hu].
  apply bool_decide_ext. rewrite !elem_of_app, elem_of_cons.
  split; [|tauto]. intros [?|[->|?]]; [tauto | congruence | tauto].
Qed.

Lemma visitsLeft_insert A B c :
  isDealloc c = true → movesForward M c B = false →
  visitsLeft M (A ++ c :: B) = S (visitsLeft M (A ++ B)).
Proof.
  intros Hc Hm. induction A as [|x A IH]; simpl.
  - by rewrite Hm.
  - rewrite movesForward_insert, IH by done. lia.
Qed.

Lemma visitsLeft_cons x R : visitsLeft M R < visitsLeft M (x :: R).
Proof. simpl. destruct (movesForward M x R); lia. Qed.

Lemma visitsLeft_bound R : visitsLeft M R ≤ 2 * length R.
Proof.
  induction R as [|x R IH]; simpl; [lia|]. destruct (movesForward M x R); lia.
Qed.

(** One iteration of the loop, from a state whose cursor is at [curr]:
    the instruction stays, moves backward behind the last use, or moves
    forward behind it and is visited again. *)
Lemma hoistStep_spec P curr R l' :
  hoistedSoFar M P (curr :: R) →
  hoistStep NDEBUG M (lastUsers M) (P ++ curr :: R) curr = Ok l' →
  ∃ P' R',
    l' = P' ++ R'
    ∧ next (P ++ curr :: R) (self curr) = begin_ R'
    ∧ hoistedSoFar M P' R'
    ∧ visitsLeft M R' < visitsLeft M (curr :: R)
    ∧ (∀ x, x ∈ R' → x ∈ curr :: R).
Proof.
  intros Hinv Hstep.
  pose proof (hoistedSoFar_NoDup _ _ Hinv) as HndS.
  destruct Hinv as (Hperm & Hfilter & Hplaced).
  destruct (NoDup_iid_split _ P curr R HndS eq_refl) as [HP HR].
  assert (next (P ++ curr :: R) (self curr) = begin_ R) as Hnext
    by (by apply next_app_cons).
  assert (hoistedSoFar M (P ++ [curr]) R
          ↔ ∀ d, d ∈ P ++ [curr] → isDealloc d = true →
              ∃ ux, lastUseOf M d = Some ux ∧ placedAfter (self ux) d (P ++ [curr]))
    as Hstay.
  { unfold hoistedSoFar. rewrite <- !app_assoc. simpl. tauto. }
  destruct (isDealloc curr) eqn:Hd.
  - pose proof (hoistStep_Ok _ _ _ Hd Hstep) as Hh.
    destruct (hoistable_lastUseOf _ Hh) as [ux Hux].
    rewrite (hoistStep_dealloc _ curr ux) in Hstep by done.
    destruct (lastUseOf_stream _ _ Hux) as [Hin Hnotd].
    rewrite <- Hperm in Hin.
    apply elem_of_app in Hin as [Hin|Hin].
    + (* the last use is behind the cursor *)
      apply list_elem_of_split in Hin as (A & B & ->).
      assert (NoDup (iid <$> (A ++ ux :: B))) as HndP.
      { rewrite fmap_app in HndS. by apply NoDup_app in HndS as (? & _). }
      destruct (NoDup_iid_split _ A ux B HndP eq_refl) as [HA HB].
      replace ((A ++ ux :: B) ++ curr :: R) with (A ++ ux :: (B ++ curr :: R))
        in Hstep by assoc.
      rewrite next_app_cons in Hstep by done.
      destruct B as [|x B].
      * cbn [app head fmap option_fmap option_map] in Hstep.
        rewrite decide_True in Hstep by done. injection Hstep as <-.
        exists ((A ++ [ux]) ++ [curr]), R. split_and!.
        -- assoc.
        -- done.
        -- apply Hstay. intros d Hin Hdd.
           apply elem_of_app in Hin as [Hin|Hin%list_elem_of_singleton].
           ++ destruct (Hplaced d Hin Hdd) as (u & Hu & Hpl).
              exists u. split; [done|]. by apply placedAfter_app.
           ++ subst d. exists ux. split; [done|].
              exists A, ux, [], []. split_and!; [|done|done]. assoc.
        -- apply visitsLeft_cons.
        -- intros y Hy. by right.
      * cbn [app head fmap option_fmap option_map] in Hstep.
        assert (self x ≠ self curr) as Hx.
        { apply HP. apply elem_of_app. right. right. by left. }
        rewrite decide_False in Hstep by congruence. injection Hstep as <-.
        exists (A ++ ux :: curr :: x :: B), R. split_and!.
        -- unfold moveInstruction, insertInstruction.
           replace (A ++ ux :: x :: B ++ curr :: R)
             with ((A ++ ux :: x :: B) ++ curr :: R) by assoc.
           rewrite removeInstruction_app_cons by done.
           replace ((A ++ ux :: x :: B) ++ R)
             with ((A ++ [ux]) ++ x :: (B ++ R)) by assoc.
           rewrite insertBefore_app_cons; [assoc|].
           destruct (NoDup_iid_split _ (A ++ [ux]) x B HndP) as [Hbefore _];
             [assoc | done].
        -- done.
        -- split_and!.
           ++ rewrite <- Hperm.
              replace ((A ++ ux :: curr :: x :: B) ++ R)
                with ((A ++ [ux]) ++ curr :: ((x :: B) ++ R)) by assoc.
              replace ((A ++ ux :: x :: B) ++ curr :: R)
                with ((A ++ [ux]) ++ (x :: B) ++ curr :: R) by assoc.
              apply Permutation_app_head. apply Permutation_middle.
           ++ rewrite <- Hfilter.
              rewrite ?filter_app, ?filter_cons, ?filter_app, ?filter_cons.
              repeat case_decide; congruence.
           ++ intros d Hin Hdd.
              assert (A ++ ux :: curr :: x :: B = (A ++ [ux]) ++ curr :: x :: B)
                as Eq1 by assoc.
              assert (A ++ ux :: x :: B = (A ++ [ux]) ++ x :: B) as Eq2 by assoc.
              destruct (decide (d = curr)) as [->|Hne].
              ** exists ux. split; [done|]. by exists A, ux, [], (x :: B).
              ** assert (d ∈ A ++ ux :: x :: B) as Hin'.
                 { rewrite elem_of_app, !elem_of_cons in Hin.
                   rewrite elem_of_app, !elem_of_cons. tauto. }
                 destruct (Hplaced d Hin' Hdd) as (u & Hu & Hpl).
                 exists u. split; [done|].
                 rewrite Eq1. apply placedAfter_insert; [done|]. by rewrite <- Eq2.
        -- apply visitsLeft_cons.
        -- intros y Hy. by right.
    + (* the last use is ahead of the cursor *)
      apply elem_of_cons in Hin as [->|Hin]; [congruence|].
      apply list_elem_of_split in Hin as (R1 & R2 & ->).
      destruct (NoDup_iid_split _ (P ++ curr :: R1) ux R2 HndS) as [Hb1 Hb2];
        [assoc|].
      replace (P ++ curr :: R1 ++ ux :: R2) with ((P ++ curr :: R1) ++ ux :: R2)
        in Hstep by assoc.
      rewrite next_app_cons in Hstep by done.
      assert (self <$> head R2 ≠ Some (self curr)) as Hne.
      { destruct R2 as [|y R2]; [done|]. simpl. intros [= Heq].
        apply (HR y); [|by unfold self; rewrite Heq].
        apply elem_of_app. right. right. by left. }
      rewrite decide_False in Hstep by done. injection Hstep as <-.
      assert (ux ∉ R2) as HuxR2.
      { intros Hin. by apply (Hb2 ux Hin). }
      exists P, (R1 ++ ux :: curr :: R2). split_and!.
      * unfold moveInstruction.
        replace ((P ++ curr :: R1) ++ ux :: R2) with (P ++ curr :: (R1 ++ ux :: R2))
          by assoc.
        rewrite removeInstruction_app_cons by done.
        destruct R2 as [|y R2]; cbn [head fmap option_fmap option_map insertInstruction].
        -- assoc.
        -- replace (P ++ R1 ++ ux :: y :: R2) with ((P ++ R1 ++ [ux]) ++ y :: R2)
             by assoc.
           rewrite insertBefore_app_cons; [assoc|].
           destruct (NoDup_iid_split _ (P ++ curr :: R1 ++ [ux]) y R2 HndS)
             as [Hbefore _]; [assoc|].
           intros a Ha. apply Hbefore.
           rewrite !elem_of_app in Ha. rewrite elem_of_app, elem_of_cons, elem_of_app.
           tauto.
      * rewrite Hnext. by destruct R1.
      * split_and!.
        -- rewrite <- Hperm. apply Permutation_app_head.
           replace (R1 ++ ux :: curr :: R2) with ((R1 ++ [ux]) ++ curr :: R2) by assoc.
           rewrite <- Permutation_middle.
           apply Permutation_skip. by rewrite <- app_assoc.
        -- rewrite <- Hfilter.
           rewrite ?filter_app, ?filter_cons, ?filter_app, ?filter_cons.
           repeat case_decide; congruence.
        -- done.
      * replace (R1 ++ ux :: curr :: R2) with ((R1 ++ [ux]) ++ curr :: R2) by assoc.
        rewrite visitsLeft_insert.
        -- rewrite <- app_assoc. cbn [app].
           cbn [visitsLeft].
           assert (movesForward M curr (R1 ++ ux :: R2) = true) as ->; [|lia].
           unfold movesForward. rewrite Hd, Hux. simpl.
           apply bool_decide_eq_true. apply elem_of_app. right. by left.
        -- done.
        -- unfold movesForward. rewrite Hd, Hux. simpl.
           by apply bool_decide_eq_false.
      * intros y Hy. rewrite elem_of_app, !elem_of_cons in Hy.
        rewrite elem_of_cons, elem_of_app, elem_of_cons. tauto.
  - rewrite hoistStep_other in Hstep by done. injection Hstep as <-.
    exists (P ++ [curr]), R. split_and!.
    + assoc.
    + done.
    + apply Hstay. intros d Hin Hdd.
      apply elem_of_app in Hin as [Hin|Hin%list_elem_of_singleton]; [|congruence].
      destruct (Hplaced d Hin Hdd) as (u & Hu & Hpl).
      exists u. split; [done|]. by apply placedAfter_app.
    + apply visitsLeft_cons.
    + intros y Hy. by right.
Qed.

(** The second loop, from a state on: it returns when the body returns
    on every dealloc ahead, and what it returns has every dealloc
    placed. *)
Lemma hoistLoop_run fuel :
  ∀ P R,
    hoistedSoFar M P R →
    visitsLeft M R ≤ fuel →
    (Forall (λ d, isDealloc d = true → hoistable NDEBUG M d) R →
     ∃ l', hoistLoop NDEBUG fuel M (lastUsers M) (P ++ R) (begin_ R) = Ok l')
    ∧ (∀ l', hoistLoop NDEBUG fuel M (lastUsers M) (P ++ R) (begin_ R) = Ok l' →
             hoistedSoFar M l' []).
Proof.
  induction fuel as [|fuel IH]; intros P R Hinv Hfuel.
  - destruct R as [|curr R]; [|pose proof (visitsLeft_cons curr R); lia].
    simpl. rewrite app_nil_r. split; [by eauto|]. intros l' [= <-].
    done.
  - destruct R as [|curr R].
    { simpl. rewrite app_nil_r. split; [by eauto|]. intros l' [= <-].
      done. }
    pose proof (hoistedSoFar_NoDup _ _ Hinv) as HndS.
    destruct (NoDup_iid_split _ P curr R HndS eq_refl) as [HP HR].
    change (begin_ (curr :: R)) with (Some (self curr)).
    cbn [hoistLoop]. rewrite findInstr_app_cons by done.
    split.
    + intros Hall. apply Forall_cons in Hall as [Hcurr Hall].
      destruct (hoistStep_defined (P ++ curr :: R) curr Hcurr) as [l1 Hstep].
      rewrite Hstep. cbn [mbind result_bind].
      destruct (hoistStep_spec _ _ _ _ Hinv Hstep)
        as (P' & R' & -> & -> & Hinv' & Hlt & Hsub).
      apply IH; [done | lia |].
      apply Forall_forall. intros y Hy. apply Hsub in Hy.
      apply elem_of_cons in Hy as [->|Hy]; [done|].
      by apply (proj1 (Forall_forall _ _) Hall).
    + intros l' (l1 & Hstep & Hrun)%bind_Ok.
      destruct (hoistStep_spec _ _ _ _ Hinv Hstep)
        as (P' & R' & -> & Hn & Hinv' & Hlt & Hsub).
      rewrite Hn in Hrun.
      apply (IH P' R'); [done | lia | done].
Qed.

(** The loop goes through the states of [hoistReach], and nothing
    else. *)
Lemma hoistLoop_reaches fuel :
  ∀ l it l',
    hoistReach NDEBUG M l it →
    hoistLoop NDEBUG fuel M (lastUsers M) l it = Ok l' →
    hoistReach NDEBUG M l' None.
Proof.
  induction fuel as [|fuel IH]; intros l it l' Hr Hrun.
  - destruct it; [done|]. simpl in Hrun. by injection Hrun as <-.
  - destruct it as [p|]; [|simpl in Hrun; by injection Hrun as <-].
    cbn [hoistLoop] in Hrun.
    destruct (findInstr l p) as [curr|] eqn:Hf; [|done].
    apply bind_Ok in Hrun as (l1 & Hstep & Hrun).
    eapply IH; [|exact Hrun]. by eapply hoistReach_step.
Qed.

Lemma hoistReach_runs l it l' :
  hoistReach NDEBUG M l it →
  hoistLoop NDEBUG (2 * length (getInstrs M)) M (lastUsers M)
    (getInstrs M) (begin_ (getInstrs M)) = Ok l' →
  ∃ fuel, hoistLoop NDEBUG fuel M (lastUsers M) l it = Ok l'.
Proof.
  intros Hr Hrun. induction Hr as [|l p curr l1 Hr IH Hf Hstep].
  - eauto.
  - destruct IH as [[|fuel] IH]; [done|].
    cbn [hoistLoop] in IH. rewrite Hf, Hstep in IH. by exists fuel.
Qed.

(** When every dealloc already stands right after the last use, no step
    of the loop moves anything. *)
Lemma hoistLoop_fixed rest :
  (∀ d ux, d ∈ getInstrs M → isDealloc d = true →
           lastUseOf M d = Some ux →
           next (getInstrs M) (self ux) = Some (self d)) →
  ∀ done fuel l',
    getInstrs M = done ++ rest →
    hoistLoop NDEBUG fuel M (lastUsers M) (getInstrs M) (begin_ rest) = Ok l' →
    l' = getInstrs M.
Proof.
  intros Hplaced. induction rest as [|curr rest IH]; intros done fuel l' Heq Hrun.
  - rewrite hoistLoop_end in Hrun. by injection Hrun.
  - destruct fuel as [|fuel]; [done|].
    destruct (NoDup_iid_split _ done curr rest Hnd Heq) as [Hdone _].
    assert (findInstr (getInstrs M) (self curr) = Some curr) as Hfind
      by (rewrite Heq; by apply findInstr_app_cons).
    assert (next (getInstrs M) (self curr) = begin_ rest) as Hnext
      by (rewrite Heq; by apply next_app_cons).
    change (begin_ (curr :: rest)) with (Some (self curr)) in Hrun.
    cbn [hoistLoop] in Hrun. rewrite Hfind, Hnext in Hrun.
    apply bind_Ok in Hrun as (l1 & Hstep & Hrun).
    assert (l1 = getInstrs M) as ->.
    { destruct (isDealloc curr) eqn:Hd.
      - pose proof (hoistStep_Ok _ _ _ Hd Hstep) as Hh.
        destruct (hoistable_lastUseOf _ Hh) as [ux Hux].
        rewrite (hoistStep_dealloc _ curr ux) in Hstep by done.
        rewrite decide_True in Hstep; [by injection Hstep|].
        apply Hplaced; [|done..].
        rewrite Heq. apply elem_of_app. right. by left.
      - rewrite hoistStep_other in Hstep by done. by injection Hstep. }
    apply (IH (done ++ [curr]) fuel); [by rewrite <- app_assoc | done].
Qed.

(** In a stream with every dealloc placed, the instructions between a
    dealloc and the last use of its allocation are deallocs of
    allocations with the same last use. *)
Lemma placed_among l d :
  l ≡ₚ getInstrs M →
  (∀ x, x ∈ l → isDealloc x = true →
        ∃ u, lastUseOf M x = Some u ∧ placedAfter (self u) x l) →
  d ∈ l → isDealloc d = true →
  ∃ ux, lastUseOf M d = Some ux ∧ placedAmong M ux d l.
Proof.
  intros Hperm Hplaced.
  assert (NoDup (iid <$> l)) as Hndl by (by rewrite Hperm).
  assert (∀ x, x ∈ l → isDealloc x = true →
            ∃ u pre ds post, lastUseOf M x = Some u ∧ isDealloc u = false
              ∧ l = pre ++ u :: ds ++ x :: post
              ∧ Forall (λ y, isDealloc y = true) ds) as Hplaced'.
  { intros x Hx Hxd. destruct (Hplaced x Hx Hxd) as (u & Hu & Hpl).
    destruct Hpl as (pre & u' & ds & post & Hl & Hself & Hds).
    destruct (lastUseOf_stream _ _ Hu) as [Hin Hud].
    assert (u' = u) as ->.
    { apply (NoDup_iid_inj l); [done | | by rewrite Hperm | by injection Hself].
      rewrite Hl. apply elem_of_app. right. by left. }
    by exists u, pre, ds, post. }
  intros Hd Hdd.
  destruct (Hplaced' d Hd Hdd) as (ux & pre & ds & post & Hux & Hud & Hl & Hds).
  exists ux. split; [done|]. exists pre, ds, post. split; [done|].
  apply Forall_forall. intros x Hx.
  pose proof (proj1 (Forall_forall _ _) Hds x Hx) as Hxd. split; [done|].
  assert (x ∈ l) as Hxl.
  { rewrite Hl. rewrite elem_of_app, elem_of_cons, elem_of_app. tauto. }
  destruct (Hplaced' x Hxl Hxd) as (u & pre2 & ds2 & post2 & Hu & Hud2 & Hl2 & Hds2).
  rewrite Hu. f_equal.
  apply list_elem_of_split in Hx as (ds1 & ds3 & ->).
  assert (l = (pre ++ ux :: ds1) ++ x :: (ds3 ++ d :: post)) as E1
    by (rewrite Hl; assoc).
  assert (l = (pre2 ++ u :: ds2) ++ x :: post2) as E2 by (rewrite Hl2; assoc).
  destruct (NoDup_iid_split _ _ _ _ Hndl E1) as [H1 _].
  destruct (NoDup_iid_split _ _ _ _ Hndl E2) as [H2 _].
  assert (pre ++ ux :: ds1 = pre2 ++ u :: ds2) as Heq.
  { eapply split_unique; [| |rewrite <- E1; exact E2].
    - intros a Ha ->. by apply (H1 x).
    - intros a Ha ->. by apply (H2 x). }
  apply Forall_app in Hds as [Hds1 _].
  pose proof (last_nondealloc pre ux ds1 Hud Hds1) as L1.
  pose proof (last_nondealloc pre2 u ds2 Hud2 Hds2) as L2.
  rewrite Heq in L1. congruence.
Qed.

(** A stream with the same instructions, the ones that are not deallocs
    in the same order, has the same last uses. *)
Lemma findInstr_perm l v :
  l ≡ₚ getInstrs M → findInstr l v = findInstr (getInstrs M) v.
Proof.
  intros Hperm.
  assert (NoDup (iid <$> l)) as Hndl by (by rewrite Hperm).
  destruct (findInstr (getInstrs M) v) as [x|] eqn:Hf.
  - apply findInstr_Some in Hf as [Hin <-]. rewrite <- Hperm in Hin.
    apply list_elem_of_split in Hin as (A & B & ->).
    apply findInstr_app_cons. by apply (NoDup_iid_split _ A x B Hndl).
  - destruct (findInstr l v) as [x|] eqn:Hf'; [|done].
    apply findInstr_Some in Hf' as [Hin Hself]. rewrite Hperm in Hin.
    by destruct (findInstr_None _ _ x Hf Hin).
Qed.

Lemma getOrigin_perm l v :
  l ≡ₚ getInstrs M → getOrigin (setInstrs M l) v = getOrigin M v.
Proof.
  intros Hperm. unfold getOrigin. simpl. rewrite (Permutation_length Hperm).
  generalize (length (getInstrs M)). intros fuel. revert v.
  induction fuel as [|fuel IH]; intros v; simpl; [done|].
  unfold getInstr. simpl. rewrite findInstr_perm by done.
  destruct (findInstr (getInstrs M) v) as [ins|]; [|done].
  destruct (isTensorView ins); [|done].
  destruct (getOperandValue ins 0); [|done]. apply IH.
Qed.

Lemma lastUse_perm l a :
  l ≡ₚ getInstrs M →
  filter (λ ins, isDealloc ins = false) l
  = filter (λ ins, isDealloc ins = false) (getInstrs M) →
  lastUse (setInstrs M l) a = lastUse M a.
Proof.
  intros Hperm Hfilter.
  assert (∀ v, getAllocationOrigin (setInstrs M l) v = getAllocationOrigin M v)
    as Halloc.
  { intros v. unfold getAllocationOrigin, isAllocValue, getInstr.
    rewrite getOrigin_perm by done. simpl. by rewrite findInstr_perm. }
  assert (∀ ins, usesAlloc (setInstrs M l) a ins = usesAlloc M a ins) as Huses.
  { intros ins. unfold usesAlloc. destruct (isDealloc ins); [done|].
    destruct (isAlloc ins); [done|]. apply bool_decide_ext.
    rewrite !Exists_exists. by setoid_rewrite Halloc. }
  unfold lastUse. simpl. f_equal.
  assert (∀ k : list Instruction,
            filter (λ ins, usesAlloc M a ins = true) k
            = filter (λ ins, usesAlloc M a ins = true)
                (filter (λ ins, isDealloc ins = false) k)) as Hsplit.
  { induction k as [|x k IH]; [done|].
    rewrite !filter_cons. destruct (decide (isDealloc x = false)) as [Hx|Hx].
    - rewrite filter_cons. destruct (decide _); by rewrite IH.
    - rewrite decide_False; [done|]. unfold usesAlloc.
      destruct (isDealloc x); done. }
  rewrite (Hsplit (getInstrs M)), <- Hfilter, <- Hsplit.
  apply filter_ext_in. intros x _. by rewrite Huses.
Qed.

(** C5, as amended.  [hoistDealloc] returns on a stream in which every
    dealloc closes an allocation.  What it returns has the same
    instructions, the ones that are not deallocs in their order, hence
    the same last uses; every DeallocActivation stands after the last
    non-dealloc use of its allocation (a use of a view counts, and so
    does the allocation itself), separated from it by nothing but
    deallocs of allocations with the same last use, hence immediately
    after it when no other dealloc shares that last use.  A dealloc that
    stands immediately after that last use when the loop reaches it is
    not moved, and when every dealloc already stands there the stream is
    unchanged.  No order of the deallocs and their last uses is assumed:
    a dealloc in front of its last use is moved forward. *)
Theorem hoistDealloc_places_deallocs :
  (deallocsCloseAllocs M → ∃ M', hoistDealloc NDEBUG M = Ok M')
  ∧ ∀ M', hoistDealloc NDEBUG M = Ok M' →
      getWeights M' = getWeights M
      ∧ getInstrs M' ≡ₚ getInstrs M
      ∧ filter (λ ins, isDealloc ins = false) (getInstrs M')
        = filter (λ ins, isDealloc ins = false) (getInstrs M)
      ∧ (∀ a, lastUse M' a = lastUse M a)
      ∧ (∀ d, lastUseOf M' d = lastUseOf M d)
      ∧ (∀ d, d ∈ getInstrs M' → isDealloc d = true →
           ∃ ux, lastUseOf M d = Some ux
                 ∧ placedAmong M ux d (getInstrs M')
                 ∧ ((∀ d', d' ∈ getInstrs M → isDealloc d' = true → d' ≠ d →
                           lastUseOf M d' ≠ Some ux) →
                    next (getInstrs M') (self ux) = Some (self d)))
      ∧ hoistReach NDEBUG M (getInstrs M') None
      ∧ (∀ l p d ux,
           hoistReach NDEBUG M l (Some p) → findInstr l p = Some d →
           isDealloc d = true → lastUseOf M d = Some ux →
           next l (self ux) = Some (self d) →
           hoistStep NDEBUG M (lastUsers M) l d = Ok l)
      ∧ ((∀ d ux, d ∈ getInstrs M → isDealloc d = true →
                  lastUseOf M d = Some ux →
                  next (getInstrs M) (self ux) = Some (self d)) →
         getInstrs M' = getInstrs M).
Proof.
  assert (hoistedSoFar M [] (getInstrs M)) as Hstart.
  { split_and!; [done | done |]. intros d Hd. by apply elem_of_nil in Hd. }
  destruct (hoistLoop_run (2 * length (getInstrs M)) [] (getInstrs M) Hstart
              (visitsLeft_bound _)) as [Hdef Hspec].
  change ([] ++ getInstrs M) with (getInstrs M) in Hdef, Hspec.
  split.
  - intros Hwf. destruct Hdef as [l' Hrun].
    + apply Forall_forall. intros d Hd Hdd.
      destruct (Hwf d Hd Hdd) as (op & Hop & Ha).
      destruct (lastUse_alloc _ Ha) as [ux Hux].
      exists op, ux. split_and!; [done | by rewrite Ha, orb_true_r | done].
    + exists (setInstrs M l'). unfold hoistDealloc. by rewrite Hrun.
  - intros M' (l' & Hrun & [= <-])%bind_Ok.
    destruct (Hspec l' Hrun) as (Hperm & Hfilter & Hplaced).
    rewrite app_nil_r in Hperm, Hfilter. cbn [getInstrs getWeights setInstrs].
    split_and!.
    + done.
    + done.
    + done.
    + intros a. by apply lastUse_perm.
    + intros d. unfold lastUseOf. destruct (getOperandValue d 0) as [op|]; [|done].
      simpl. rewrite getOrigin_perm by done. by apply lastUse_perm.
    + intros d Hd Hdd.
      destruct (placed_among l' d Hperm Hplaced Hd Hdd) as (ux & Hux & Ham).
      exists ux. split_and!; [done | done |]. intros Hshare.
      destruct Ham as (pre & ds & post & Hl & Hds).
      assert (NoDup (iid <$> l')) as Hndl by (by rewrite Hperm).
      destruct (NoDup_iid_split _ (pre ++ ux :: ds) d post Hndl) as [Hbefore _];
        [rewrite Hl; assoc|].
      destruct (NoDup_iid_split _ pre ux (ds ++ d :: post) Hndl Hl) as [Hpre _].
      rewrite Hl, next_app_cons by done.
      destruct ds as [|x ds]; [done|].
      apply Forall_cons in Hds as [[Hxd Hxu] _].
      destruct (Hshare x); [| done | | done].
      * rewrite <- Hperm, Hl. apply elem_of_app. right. right. by left.
      * intros ->. apply (Hbefore d); [|done].
        apply elem_of_app. right. right. by left.
    + eapply hoistLoop_reaches; [|exact Hrun]. constructor.
    + intros l p d ux Hr Hf Hd Hux Hn.
      destruct (hoistReach_runs _ _ _ Hr Hrun) as [[|fuel] Hfuel]; [done|].
      cbn [hoistLoop] in Hfuel. rewrite Hf in Hfuel.
      apply bind_Ok in Hfuel as (l1 & Hstep & _).
      rewrite (hoistStep_dealloc l d ux); [|done | by eapply hoistStep_Ok | done].
      by rewrite decide_True.
    + intros Hfix.
      by apply (hoistLoop_fixed (getInstrs M) Hfix [] (2 * length (getInstrs M))).
Qed.
End Hoist.

(** Buffer sharing redirects the second buffer of [maxIntoSecond] to the
    first one, whose dealloc then stands in front of the print that reads
    it. *)
Lemma earlyDealloc_arises :
  shareBuffers false inplaceTable Samples.maxIntoSecond ≫= (λ M, Ok (deleteDeadAllocs M))
  = Ok Samples.earlyDealloc.
Proof. by vm_compute. Qed.

(** In [earlyDealloc] the dealloc stands in front of the last use of its
    buffer; [hoistDealloc] moves it forward, right after that use. *)
Lemma hoistDealloc_places_deallocs_witness :
  NoDup (iid <$> getInstrs Samples.earlyDealloc)
  ∧ deallocsCloseAllocs Samples.earlyDealloc
  ∧ hoistDealloc false Samples.earlyDealloc
    = Ok (mkModule [Samples.alloc 1 7; Samples.splat 3 (InstrPtr 1);
                    Samples.elementmax 4 (InstrPtr 1) (InstrPtr 1) (InstrPtr 1);
                    Samples.print 6 (InstrPtr 1); Samples.dealloc 5 1] [])
  ∧ next [Samples.alloc 1 7; Samples.splat 3 (InstrPtr 1);
          Samples.elementmax 4 (InstrPtr 1) (InstrPtr 1) (InstrPtr 1);
          Samples.print 6 (InstrPtr 1); Samples.dealloc 5 1] (InstrPtr 6)
    = Some (InstrPtr 5).
Proof.
  assert (NoDup (iid <$> getInstrs Samples.earlyDealloc)) as Hnd.
  { apply (bool_decide_unpack _). by vm_compute. }
  assert (deallocsCloseAllocs Samples.earlyDealloc) as Hwf.
  { intros d Hd Hdd. simpl in Hd.
    repeat (apply elem_of_cons in Hd as [->|Hd]; [try discriminate Hdd|]);
      [|by apply elem_of_nil in Hd].
    exists (InstrPtr 1). split; reflexivity. }
  destruct (hoistDealloc_places_deallocs false Samples.earlyDealloc Hnd)
    as [Hdef Hspec].
  destruct (Hdef Hwf) as [M' HM'].
  assert (hoistDealloc false Samples.earlyDealloc
          = Ok (mkModule [Samples.alloc 1 7; Samples.splat 3 (InstrPtr 1);
                          Samples.elementmax 4 (InstrPtr 1) (InstrPtr 1) (InstrPtr 1);
                          Samples.print 6 (InstrPtr 1); Samples.dealloc 5 1] []))
    as Hrun by (by vm_compute).
  destruct (Hspec _ Hrun) as (_ & _ & _ & _ & _ & Hplaced & _).
  split_and!; [exact Hnd | exact Hwf | exact Hrun |].
  destruct (Hplaced (Samples.dealloc 5 1)) as (ux & Hux & _ & Hnext).
  { simpl. rewrite !elem_of_cons. tauto. }
  { reflexivity. }
  assert (ux = Samples.print 6 (InstrPtr 1)) as ->.
  { vm_compute in Hux. by injection Hux. }
  apply Hnext. intros d' Hd' Hdd' Hne. simpl in Hd'.
  repeat (apply elem_of_cons in Hd' as [->|Hd']; [try discriminate Hdd'|]);
    [done | by apply elem_of_nil in Hd'].
Defined.

(** C5 as stated fails in [sharedLastUse]: the copy is the last use of
    both buffers.  The first dealloc stands right after it and is left
    alone; the second is moved right after the copy, in front of the
    first, which no longer is immediately after its last use. *)
Lemma hoistDealloc_shared_last_use :
  hoistDealloc false Samples.sharedLastUse
  = Ok (mkModule [Samples.alloc 1 7; Samples.alloc 2 7;
                  Samples.copy 3 (InstrPtr 2) (InstrPtr 1);
                  Samples.dealloc 5 2; Samples.dealloc 4 1] [])
  ∧ lastUse Samples.sharedLastUse (InstrPtr 1)
    = Some (Samples.copy 3 (InstrPtr 2) (InstrPtr 1))
  ∧ next (getInstrs Samples.sharedLastUse) (InstrPtr 3) = Some (InstrPtr 4)
  ∧ next [Samples.alloc 1 7; Samples.alloc 2 7;
          Samples.copy 3 (InstrPtr 2) (InstrPtr 1);
          Samples.dealloc 5 2; Samples.dealloc 4 1] (InstrPtr 3)
    ≠ Some (InstrPtr 4).
Proof. split_and!; by vm_compute. Qed.

(** * Further properties of the passes *)

(** ** Dead-store elimination *)

Section DeadStores.
Implicit Types (memoryState ms : gmap Value MemoryLocationState).

Lemma seedWeights_defined M x l :
  getInstrs M = l ++ [x] → ∃ ms, seedWeights M = Ok ms.
Proof.
  intros Hl. unfold seedWeights. rewrite Hl, last_snoc.
  generalize (∅ : gmap Value MemoryLocationState).
  induction (getWeights M) as [|W ws IH]; intros ms; simpl; by eauto.
Qed.

Lemma seedWeights_read M ms W :
  seedWeights M = Ok ms → W ∈ getWeights M →
  lastSeenRead_ (stateOf ms (wself W)) ≠ None.
Proof.
  unfold seedWeights. destruct (last (getInstrs M)) as [li|] eqn:Hlast.
  - intros Hfold HW.
    assert (∀ ws ms0 ms1,
              foldM (λ memoryState WV,
                       Ok (<[wself WV :=
                               mkMemoryLocationState (Some (self li))
                                 (lastSeenWrite_ (stateOf memoryState (wself WV)))]>
                             memoryState)) ms0 ws = Ok ms1 →
              lastSeenRead_ (stateOf ms0 (wself W)) ≠ None ∨ W ∈ ws →
              lastSeenRead_ (stateOf ms1 (wself W)) ≠ None) as Hgen.
    { induction ws as [|W' ws IH]; intros ms0 ms1; simpl.
      - intros [= <-] [?|Hin]; [done | by apply elem_of_nil in Hin].
      - intros Hf Hor. apply (IH _ _ Hf).
        destruct (decide (wself W' = wself W)) as [Heq|Hne].
        + left. unfold stateOf. by rewrite Heq, lookup_insert_eq.
        + destruct Hor as [H0|Hin].
          * left. unfold stateOf. by rewrite lookup_insert_ne.
          * apply elem_of_cons in Hin as [->|Hin]; [done | by right]. }
    apply (Hgen _ _ _ Hfold). by right.
  - destruct (getWeights M) as [|W' ws]; simpl; [|done].
    intros _ HW. by apply elem_of_nil in HW.
Qed.

(** The two counters after the operand writes. *)
Lemma dseWrite_mutated M ins ops ms m nr :
  (foldl (dseWrite M ins) (ms, m, nr) ops).1.2
  = m + length (filter (λ op : Operand, op.2 ≠ OperandKind.In) ops).
Proof.
  revert ms m nr. induction ops as [|op ops IH]; intros ms m nr; simpl; [lia|].
  unfold dseWrite at 2. simpl. destruct (decide (op.2 ≠ OperandKind.In)).
  - rewrite IH, filter_cons_True by done. simpl. lia.
  - rewrite IH, filter_cons_False by done. done.
Qed.

Lemma dseWrite_step M ins w ms m nr op ms' m' nr' :
  dseWrite M ins (ms, m, nr) op = (ms', m', nr') →
  nr ≤ m →
  nr' ≤ m'
  ∧ (nr < m → nr' < m')
  ∧ (lastSeenRead_ (stateOf ms w) ≠ None →
     (op.2 ≠ OperandKind.In ∧ getOrigin M op.1 = w → nr' < m')
     ∧ (¬ (op.2 ≠ OperandKind.In ∧ getOrigin M op.1 = w) →
        lastSeenRead_ (stateOf ms' w) ≠ None)).
Proof.
  unfold dseWrite. simpl. intros Hstep Hle.
  destruct (decide (op.2 ≠ OperandKind.In)) as [Hmut|Hin].
  - destruct (lastSeenRead_ (stateOf ms (getOrigin M op.1))) as [rd|] eqn:Hrd;
      injection Hstep as <- <- <-.
    + split_and!; [lia | lia |]. intros Hw. split; [lia|].
      intros Hnot. unfold stateOf. rewrite lookup_insert_ne; [done|].
      intros Heq. by apply Hnot.
    + split_and!; [lia | lia |]. intros Hw. split.
      * intros [_ Heq]. rewrite Heq in Hrd. done.
      * intros Hnot. unfold stateOf. rewrite lookup_insert_ne; [done|].
        intros Heq. by apply Hnot.
  - injection Hstep as <- <- <-. split_and!; [done | done |].
    intros Hw. split; [by intros [? _] | done].
Qed.

Lemma dseWrite_counts M ins w ops ms m nr :
  nr ≤ m →
  (foldl (dseWrite M ins) (ms, m, nr) ops).2
  ≤ (foldl (dseWrite M ins) (ms, m, nr) ops).1.2
  ∧ (nr < m
     ∨ (lastSeenRead_ (stateOf ms w) ≠ None
        ∧ Exists (λ op : Operand, op.2 ≠ OperandKind.In ∧ getOrigin M op.1 = w) ops)
     → (foldl (dseWrite M ins) (ms, m, nr) ops).2
       < (foldl (dseWrite M ins) (ms, m, nr) ops).1.2).
Proof.
  revert ms m nr. induction ops as [|op ops IH]; intros ms m nr Hle; cbn [foldl].
  - split; [done|]. intros [?|[_ Hex]]; [done | by apply Exists_nil in Hex].
  - destruct (dseWrite M ins (ms, m, nr) op) as [[ms' m'] nr'] eqn:Hstep.
    destruct (dseWrite_step M ins w ms m nr op ms' m' nr' Hstep Hle)
      as (Hle' & Hlt' & Hw').
    destruct (IH ms' m' nr' Hle') as [H1 H2]. split; [done|].
    intros [Hlt|[Hw Hex]]; apply H2.
    + left. by apply Hlt'.
    + destruct (Hw' Hw) as [Hhit Hmiss].
      destruct (decide (op.2 ≠ OperandKind.In ∧ getOrigin M op.1 = w)) as [Hop|Hop].
      * left. by apply Hhit.
      * right. split; [by apply Hmiss|].
        apply Exists_cons in Hex as [?|?]; done.
Qed.

(** Writes to other locations keep the last read of [w]. *)
Lemma dseWrite_keeps_read M ins w ops ms m nr :
  lastSeenRead_ (stateOf ms w) ≠ None →
  Forall (λ op : Operand, op.2 = OperandKind.In ∨ getOrigin M op.1 ≠ w) ops →
  lastSeenRead_ (stateOf (foldl (dseWrite M ins) (ms, m, nr) ops).1.1 w) ≠ None.
Proof.
  revert ms m nr. induction ops as [|op ops IH]; intros ms m nr Hw Hall; [done|].
  apply Forall_cons in Hall as [Hop Hall]. simpl. unfold dseWrite at 2. simpl.
  destruct (decide (op.2 ≠ OperandKind.In)) as [Hmut|Hin].
  - apply IH; [|done]. destruct Hop as [?|Hne]; [done|].
    unfold stateOf. by rewrite lookup_insert_ne.
  - by apply IH.
Qed.

Lemma dseRead_keeps_read M ins w ops ms :
  lastSeenRead_ (stateOf ms w) ≠ None →
  lastSeenRead_ (stateOf (foldl (dseRead M ins) ms ops) w) ≠ None.
Proof.
  revert ms. induction ops as [|op ops IH]; intros ms Hw; [done|].
  simpl. apply IH. unfold dseRead.
  destruct (decide (op.2 ≠ OperandKind.Out)); [|done].
  destruct (decide (getOrigin M op.1 = w)) as [Heq|Hne].
  - unfold stateOf. by rewrite Heq, lookup_insert_eq.
  - unfold stateOf. by rewrite lookup_insert_ne.
Qed.

(** One instruction of the walk: what it can add to the set to erase. *)
Lemma dseInstr_erased M st ins :
  (dseInstr M st ins).2 = st.2
  ∨ ((dseInstr M st ins).2 = {[self ins]} ∪ st.2
     ∧ isMemoryOp ins = false ∧ mutatesOperand ins).
Proof.
  unfold dseInstr, isMemoryOp.
  destruct (isDealloc ins || isAlloc ins || isTensorView ins); [by left|].
  destruct (_ && _) eqn:Hc; [|by left]. right. simpl. split_and!; [done..|].
  apply andb_true_iff in Hc as [Hpos%Nat.ltb_lt _].
  rewrite dseWrite_mutated in Hpos. simpl in Hpos.
  unfold mutatesOperand.
  destruct (filter _ (getOperands ins)) as [|op ops] eqn:Hf; [simpl in Hpos; lia|].
  assert (op ∈ filter (λ op : Operand, op.2 ≠ OperandKind.In) (getOperands ins)) as Hin
    by (rewrite Hf; by left).
  apply list_elem_of_filter in Hin as [Hmut Hin].
  apply Exists_exists. by exists op.
Qed.

Lemma dseWalk_erased M l st p :
  p ∈ (foldl (dseInstr M) st l).2 →
  p ∈ st.2 ∨ ∃ x, x ∈ l ∧ self x = p ∧ isMemoryOp x = false ∧ mutatesOperand x.
Proof.
  revert st. induction l as [|x l IH]; intros st; simpl; [by left|].
  intros Hp. apply IH in Hp as [Hp|(y & Hy & ?)].
  - destruct (dseInstr_erased M st x) as [Heq|(Heq & Hk & Hm)]; rewrite Heq in Hp.
    + by left.
    + apply elem_of_union in Hp as [->%elem_of_singleton|Hp]; [|by left].
      right. exists x. split_and!; [by left | done..].
  - right. exists y. split; [by right | done].
Qed.

Lemma eraseInstructions_weights M (E : gset Value) :
  getWeights (eraseInstructions M E) = getWeights M.
Proof. unfold eraseInstructions. apply eraseAll_pointers. Qed.

(** X1: dead-store elimination returns for every module but one with
    weights and no instruction, for which the last instruction it takes
    as the fake last read of the weights does not exist. *)
Theorem eliminateDeadStores_defined (M : Module) :
  (getInstrs M = [] ∧ getWeights M ≠ [] →
   eliminateDeadStores M = Undefined "*std::prev(instrs.end()) of an empty stream")
  ∧ (getInstrs M ≠ [] ∨ getWeights M = [] → ∃ M', eliminateDeadStores M = Ok M').
Proof.
  split.
  - intros [Hi Hw]. destruct M as [l ws]. simpl in *. subst l.
    destruct ws as [|W ws]; [done|]. done.
  - intros Hor. unfold eliminateDeadStores.
    destruct (getInstrs M) as [|x l _] eqn:Hl using rev_ind.
    + destruct Hor as [?|Hw]; [done|]. unfold seedWeights. rewrite Hw. simpl. by eauto.
    + destruct (seedWeights_defined M x l Hl) as [ms ->]. simpl. by eauto.
Qed.

(** X2: dead-store elimination only erases instructions, keeps the
    others in their order and keeps the weights; it never erases an
    AllocActivation, a DeallocActivation or a TensorView, nor an
    instruction that mutates none of its operands. *)
Theorem eliminateDeadStores_keeps (M M' : Module) :
  NoDup (iid <$> getInstrs M) →
  eliminateDeadStores M = Ok M' →
  getWeights M' = getWeights M
  ∧ getInstrs M' `sublist_of` getInstrs M
  ∧ ∀ ins, ins ∈ getInstrs M →
           isMemoryOp ins = true ∨ ¬ mutatesOperand ins →
           ins ∈ getInstrs M'.
Proof.
  intros Hnd H. unfold eliminateDeadStores in H.
  apply bind_Ok in H as (ms & _ & [= <-]).
  rewrite eraseInstructions_weights, eraseInstructions_instrs.
  split_and!; [done | apply sublist_filter |].
  intros ins Hin Hkeep. apply list_elem_of_filter. split; [|done].
  intros Hp. apply dseWalk_erased in Hp as [Hp|(x & Hx & Hself & Hk & Hm)].
  - by apply not_elem_of_empty in Hp.
  - rewrite elem_of_reverse in Hx.
    assert (x = ins) as ->.
    { apply (NoDup_iid_inj (getInstrs M)); [done..|]. by apply self_inj. }
    destruct Hkeep as [Hk'|Hm']; [congruence | done].
Qed.

(** X3: the last store into a weight is never eliminated: an
    instruction that mutates an operand whose origin is a WeightVar of
    the module, with no instruction after it that mutates that weight,
    stays in the stream. *)
Theorem eliminateDeadStores_keeps_last_weight_store (M M' : Module)
    (pre post : list Instruction) (ins : Instruction) (W : WeightVar) :
  NoDup (iid <$> getInstrs M) →
  eliminateDeadStores M = Ok M' →
  getInstrs M = pre ++ ins :: post →
  W ∈ getWeights M →
  Exists (λ op : Operand, op.2 ≠ OperandKind.In ∧ getOrigin M op.1 = wself W)
    (getOperands ins) →
  Forall (λ y, isMemoryOp y = true
               ∨ Forall (λ op : Operand,
                           op.2 = OperandKind.In ∨ getOrigin M op.1 ≠ wself W)
                   (getOperands y)) post →
  ins ∈ getInstrs M'.
Proof.
  intros Hnd H Hl HW Hstore Hpost. unfold eliminateDeadStores in H.
  apply bind_Ok in H as (ms & Hseed & [= <-]).
  rewrite eraseInstructions_instrs. apply list_elem_of_filter.
  split; [|rewrite Hl; apply elem_of_app; right; by left].
  rewrite Hl, reverse_app, reverse_cons, <- app_assoc, foldl_app. simpl.
  destruct (NoDup_iid_split _ pre ins post Hnd Hl) as [Hpre Hpost'].
  set (st := foldl (dseInstr M) (ms, ∅) (reverse post)).
  (* the walk over the instructions after [ins] *)
  assert (lastSeenRead_ (stateOf st.1 (wself W)) ≠ None) as Hread.
  { subst st. apply Forall_reverse in Hpost.
    pose proof (seedWeights_read M ms W Hseed HW) as Hread0.
    change ms with ((ms, (∅ : gset Value)).1) in Hread0.
    revert Hread0. generalize (ms, (∅ : gset Value)).
    induction Hpost as [|y ys Hy _ IH]; intros st0 Hread0; [done|].
    simpl. apply IH. unfold dseInstr. fold (isMemoryOp y).
    destruct Hy as [->|Hy]; [done|].
    destruct (isMemoryOp y); [done|].
    destruct (_ && _); simpl.
    - by apply dseWrite_keeps_read.
    - by apply dseRead_keeps_read, dseWrite_keeps_read. }
  assert (self ins ∉ st.2) as Hst.
  { intros Hp. apply dseWalk_erased in Hp as [Hp|(x & Hx & Hself & _)].
    - by apply not_elem_of_empty in Hp.
    - rewrite elem_of_reverse in Hx. by apply (Hpost' x). }
  (* the instruction itself *)
  assert ((dseInstr M st ins).2 = st.2) as Hins.
  { unfold dseInstr. destruct (isDealloc ins || isAlloc ins || isTensorView ins); [done|].
    destruct (dseWrite_counts M ins (wself W) (getOperands ins) st.1 0 0 (le_n 0))
      as [_ Hlt].
    rewrite (proj2 (andb_false_iff _ _)); [done|]. right.
    apply Nat.eqb_neq. specialize (Hlt (or_intror (conj Hread Hstore))). lia. }
  (* the walk over the instructions before it *)
  intros Hp. apply dseWalk_erased in Hp as [Hp|(x & Hx & Hself & _)].
  - rewrite Hins in Hp. done.
  - rewrite elem_of_reverse in Hx. by apply (Hpre x).
Qed.

(** A location that is not a weight starts without a last read. *)
Lemma seedWeights_unread M ms o :
  seedWeights M = Ok ms → (∀ W, W ∈ getWeights M → o ≠ wself W) →
  lastSeenRead_ (stateOf ms o) = None.
Proof.
  unfold seedWeights.
  assert (lastSeenRead_ (stateOf (∅ : gmap Value MemoryLocationState) o) = None)
    as H0 by done.
  revert H0. generalize (∅ : gmap Value MemoryLocationState).
  induction (getWeights M) as [|W ws IH]; intros ms0 H0; simpl.
  - by intros [= <-] _.
  - destruct (last (getInstrs M)) as [li|]; [|done]. simpl.
    intros Hf Hne. eapply IH; [|exact Hf|intros W' HW'; apply Hne; by right].
    unfold stateOf. rewrite lookup_insert_ne; [done|].
    intros Heq. apply (Hne W); [by left | done].
Qed.

Lemma dseWrite_keeps_unread M ins o ops ms m nr :
  lastSeenRead_ (stateOf ms o) = None →
  lastSeenRead_ (stateOf (foldl (dseWrite M ins) (ms, m, nr) ops).1.1 o) = None.
Proof.
  revert ms m nr. induction ops as [|op ops IH]; intros ms m nr Ho; [done|].
  simpl. unfold dseWrite at 2. simpl.
  destruct (decide (op.2 ≠ OperandKind.In)); [|by apply IH].
  apply IH. unfold stateOf.
  destruct (decide (getOrigin M op.1 = o)) as [->|Hne].
  - by rewrite lookup_insert_eq.
  - by rewrite lookup_insert_ne.
Qed.

Lemma dseRead_keeps_unread M ins o ops ms :
  lastSeenRead_ (stateOf ms o) = None →
  Forall (λ op : Operand, getOrigin M op.1 = o → op.2 = OperandKind.Out) ops →
  lastSeenRead_ (stateOf (foldl (dseRead M ins) ms ops) o) = None.
Proof.
  revert ms. induction ops as [|op ops IH]; intros ms Ho Hall; [done|].
  apply Forall_cons in Hall as [Hop Hall]. simpl. apply IH; [|done].
  unfold dseRead. destruct (decide (op.2 ≠ OperandKind.Out)) as [Hk|]; [|done].
  unfold stateOf. rewrite lookup_insert_ne; [done|].
  intros Heq. by apply Hk, Hop.
Qed.

Lemma dseWalk_keeps_unread M o l st :
  lastSeenRead_ (stateOf st.1 o) = None →
  Forall (λ y, isMemoryOp y = true
               ∨ Forall (λ op : Operand, getOrigin M op.1 = o → op.2 = OperandKind.Out)
                   (getOperands y)) l →
  lastSeenRead_ (stateOf (foldl (dseInstr M) st l).1 o) = None.
Proof.
  intros Ho Hall. revert st Ho.
  induction Hall as [|y ys Hy _ IH]; intros st Ho; [done|].
  simpl. apply IH. unfold dseInstr. fold (isMemoryOp y).
  destruct (isMemoryOp y); [done|]. destruct Hy as [?|Hy]; [done|].
  destruct (_ && _); simpl.
  - by apply dseWrite_keeps_unread.
  - by apply dseRead_keeps_unread; [apply dseWrite_keeps_unread|].
Qed.

(** When none of the written locations has a last read, every mutated
    operand is counted as not read. *)
Lemma dseWrite_all_unread M ins ops ms m :
  Forall (λ op : Operand, op.2 ≠ OperandKind.In →
                          lastSeenRead_ (stateOf ms (getOrigin M op.1)) = None) ops →
  (foldl (dseWrite M ins) (ms, m, m) ops).2
  = (foldl (dseWrite M ins) (ms, m, m) ops).1.2.
Proof.
  revert ms m. induction ops as [|op ops IH]; intros ms m Hall; [done|].
  apply Forall_cons in Hall as [Hop Hall]. simpl. unfold dseWrite at 2 4. simpl.
  destruct (decide (op.2 ≠ OperandKind.In)) as [Hk|]; [|by apply IH].
  rewrite (Hop Hk). apply IH.
  eapply Forall_impl; [exact Hall|]. intros op' Hop' Hk'. simpl in *.
  unfold stateOf.
  destruct (decide (getOrigin M op.1 = getOrigin M op'.1)) as [->|Hne].
  - by rewrite lookup_insert_eq.
  - rewrite lookup_insert_ne; [by apply Hop' | done].
Qed.

Lemma dseWalk_mono M l st p :
  p ∈ st.2 → p ∈ (foldl (dseInstr M) st l).2.
Proof.
  revert st. induction l as [|x l IH]; intros st Hp; [done|].
  simpl. apply IH.
  destruct (dseInstr_erased M st x) as [->|[-> _]]; [done|].
  apply elem_of_union. by right.
Qed.

(** X4: a dead store is eliminated: an instruction that is no
    allocation, deallocation or view and mutates an operand goes away
    when none of the locations it mutates is a weight or is read by an
    instruction after it. *)
Theorem eliminateDeadStores_erases_dead_store (M M' : Module)
    (pre post : list Instruction) (ins : Instruction) :
  eliminateDeadStores M = Ok M' →
  getInstrs M = pre ++ ins :: post →
  isMemoryOp ins = false →
  mutatesOperand ins →
  Forall (λ op : Operand,
            op.2 ≠ OperandKind.In →
            (∀ W, W ∈ getWeights M → getOrigin M op.1 ≠ wself W)
            ∧ Forall (λ y, isMemoryOp y = true
                           ∨ Forall (λ op' : Operand,
                                       getOrigin M op'.1 = getOrigin M op.1 →
                                       op'.2 = OperandKind.Out)
                               (getOperands y)) post)
    (getOperands ins) →
  ∀ x, x ∈ getInstrs M' → self x ≠ self ins.
Proof.
  intros H Hl Hk Hmut Hdead x Hx Hself. unfold eliminateDeadStores in H.
  apply bind_Ok in H as (ms & Hseed & [= <-]).
  rewrite eraseInstructions_instrs in Hx. apply list_elem_of_filter in Hx as [Hx _].
  apply Hx. rewrite Hself. clear x Hx Hself.
  rewrite Hl, reverse_app, reverse_cons, <- app_assoc, foldl_app. simpl.
  apply dseWalk_mono.
  set (st := foldl (dseInstr M) (ms, ∅) (reverse post)).
  assert (Forall (λ op : Operand, op.2 ≠ OperandKind.In →
                    lastSeenRead_ (stateOf st.1 (getOrigin M op.1)) = None)
            (getOperands ins)) as Hunread.
  { eapply Forall_impl; [exact Hdead|]. intros op Hop Hkind. simpl in *.
    destruct (Hop Hkind) as [Hw Hpost]. subst st.
    apply dseWalk_keeps_unread.
    - by apply (seedWeights_unread M).
    - by apply Forall_reverse. }
  unfold dseInstr. fold (isMemoryOp ins). rewrite Hk.
  rewrite (dseWrite_all_unread M ins _ st.1 0 Hunread), Nat.eqb_refl, andb_true_r.
  rewrite dseWrite_mutated. simpl.
  unfold mutatesOperand in Hmut. apply Exists_exists in Hmut as (op & Hin & Hop).
  assert (op ∈ filter (λ op : Operand, op.2 ≠ OperandKind.In) (getOperands ins)) as Hf
    by (by apply list_elem_of_filter).
  destruct (filter _ (getOperands ins)) as [|? ?]; [by apply elem_of_nil in Hf|].
  simpl. apply elem_of_union. left. by apply elem_of_singleton.
Qed.
End DeadStores.

(** In [selfMax] nothing reads the buffer after the two stores, which
    are erased; the allocation and its dealloc stay. *)
Lemma eliminateDeadStores_keeps_witness :
  NoDup (iid <$> getInstrs Samples.selfMax)
  ∧ eliminateDeadStores Samples.selfMax
    = Ok (mkModule [Samples.alloc 1 7; Samples.dealloc 4 1] [])
  ∧ Samples.alloc 1 7 ∈ [Samples.alloc 1 7; Samples.dealloc 4 1].
Proof.
  assert (NoDup (iid <$> getInstrs Samples.selfMax)) as Hnd.
  { apply (bool_decide_unpack _). by vm_compute. }
  assert (eliminateDeadStores Samples.selfMax
          = Ok (mkModule [Samples.alloc 1 7; Samples.dealloc 4 1] [])) as Hrun
    by (by vm_compute).
  split_and!; [exact Hnd | exact Hrun |].
  destruct (eliminateDeadStores_keeps Samples.selfMax _ Hnd Hrun) as (_ & _ & Hkeep).
  apply (Hkeep (Samples.alloc 1 7)); [by left | by left].
Defined.

(** In [storeToWeight] the copy into the weight is the last store into
    it; only the dealloc of the source buffer follows. *)
Lemma eliminateDeadStores_keeps_last_weight_store_witness :
  eliminateDeadStores Samples.storeToWeight = Ok Samples.storeToWeight
  ∧ Samples.copy 3 (WeightPtr 1) (InstrPtr 1) ∈ getInstrs Samples.storeToWeight.
Proof.
  assert (NoDup (iid <$> getInstrs Samples.storeToWeight)) as Hnd.
  { apply (bool_decide_unpack _). by vm_compute. }
  assert (eliminateDeadStores Samples.storeToWeight = Ok Samples.storeToWeight)
    as Hrun by (by vm_compute).
  split; [exact Hrun|].
  apply (eliminateDeadStores_keeps_last_weight_store Samples.storeToWeight _
           [Samples.alloc 1 7; Samples.splat 2 (InstrPtr 1)] [Samples.dealloc 4 1]
           (Samples.copy 3 (WeightPtr 1) (InstrPtr 1))
           (Samples.weight 1 MutabilityKind.Mutable) Hnd Hrun eq_refl).
  - by left.
  - apply Exists_cons_hd. split; [done | by vm_compute].
  - apply Forall_cons. split; [by left | apply Forall_nil_2].
Defined.

(** In [selfMax] the element max writes a buffer that only the dealloc
    mentions afterwards. *)
Lemma eliminateDeadStores_erases_dead_store_witness :
  eliminateDeadStores Samples.selfMax
    = Ok (mkModule [Samples.alloc 1 7; Samples.dealloc 4 1] [])
  ∧ ∀ x, x ∈ [Samples.alloc 1 7; Samples.dealloc 4 1] → self x ≠ InstrPtr 3.
Proof.
  assert (eliminateDeadStores Samples.selfMax
          = Ok (mkModule [Samples.alloc 1 7; Samples.dealloc 4 1] [])) as Hrun
    by (by vm_compute).
  split; [exact Hrun|].
  apply (eliminateDeadStores_erases_dead_store Samples.selfMax _
           [Samples.alloc 1 7; Samples.splat 2 (InstrPtr 1)] [Samples.dealloc 4 1]
           (Samples.elementmax 3 (InstrPtr 1) (InstrPtr 1) (InstrPtr 1))
           Hrun eq_refl eq_refl).
  - apply Exists_cons_hd. done.
  - repeat apply Forall_cons_2; try apply Forall_nil_2; try done.
    intros _. split; [intros W HW; by apply elem_of_nil in HW|].
    apply Forall_cons_2; [by left | apply Forall_nil_2].
Defined.

(** ** Use lists and constant weights *)

Section Uses.

Lemma elem_of_getUsers M v (U : Instruction * OperandKind.t) :
  U ∈ getUsers M v ↔ U.1 ∈ getInstrs M ∧ (v, U.2) ∈ getOperands U.1.
Proof.
  unfold getUsers, usesIn. rewrite list_elem_of_bind. split.
  - intros (ins & HU & Hins). apply list_elem_of_fmap in HU as (op & -> & Hop).
    apply list_elem_of_filter in Hop as [Hv Hop]. simpl. split; [done|].
    destruct op as [v' k]; simpl in *. by subst.
  - intros [Hins Hop]. exists U.1. split; [|done]. apply list_elem_of_fmap.
    exists (v, U.2). split; [by destruct U|]. by apply list_elem_of_filter.
Qed.

Lemma getUsers_instrs M M' v :
  getInstrs M = getInstrs M' → getUsers M v = getUsers M' v.
Proof. unfold getUsers. by intros ->. Qed.

Lemma readOnly_spec M v :
  forallb (λ U : Instruction * OperandKind.t, bool_decide (U.2 = OperandKind.In))
    (getUsers M v) = true
  ↔ ∀ ins op, ins ∈ getInstrs M → op ∈ getOperands ins → op.1 = v →
              op.2 = OperandKind.In.
Proof.
  rewrite forallb_forall. split.
  - intros H ins [v' k] Hins Hop Hv. simpl in *. subst v'.
    assert (In (ins, k) (getUsers M v)) as HU
      by (by apply list_elem_of_In, elem_of_getUsers).
    apply H in HU. by apply bool_decide_eq_true in HU.
  - intros H U HU%list_elem_of_In%elem_of_getUsers. apply bool_decide_eq_true.
    destruct HU as [Hins Hop]. by apply (H _ _ Hins Hop).
Qed.

Lemma makeWeightsConst_weight M W' :
  W' ∈ getWeights (makeWeightsConst M) →
  getMutability W' = MutabilityKind.Constant
  ↔ ∀ ins op, ins ∈ getInstrs M → op ∈ getOperands ins → op.1 = wself W' →
              op.2 = OperandKind.In.
Proof.
  unfold makeWeightsConst. simpl. intros (W & -> & _)%list_elem_of_fmap.
  destruct (forallb _ (getUsers M (wself W))) eqn:Hr; simpl.
  - split; [|done]. intros _. by apply readOnly_spec.
  - split; [done|]. intros Hall%readOnly_spec.
    unfold wself in Hall. simpl in Hall. unfold wself in Hr. congruence.
Qed.

Lemma makeWeightsConst_weightId M :
  weightId <$> getWeights (makeWeightsConst M) = weightId <$> getWeights M.
Proof.
  unfold makeWeightsConst. simpl. rewrite <- list_fmap_compose.
  apply list_fmap_ext. intros i W _. simpl. by destruct (forallb _ _).
Qed.

(** X5: making the weights constant changes no instruction and leaves
    the weights in place with their address, name and type; a weight
    comes out Constant exactly when every operand that references it is
    an In operand, and Mutable otherwise, whatever it was before; in the
    result a Constant weight appears in In operands only; a second run
    changes nothing. *)
Theorem makeWeightsConst_spec (M : Module) :
  getInstrs (makeWeightsConst M) = getInstrs M
  ∧ weightId <$> getWeights (makeWeightsConst M) = weightId <$> getWeights M
  ∧ (∀ W', W' ∈ getWeights (makeWeightsConst M) →
       getMutability W' = MutabilityKind.Constant
       ↔ ∀ ins op, ins ∈ getInstrs M → op ∈ getOperands ins → op.1 = wself W' →
                   op.2 = OperandKind.In)
  ∧ (∀ ins op, ins ∈ getInstrs M → op ∈ getOperands ins →
       mutabilityOf (makeWeightsConst M) op.1 = MutabilityKind.Constant →
       op.2 = OperandKind.In)
  ∧ makeWeightsConst (makeWeightsConst M) = makeWeightsConst M.
Proof.
  split_and!.
  - done.
  - apply makeWeightsConst_weightId.
  - apply makeWeightsConst_weight.
  - intros ins op Hins Hop Hc. unfold mutabilityOf, getWeight in Hc.
    destruct op as [[n|n] k]; simpl in *; [|done].
    destruct (find _ _) as [W'|] eqn:Hfind; [|done]. simpl in Hc.
    apply find_some in Hfind as [HW' Hid]. apply list_elem_of_In in HW'.
    apply bool_decide_eq_true in Hid.
    apply (proj1 (makeWeightsConst_weight M W' HW') Hc ins (WeightPtr n, k) Hins Hop).
    simpl. unfold wself. by rewrite Hid.
  - unfold makeWeightsConst. cbn [getInstrs getWeights]. f_equal.
    rewrite <- list_fmap_compose. apply list_fmap_ext. intros i W _. simpl.
    assert (∀ m, wself (setMutability W m) = wself W) as Hself by done.
    by destruct (forallb _ (getUsers M (wself W))) eqn:Hr;
      cbv iota; rewrite Hself, (getUsers_instrs _ M) by done; rewrite Hr.
Qed.
End Uses.

(** ** Replacing the users of a value, the single writer *)

Section Replace.
Variable NDEBUG : bool.

Lemma replaceAllNonDeallocUsersWith_Ok M val with_ M' :
  replaceAllNonDeallocUsersWith NDEBUG M val with_ = Ok M' →
  M' = setInstrs M
         ((λ ins, if isDealloc ins then ins else replaceUses val with_ ins)
            <$> getInstrs M).
Proof.
  unfold replaceAllNonDeallocUsersWith. intros H.
  apply bind_Ok in H as ([] & _ & H). by injection H as <-.
Qed.

Lemma replaceUses_skeleton val with_ ins :
  skeleton (replaceUses val with_ ins) = skeleton ins.
Proof.
  unfold skeleton, replaceUses. simpl. f_equal.
  rewrite <- list_fmap_compose. apply list_fmap_ext. intros i op _. simpl.
  unfold replaceOperand. by destruct (decide (op.1 = val)).
Qed.

Lemma replaceAllNonDeallocUsersWith_skeleton M val with_ M' :
  replaceAllNonDeallocUsersWith NDEBUG M val with_ = Ok M' →
  skeleton <$> getInstrs M' = skeleton <$> getInstrs M.
Proof.
  intros ->%replaceAllNonDeallocUsersWith_Ok. simpl.
  rewrite <- list_fmap_compose. apply list_fmap_ext. intros i ins _. simpl.
  destruct (isDealloc ins); [done|]. apply replaceUses_skeleton.
Qed.

(** X6: replacing the non-dealloc users of [val] by [with] aborts when
    the two are the same value and assertions are compiled in.  When it
    returns, every instruction keeps its place, address, kind, name,
    type and operand kinds, deallocs are untouched, in every other
    instruction each operand slot that held [val] holds [with] and the
    other slots are unchanged; so, when the two values differ, only
    deallocs use [val] afterwards. *)
Theorem replaceAllNonDeallocUsersWith_spec (M : Module) (val with_ : Value) :
  (NDEBUG = false → val = with_ →
   replaceAllNonDeallocUsersWith NDEBUG M val with_ = Abort "Replacing value with self")
  ∧ (NDEBUG = true ∨ val ≠ with_ →
     ∃ M', replaceAllNonDeallocUsersWith NDEBUG M val with_ = Ok M')
  ∧ ∀ M', replaceAllNonDeallocUsersWith NDEBUG M val with_ = Ok M' →
      getWeights M' = getWeights M
      ∧ skeleton <$> getInstrs M' = skeleton <$> getInstrs M
      ∧ (∀ i ins, getInstrs M !! i = Some ins → isDealloc ins = true →
                  getInstrs M' !! i = Some ins)
      ∧ (∀ i ins, getInstrs M !! i = Some ins → isDealloc ins = false →
           ∃ ins', getInstrs M' !! i = Some ins'
                   ∧ ∀ k op, getOperands ins !! k = Some op →
                             getOperands ins' !! k
                             = Some (if decide (op.1 = val) then (with_, op.2) else op))
      ∧ (val ≠ with_ → ∀ U, U ∈ getUsers M' val → isDealloc U.1 = true).
Proof.
  split_and!.
  - intros -> ->. unfold replaceAllNonDeallocUsersWith, assert.
    by rewrite bool_decide_false by (by intros ?).
  - intros Hor. unfold replaceAllNonDeallocUsersWith, assert.
    destruct Hor as [->|Hne]; [by eauto|].
    rewrite bool_decide_true, orb_true_r by done. by eauto.
  - intros M' H. split_and!.
    + by apply replaceAllNonDeallocUsersWith_Ok in H as ->.
    + by apply replaceAllNonDeallocUsersWith_skeleton in H.
    + apply replaceAllNonDeallocUsersWith_Ok in H as ->. intros i ins Hi Hd. simpl.
      by rewrite list_lookup_fmap, Hi; simpl; rewrite Hd.
    + apply replaceAllNonDeallocUsersWith_Ok in H as ->. intros i ins Hi Hd. simpl.
      exists (replaceUses val with_ ins). split.
      * by rewrite list_lookup_fmap, Hi; simpl; rewrite Hd.
      * intros k op Hk. unfold replaceUses. simpl.
        by rewrite list_lookup_fmap, Hk.
    + apply replaceAllNonDeallocUsersWith_Ok in H as ->. intros Hne U HU.
      apply elem_of_getUsers in HU as [HU Hop]. simpl in HU.
      apply list_elem_of_fmap in HU as (ins & HU & _).
      destruct (isDealloc ins) eqn:Hd; [by rewrite HU|].
      rewrite HU in Hop. unfold replaceUses in Hop. simpl in Hop.
      apply list_elem_of_fmap in Hop as (op & Hop & _).
      unfold replaceOperand in Hop.
      destruct (decide (op.1 = val)) as [Heq|Hne']; [by injection Hop as -> _|].
      destruct op as [v k]. simpl in *. by injection Hop as -> _.
Qed.

(** X7: the instruction [getSingleWriter] returns is in the stream, is
    no dealloc, mutates the value through one of its operands, and is
    the only instruction that does. *)
Theorem getSingleWriter_sound (M : Module) (V : Value) (ins : Instruction) :
  getSingleWriter M V = Some ins →
  ins ∈ getInstrs M
  ∧ isDealloc ins = false
  ∧ (∃ k, (V, k) ∈ getOperands ins ∧ k ≠ OperandKind.In)
  ∧ ∀ user k, user ∈ getInstrs M → isDealloc user = false →
              (V, k) ∈ getOperands user → k ≠ OperandKind.In → user = ins.
Proof.
  unfold getSingleWriter.
  destruct (filter _ (getUsers M V)) as [|U [|? ?]] eqn:Hf; [done| |done].
  intros [= <-].
  assert (∀ U', U' ∈ filter (λ U, isWriterUse U = true) (getUsers M V) ↔ U' = U)
    as Hone.
  { intros U'. rewrite Hf. apply list_elem_of_singleton. }
  assert (∀ U', U' = U ↔
                (isDealloc U'.1 = false ∧ U'.2 ≠ OperandKind.In)
                ∧ U'.1 ∈ getInstrs M ∧ (V, U'.2) ∈ getOperands U'.1) as Huse.
  { intros U'. rewrite <- Hone, list_elem_of_filter, elem_of_getUsers.
    unfold isWriterUse. rewrite andb_true_iff, negb_true_iff, bool_decide_eq_true.
    done. }
  destruct (proj1 (Huse U) eq_refl) as ((Hd & Hk) & Hin & Hop).
  split_and!; [done | done | by exists U.2 |].
  intros user k Huser Hdu Hopu Hku.
  by rewrite <- (proj2 (Huse (user, k)) ltac:(done)).
Qed.
End Replace.

(** In [storeToWeight] the splat is the single writer of the buffer; its
    dealloc, which has it as an Out operand, does not count. *)
Lemma getSingleWriter_sound_witness :
  getSingleWriter Samples.storeToWeight (InstrPtr 1)
    = Some (Samples.splat 2 (InstrPtr 1))
  ∧ Samples.splat 2 (InstrPtr 1) ∈ getInstrs Samples.storeToWeight.
Proof.
  assert (getSingleWriter Samples.storeToWeight (InstrPtr 1)
          = Some (Samples.splat 2 (InstrPtr 1))) as H by (by vm_compute).
  split; [exact H|].
  exact (proj1 (getSingleWriter_sound Samples.storeToWeight (InstrPtr 1) _ H)).
Defined.

(** ** The one-shot event *)

Section EventSignal.

Lemma signals_fired n e :
  Event.fired_ e = true →
  Event.signals n e = (repeat false n, e).
Proof.
  intros He. induction n as [|n IH]; [done|].
  cbn [Event.signals]. unfold Event.signal. rewrite He. cbn [fst snd].
  by rewrite IH.
Qed.

(** X8: of any number of calls of [Event::signal] on an event, the
    first call on the event not yet fired is the only one that returns
    true; after a call the event has fired, so that [wait] returns, and
    it never goes back to not fired. *)
Theorem signal_once (n : nat) (e : Event.t) :
  (Event.signals (S n) e).1 = negb (Event.fired_ e) :: repeat false n
  ∧ Event.waitDone (Event.signals (S n) e).2 = true
  ∧ (Event.fired_ e = true → (Event.signals n e).2 = e).
Proof.
  split_and!.
  - simpl. rewrite (signals_fired n (Event.signal e).2).
    + unfold Event.signal. by destruct (Event.fired_ e).
    + unfold Event.signal. by destruct (Event.fired_ e) eqn:He.
  - simpl. rewrite (signals_fired n (Event.signal e).2).
    + unfold Event.signal, Event.waitDone. by destruct (Event.fired_ e) eqn:He.
    + unfold Event.signal. by destruct (Event.fired_ e) eqn:He.
  - intros He. by rewrite signals_fired.
Qed.
End EventSignal.

(** ** The weights through the pipeline *)

Section Weights.
Variable NDEBUG : bool.
Variable verify : Module → bool.
Variable isInplaceOp : Kind.t → nat → nat → bool.
Variable instrumentDebug : bool.
Variable optimizeIR : bool.

Lemma peepholeStep_weights M cur it st :
  peepholeStep NDEBUG M cur it = Ok st → getWeights st.1 = getWeights M.
Proof.
  unfold peepholeStep.
  repeat (case_match; simpl; try done);
    intros Hres; try (by injection Hres as <-).
  apply bind_Ok in Hres as (M' & HM' & [= <-]). simpl.
  by apply replaceAllNonDeallocUsersWith_weights in HM'.
Qed.

Lemma peepholeLoop_weights fuel M it M' :
  peepholeLoop NDEBUG fuel M it = Ok M' → getWeights M' = getWeights M.
Proof.
  revert M it. induction fuel as [|fuel IH]; intros M it; simpl.
  - destruct it; [done|]. by intros [= <-].
  - destruct it as [p|]; [|by intros [= <-]].
    destruct (getInstr M p) as [cur|]; [|done].
    intros H. apply bind_Ok in H as (st & Hstep & H).
    rewrite (IH _ _ H). by apply peepholeStep_weights in Hstep.
Qed.

Lemma shareLoop_weights n s s' :
  shareLoop NDEBUG isInplaceOp n s = Ok s' →
  getWeights (shareModule s') = getWeights (shareModule s).
Proof.
  revert s. induction n as [|n IH]; intros s; simpl.
  - by intros [= <-].
  - intros H. apply bind_Ok in H as (s1 & Hstep & H).
    rewrite (IH _ H). by apply shareStep_weights in Hstep as [-> _].
Qed.

Lemma eraseAll_weights M l : getWeights (eraseAll M l) = getWeights M.
Proof.
  unfold eraseAll. revert M. induction l as [|x l IH]; intros M; [done|].
  simpl. by rewrite IH.
Qed.

Lemma deleteDeadAllocs_weights M :
  getWeights (deleteDeadAllocs M) = getWeights M.
Proof. unfold deleteDeadAllocs, sweep. by rewrite !eraseAll_weights. Qed.

Lemma copyStep_weights IntervalsMap st i st' :
  copyStep NDEBUG IntervalsMap st i = Ok st' →
  getWeights st'.1 = getWeights st.1.
Proof.
  unfold copyStep, propagateFromWeight, propagateInInterval.
  repeat (case_match; simpl; try done);
    intros Hres; repeat (apply bind_Ok in Hres as (? & ? & Hres));
    injection Hres as <-; simpl; try done;
    eauto using replaceAllNonDeallocUsersWith_weights.
Qed.

Lemma copyLoop_weights IntervalsMap l st st' :
  foldM (copyStep NDEBUG IntervalsMap) st l = Ok st' →
  getWeights st'.1 = getWeights st.1.
Proof.
  revert st. induction l as [|i l IH]; intros st; simpl.
  - by intros [= <-].
  - intros H. apply bind_Ok in H as (st1 & Hstep & H).
    rewrite (IH _ H). by apply copyStep_weights in Hstep.
Qed.

Lemma copyPropagation_weights M M' :
  copyPropagation NDEBUG M = Ok M' → getWeights M' = getWeights M.
Proof.
  unfold copyPropagation. intros H.
  apply bind_Ok in H as (IntervalsMap & _ & H).
  apply bind_Ok in H as (st & Hloop & [= <-]).
  rewrite eraseInstructions_weights. by apply copyLoop_weights in Hloop.
Qed.

Lemma hoistDealloc_weights M M' :
  hoistDealloc NDEBUG M = Ok M' → getWeights M' = getWeights M.
Proof.
  unfold hoistDealloc. intros H. by apply bind_Ok in H as (l & _ & [= <-]).
Qed.

Lemma sinkAllocas_weights M M' :
  sinkAllocas NDEBUG M = Ok M' → getWeights M' = getWeights M.
Proof.
  unfold sinkAllocas. intros H. by apply bind_Ok in H as ([] & _ & [= <-]).
Qed.

Lemma shareBuffers_weights M M' :
  shareBuffers NDEBUG isInplaceOp M = Ok M' → getWeights M' = getWeights M.
Proof.
  unfold shareBuffers. intros H. apply bind_Ok in H as (s & Hs & [= <-]).
  by apply shareLoop_weights in Hs.
Qed.

Lemma eliminateDeadStores_weights M M' :
  eliminateDeadStores M = Ok M' → getWeights M' = getWeights M.
Proof.
  unfold eliminateDeadStores. intros H.
  apply bind_Ok in H as (ms & _ & [= <-]). apply eraseInstructions_weights.
Qed.

Lemma performDebugInstrumentation_weights M :
  getWeights (performDebugInstrumentation instrumentDebug M) = getWeights M.
Proof. unfold performDebugInstrumentation. by destruct instrumentDebug. Qed.

(** X9: when [optimize] returns, the module has the same weights in the
    same order, each with its address, name and type: the optimizer
    changes nothing of a weight but its mutability.  When assertions are
    compiled in, the module it was given and the module it returns have
    both passed [Module::verify]. *)
Theorem optimize_weights (M M' : Module) (mode : CompilationMode) :
  optimize NDEBUG verify isInplaceOp instrumentDebug optimizeIR M mode = Ok M' →
  weightId <$> getWeights M' = weightId <$> getWeights M
  ∧ (NDEBUG = false → verify M = true ∧ verify M' = true).
Proof.
  unfold optimize. intros H. apply bind_Ok in H as ([] & Hv & H).
  apply assert_Ok in Hv.
  destruct optimizeIR; cbn [negb] in H.
  - apply bind_Ok in H as (M1 & H1 & H). apply bind_Ok in H as (M2 & H2 & H).
    apply bind_Ok in H as (M4 & H4 & H). apply bind_Ok in H as (M5 & H5 & H).
    apply bind_Ok in H as (M7 & H7 & H). apply bind_Ok in H as (M8 & H8 & H).
    apply bind_Ok in H as (M10 & H10 & H).
    apply bind_Ok in H as ([] & Hv' & [= <-]). apply assert_Ok in Hv'.
    split.
    + rewrite performDebugInstrumentation_weights, deleteDeadAllocs_weights.
      rewrite (eliminateDeadStores_weights _ _ H10), deleteDeadAllocs_weights.
      rewrite (peepholeLoop_weights _ _ _ _ H8), (copyPropagation_weights _ _ H7).
      rewrite makeWeightsConst_weightId.
      rewrite (sinkAllocas_weights _ _ H5), (hoistDealloc_weights _ _ H4).
      rewrite deleteDeadAllocs_weights, (shareBuffers_weights _ _ H2).
      by rewrite (peepholeLoop_weights _ _ _ _ H1).
    + intros ->. by simpl in Hv, Hv'.
  - injection H as <-. split; [done|]. intros ->. by simpl in Hv.
Qed.
End Weights.

(** [storeToWeight] goes through the optimizer with its weight. *)
Lemma optimize_weights_witness :
  optimize false verifyInvariants inplaceTable false true Samples.storeToWeight Train
    = Ok (mkModule [Samples.splat 2 (WeightPtr 1)]
            [Samples.weight 1 MutabilityKind.Mutable])
  ∧ weightId <$> [Samples.weight 1 MutabilityKind.Mutable]
    = weightId <$> getWeights Samples.storeToWeight.
Proof.
  assert (optimize false verifyInvariants inplaceTable false true
            Samples.storeToWeight Train
          = Ok (mkModule [Samples.splat 2 (WeightPtr 1)]
                  [Samples.weight 1 MutabilityKind.Mutable])) as H
    by (by vm_compute).
  split; [exact H|].
  exact (proj1 (optimize_weights false verifyInvariants inplaceTable false true
                  Samples.storeToWeight _ Train H)).
Defined.

(** ** Sinking the allocations *)

Section SinkAllocas.
Variable NDEBUG : bool.

Lemma sinkOperands_acc acc allocs ops :
  foldl (λ (st : list Instruction * list Instruction) (op : Operand),
           match findInstr st.2 op.1 with
           | Some aa => (st.1 ++ [aa], filter (λ a, self a ≠ op.1) st.2)
           | None => st
           end) (acc, allocs) ops
  = (acc ++ (sinkOperands allocs ops).1, (sinkOperands allocs ops).2).
Proof.
  unfold sinkOperands. revert acc allocs.
  induction ops as [|op ops IH]; intros acc allocs.
  - simpl. by rewrite app_nil_r.
  - cbn [foldl fst snd]. destruct (findInstr allocs op.1) as [aa|].
    + rewrite IH, (IH ([] ++ [aa])). simpl. by rewrite <- app_assoc.
    + apply IH.
Qed.

Lemma sinkOperands_cons allocs op ops :
  sinkOperands allocs (op :: ops)
  = match findInstr allocs op.1 with
    | Some aa =>
        (aa :: (sinkOperands (filter (λ a, self a ≠ op.1) allocs) ops).1,
         (sinkOperands (filter (λ a, self a ≠ op.1) allocs) ops).2)
    | None => sinkOperands allocs ops
    end.
Proof.
  unfold sinkOperands at 1. cbn [foldl fst snd].
  destruct (findInstr allocs op.1) as [aa|]; [|done].
  by rewrite sinkOperands_acc.
Qed.

(** The allocations an instruction leaves to place are those none of its
    operands is; those it places are among the others. *)
Lemma sinkOperands_rest allocs ops :
  (sinkOperands allocs ops).2 = filter (λ a, self a ∉ ops.*1) allocs.
Proof.
  revert allocs. induction ops as [|op ops IH]; intros allocs.
  - simpl. symmetry. apply filter_all, Forall_forall. intros a _.
    apply not_elem_of_nil.
  - rewrite sinkOperands_cons. destruct (findInstr allocs op.1) as [aa|] eqn:Hf.
    + simpl. rewrite IH, list_filter_filter. apply list_filter_iff.
      intros a. rewrite not_elem_of_cons. intuition congruence.
    + rewrite IH. apply filter_ext_in. intros a Ha. simpl.
      rewrite not_elem_of_cons. pose proof (findInstr_None _ _ a Hf Ha). tauto.
Qed.

Lemma sinkOperands_placed allocs ops :
  Forall (λ a, a ∈ allocs ∧ self a ∈ ops.*1) (sinkOperands allocs ops).1.
Proof.
  revert allocs. induction ops as [|op ops IH]; intros allocs; [done|].
  rewrite sinkOperands_cons. destruct (findInstr allocs op.1) as [aa|] eqn:Hf.
  - simpl. apply findInstr_Some in Hf as [Hin Hself]. apply Forall_cons. split.
    + split; [done|]. rewrite Hself. by left.
    + eapply Forall_impl; [apply IH|]. intros a [Ha Hop]. simpl in *.
      apply list_elem_of_filter in Ha as [_ Ha]. split; [done | by right].
  - eapply Forall_impl; [apply IH|]. intros a [Ha Hop]. simpl in *.
    split; [done | by right].
Qed.

Lemma NoDup_iid_take l a :
  NoDup (iid <$> l) → a ∈ l →
  l ≡ₚ a :: filter (λ x, self x ≠ self a) l.
Proof.
  induction l as [|y l IH]; intros Hnd Ha; [by apply elem_of_nil in Ha|].
  simpl in Hnd. apply NoDup_cons in Hnd as [Hy Hnd].
  destruct (decide (y = a)) as [->|Hne].
  - rewrite filter_cons_False by (by intros ?). f_equiv.
    symmetry. rewrite filter_all; [done|]. apply Forall_forall.
    intros x Hx Heq%self_inj. apply Hy. rewrite <- Heq.
    by apply list_elem_of_fmap_2.
  - apply elem_of_cons in Ha as [->|Ha]; [done|].
    rewrite filter_cons_True.
    + rewrite (IH Hnd Ha) at 1. apply Permutation_swap.
    + intros Heq%self_inj. apply Hy. rewrite Heq. by apply list_elem_of_fmap_2.
Qed.

Lemma sinkOperands_perm allocs ops :
  NoDup (iid <$> allocs) →
  (sinkOperands allocs ops).1 ++ (sinkOperands allocs ops).2 ≡ₚ allocs.
Proof.
  revert allocs. induction ops as [|op ops IH]; intros allocs Hnd; [done|].
  rewrite sinkOperands_cons. destruct (findInstr allocs op.1) as [aa|] eqn:Hf.
  - simpl. apply findInstr_Some in Hf as [Hin Hself].
    rewrite IH by (by apply NoDup_iid_filter). rewrite <- Hself.
    symmetry. by apply NoDup_iid_take.
  - by apply IH.
Qed.

Lemma sinkLoop_rest allocs l :
  (sinkLoop allocs l).2 = filter (λ a, self a ∉ (l ≫= getOperands).*1) allocs.
Proof.
  revert allocs. induction l as [|x l IH]; intros allocs; simpl.
  - symmetry. apply filter_all, Forall_forall. intros a _. apply not_elem_of_nil.
  - rewrite IH, sinkOperands_rest, list_filter_filter. apply list_filter_iff.
    intros a. rewrite fmap_app, not_elem_of_app. tauto.
Qed.

Lemma sinkLoop_elem allocs l y :
  y ∈ (sinkLoop allocs l).1 → y ∈ l ∨ y ∈ allocs.
Proof.
  revert allocs. induction l as [|x l IH]; intros allocs; simpl.
  - intros H. by apply elem_of_nil in H.
  - rewrite elem_of_app, elem_of_cons. intros [Hp|[->|Hr]].
    + right. pose proof (sinkOperands_placed allocs (getOperands x)) as Hall.
      rewrite Forall_forall in Hall. by apply Hall.
    + left. by left.
    + apply IH in Hr as [?|Hr]; [left; by right|]. right.
      rewrite sinkOperands_rest in Hr. by apply list_elem_of_filter in Hr as [_ ?].
Qed.

Lemma sinkLoop_perm allocs l :
  NoDup (iid <$> allocs) →
  (sinkLoop allocs l).1 ++ (sinkLoop allocs l).2 ≡ₚ l ++ allocs.
Proof.
  revert allocs. induction l as [|x l IH]; intros allocs Hnd; simpl; [done|].
  rewrite <- app_assoc. simpl. rewrite <- Permutation_middle. f_equiv.
  rewrite IH by (rewrite sinkOperands_rest; by apply NoDup_iid_filter).
  rewrite (Permutation_app_comm l), app_assoc, sinkOperands_perm by done.
  apply Permutation_app_comm.
Qed.

Lemma sinkOperands_allocs allocs ops :
  Forall (λ a, isAlloc a = true) allocs →
  Forall (λ a, isAlloc a = true) (sinkOperands allocs ops).1
  ∧ Forall (λ a, isAlloc a = true) (sinkOperands allocs ops).2.
Proof.
  intros Ha. rewrite Forall_forall in Ha. split; apply Forall_forall; intros a Hin.
  - pose proof (sinkOperands_placed allocs ops) as Hall.
    rewrite Forall_forall in Hall. by apply Ha, Hall.
  - rewrite sinkOperands_rest in Hin. apply list_elem_of_filter in Hin as [_ Hin].
    by apply Ha.
Qed.

Lemma filter_none {A} (P : A → Prop) `{∀ x, Decision (P x)} (l : list A) :
  Forall (λ x, ¬ P x) l ↔ filter P l = [].
Proof.
  induction l as [|x l IH]; [done|]. rewrite Forall_cons.
  destruct (decide (P x)).
  - rewrite filter_cons_True by done. split; [tauto | done].
  - rewrite filter_cons_False by done. tauto.
Qed.

Lemma sinkLoop_others allocs l :
  Forall (λ a, isAlloc a = true) allocs →
  Forall (λ x, isAlloc x = false) l →
  filter (λ x, isAlloc x = false) (sinkLoop allocs l).1 = l.
Proof.
  revert allocs. induction l as [|x l IH]; intros allocs Ha Hl; simpl; [done|].
  apply Forall_cons in Hl as [Hx Hl].
  destruct (sinkOperands_allocs allocs (getOperands x) Ha) as [Hp Hr].
  rewrite filter_app, filter_cons_True by done. rewrite IH by done.
  rewrite (proj1 (filter_none _ _)); [done|].
  eapply Forall_impl; [exact Hp|]. simpl. intros a ->. done.
Qed.

(** Where the second loop puts an allocation: in front of the first
    instruction that has it as an operand, with nothing but other
    allocations in between. *)
Lemma sinkLoop_placed allocs l a :
  Forall (λ a, isAlloc a = true) allocs →
  Forall (λ x, isAlloc x = false) l →
  a ∈ (sinkLoop allocs l).1 → isAlloc a = true →
  ∃ A As u C,
    (sinkLoop allocs l).1 = A ++ a :: As ++ u :: C
    ∧ Forall (λ x, isAlloc x = true) As
    ∧ isAlloc u = false
    ∧ references (self a) u
    ∧ ∀ y, y ∈ A → isAlloc y = false → ¬ references (self a) y.
Proof.
  revert allocs. induction l as [|x l IH]; intros allocs Ha Hl Hin Hal; simpl in *.
  - by apply elem_of_nil in Hin.
  - apply Forall_cons in Hl as [Hx Hl].
    destruct (sinkOperands_allocs allocs (getOperands x) Ha) as [Hp Hr].
    apply elem_of_app in Hin as [Hin|Hin].
    + apply list_elem_of_split in Hin as (P1 & P2 & HP).
      exists P1, P2, x, (sinkLoop (sinkOperands allocs (getOperands x)).2 l).1.
      rewrite HP in Hp |- *. apply Forall_app in Hp as [HP1 HP2].
      apply Forall_cons in HP2 as [_ HP2].
      split_and!; [by rewrite <- app_assoc | done | done | |].
      * pose proof (sinkOperands_placed allocs (getOperands x)) as Hall.
        rewrite HP, Forall_app, Forall_cons in Hall. by destruct Hall as (_ & [_ ?] & _).
      * intros y Hy Hny. rewrite Forall_forall in HP1. by rewrite (HP1 y Hy) in Hny.
    + apply elem_of_cons in Hin as [->|Hin]; [congruence|].
      destruct (IH _ Hr Hl Hin Hal) as (A & As & u & C & Heq & HAs & Hu & Href & HA).
      exists ((sinkOperands allocs (getOperands x)).1 ++ x :: A), As, u, C.
      split_and!; [by rewrite Heq, <- app_assoc | done | done | done |].
      intros y Hy Hny. apply elem_of_app in Hy as [Hy|Hy].
      * rewrite Forall_forall in Hp. by rewrite (Hp y Hy) in Hny.
      * apply elem_of_cons in Hy as [->|Hy]; [|by apply HA].
        apply sinkLoop_elem in Hin as [Hin|Hin].
        -- rewrite Forall_forall in Hl. by rewrite (Hl a Hin) in Hal.
        -- rewrite sinkOperands_rest in Hin.
           by apply list_elem_of_filter in Hin as [? _].
Qed.

Lemma filter_isAlloc_perm l :
  filter (λ x, isAlloc x = false) l ++ filter (λ x, isAlloc x = true) l ≡ₚ l.
Proof.
  induction l as [|x l IH]; [done|]. destruct (isAlloc x) eqn:Hx.
  - rewrite filter_cons_False, filter_cons_True by congruence.
    by rewrite <- Permutation_middle, IH.
  - rewrite filter_cons_True, filter_cons_False by congruence.
    simpl. by rewrite IH.
Qed.

(** X10: sinking the allocations keeps the weights and the order of the
    instructions that are no allocations; when it returns with
    assertions compiled in, the stream has the same instructions as
    before; every allocation of the result stands in front of the first
    instruction that has it as an operand, separated from it by other
    allocations only. *)
Theorem sinkAllocas_places (M M' : Module) :
  NoDup (iid <$> getInstrs M) →
  sinkAllocas NDEBUG M = Ok M' →
  getWeights M' = getWeights M
  ∧ filter (λ x, isAlloc x = false) (getInstrs M')
    = filter (λ x, isAlloc x = false) (getInstrs M)
  ∧ (NDEBUG = false → getInstrs M' ≡ₚ getInstrs M)
  ∧ ∀ a, a ∈ getInstrs M' → isAlloc a = true →
      ∃ A As u C,
        getInstrs M' = A ++ a :: As ++ u :: C
        ∧ Forall (λ x, isAlloc x = true) As
        ∧ isAlloc u = false
        ∧ references (self a) u
        ∧ ∀ y, y ∈ A → isAlloc y = false → ¬ references (self a) y.
Proof.
  intros Hnd H. unfold sinkAllocas in H.
  apply bind_Ok in H as ([] & Hassert & [= <-]). simpl.
  assert (Forall (λ a, isAlloc a = true) (filter (λ ins, isAlloc ins = true) (getInstrs M)))
    as Ha by (apply Forall_forall; by intros a [? _]%list_elem_of_filter).
  assert (Forall (λ a, isAlloc a = false) (filter (λ ins, isAlloc ins = false) (getInstrs M)))
    as Hl by (apply Forall_forall; by intros a [? _]%list_elem_of_filter).
  split_and!.
  - done.
  - by apply sinkLoop_others.
  - intros ->. apply assert_Ok in Hassert. simpl in Hassert.
    apply bool_decide_eq_true in Hassert.
    pose proof (sinkLoop_perm (filter (λ ins, isAlloc ins = true) (getInstrs M))
                  (filter (λ ins, isAlloc ins = false) (getInstrs M))
                  (NoDup_iid_filter _ _ Hnd)) as Hperm.
    rewrite Hassert, app_nil_r in Hperm. rewrite Hperm. apply filter_isAlloc_perm.
  - intros a. by apply sinkLoop_placed.
Qed.

(** X11: sinking the allocations returns exactly when every allocation
    is an operand of an instruction that is no allocation, or when
    assertions are compiled out; in that case the allocations that are
    an operand of no such instruction are taken out of the stream and not
    put back. *)
Theorem sinkAllocas_defined (M : Module) :
  NoDup (iid <$> getInstrs M) →
  ((∃ M', sinkAllocas NDEBUG M = Ok M')
   ↔ NDEBUG = true
     ∨ ∀ a, a ∈ getInstrs M → isAlloc a = true →
            ∃ x, x ∈ getInstrs M ∧ isAlloc x = false ∧ references (self a) x)
  ∧ ∀ M' a, sinkAllocas NDEBUG M = Ok M' → isAlloc a = true →
      a ∈ getInstrs M'
      ↔ a ∈ getInstrs M
        ∧ ∃ x, x ∈ getInstrs M ∧ isAlloc x = false ∧ references (self a) x.
Proof.
  intros Hnd.
  set (allocs := filter (λ ins, isAlloc ins = true) (getInstrs M)).
  set (l := filter (λ ins, isAlloc ins = false) (getInstrs M)).
  assert (∀ a, self a ∈ (l ≫= getOperands).*1
               ↔ ∃ x, x ∈ getInstrs M ∧ isAlloc x = false ∧ references (self a) x)
    as Href.
  { intros a. unfold references. rewrite list_elem_of_fmap. split.
    - intros (op & Hop & (x & Hx & Hl)%list_elem_of_bind).
      apply list_elem_of_filter in Hl as [Hnx Hl]. exists x.
      split_and!; [done..|]. rewrite Hop. by apply list_elem_of_fmap_2.
    - intros (x & Hx & Hnx & (op & Hop & Hin)%list_elem_of_fmap).
      exists op. split; [done|]. apply list_elem_of_bind. exists x.
      split; [done|]. by apply list_elem_of_filter. }
  assert (Forall (λ a, isAlloc a = true) allocs)
    as Ha by (apply Forall_forall; by intros a [? _]%list_elem_of_filter).
  assert (Forall (λ a, isAlloc a = false) l)
    as Hl by (apply Forall_forall; by intros a [? _]%list_elem_of_filter).
  split.
  - unfold sinkAllocas. fold allocs l. split.
    + intros [M' H]. apply bind_Ok in H as ([] & Hassert & _).
      apply assert_Ok, orb_true_iff in Hassert as [?|Hrest]; [by left|]. right.
      apply bool_decide_eq_true in Hrest. rewrite sinkLoop_rest in Hrest.
      apply filter_none in Hrest. rewrite Forall_forall in Hrest.
      intros a Hin Hal. apply Href.
      destruct (decide (self a ∈ (l ≫= getOperands).*1)) as [?|Hn]; [done|].
      exfalso. apply (Hrest a); [|done]. by apply list_elem_of_filter.
    + intros Hor.
      assert (assert NDEBUG (bool_decide ((sinkLoop allocs l).2 = []))
                "Forgot to insert some allocas!" = Ok ()) as ->; [|by eauto].
      apply assert_Ok, orb_true_iff. destruct Hor as [?|Hall]; [by left|]. right.
      apply bool_decide_eq_true. rewrite sinkLoop_rest. apply filter_none.
      apply Forall_forall. intros a [Hal Hin]%list_elem_of_filter Hn.
      apply Hn, Href. by apply Hall.
  - intros M' a H Hal. unfold sinkAllocas in H. fold allocs l in H.
    apply bind_Ok in H as ([] & _ & [= <-]). simpl. rewrite <- Href. split.
    + intros Hin.
      destruct (sinkLoop_placed allocs l a Ha Hl Hin Hal)
        as (A & As & u & C & Heq & _ & Hu & Hr & _).
      apply sinkLoop_elem in Hin as Hwhere. destruct Hwhere as [Hw|Hw].
      { rewrite Forall_forall in Hl. by rewrite (Hl a Hw) in Hal. }
      apply list_elem_of_filter in Hw as [_ Hw]. split; [done|].
      apply Href. exists u. split_and!; [|done..].
      assert (u ∈ (sinkLoop allocs l).1) as Huin.
      { rewrite Heq. apply elem_of_app. right. right.
        apply elem_of_app. right. by left. }
      apply sinkLoop_elem in Huin as [Hul|Hua].
      * by apply list_elem_of_filter in Hul as [_ ?].
      * rewrite Forall_forall in Ha. by rewrite (Ha u Hua) in Hu.
    + intros [Hin Hr].
      assert (a ∈ l ++ allocs) as Hall.
      { apply elem_of_app. right. by apply list_elem_of_filter. }
      rewrite <- (sinkLoop_perm allocs l (NoDup_iid_filter _ _ Hnd)) in Hall.
      apply elem_of_app in Hall as [?|Hrest]; [done|].
      rewrite sinkLoop_rest in Hrest. by apply list_elem_of_filter in Hrest as [? _].
Qed.
End SinkAllocas.

(** In [sharedLastUse] the copy has the second buffer as its first
    operand: the two allocations change places in front of it. *)
Lemma sinkAllocas_places_witness :
  NoDup (iid <$> getInstrs Samples.sharedLastUse)
  ∧ sinkAllocas false Samples.sharedLastUse
    = Ok (mkModule [Samples.alloc 2 7; Samples.alloc 1 7;
                    Samples.copy 3 (InstrPtr 2) (InstrPtr 1);
                    Samples.dealloc 4 1; Samples.dealloc 5 2] [])
  ∧ [Samples.alloc 2 7; Samples.alloc 1 7;
     Samples.copy 3 (InstrPtr 2) (InstrPtr 1);
     Samples.dealloc 4 1; Samples.dealloc 5 2]
    ≡ₚ getInstrs Samples.sharedLastUse.
Proof.
  assert (NoDup (iid <$> getInstrs Samples.sharedLastUse)) as Hnd.
  { apply (bool_decide_unpack _). by vm_compute. }
  assert (sinkAllocas false Samples.sharedLastUse
          = Ok (mkModule [Samples.alloc 2 7; Samples.alloc 1 7;
                          Samples.copy 3 (InstrPtr 2) (InstrPtr 1);
                          Samples.dealloc 4 1; Samples.dealloc 5 2] [])) as Hrun
    by (by vm_compute).
  split_and!; [exact Hnd | exact Hrun |].
  destruct (sinkAllocas_places false Samples.sharedLastUse _ Hnd Hrun)
    as (_ & _ & Hperm & _).
  exact (Hperm eq_refl).
Defined.

(** Without assertions an allocation that nothing mentions is taken out
    of the stream. *)
Lemma sinkAllocas_defined_witness :
  sinkAllocas true (mkModule [Samples.alloc 1 7] []) = Ok (mkModule [] [])
  ∧ ¬ ∃ x, x ∈ [Samples.alloc 1 7] ∧ isAlloc x = false
           ∧ references (self (Samples.alloc 1 7)) x.
Proof.
  assert (NoDup (iid <$> getInstrs (mkModule [Samples.alloc 1 7] []))) as Hnd.
  { apply (bool_decide_unpack _). by vm_compute. }
  assert (sinkAllocas true (mkModule [Samples.alloc 1 7] []) = Ok (mkModule [] []))
    as Hrun by (by vm_compute).
  split; [exact Hrun|].
  destruct (sinkAllocas_defined true (mkModule [Samples.alloc 1 7] []) Hnd)
    as [_ Hdrop].
  intros Hex.
  apply (not_elem_of_nil (Samples.alloc 1 7)).
  apply (Hdrop (mkModule [] []) (Samples.alloc 1 7) Hrun eq_refl).
  split; [by left | exact Hex].
Defined.

(** ** The shape of the live intervals *)

Section LiveShape.
Variable NDEBUG : bool.

Lemma consecutive_singleton iv : consecutive [iv].
Proof. intros i iv1 iv2 _ H2. by destruct i. Qed.

Lemma consecutive_change_last ivs b e e' :
  consecutive (ivs ++ [(b, e)]) → consecutive (ivs ++ [(b, e')]).
Proof.
  intros H i iv1 iv2 H1 H2.
  assert (S i < length (ivs ++ [(b, e')])) as Hlt by (by eapply lookup_lt_Some).
  rewrite length_app in Hlt. simpl in Hlt.
  rewrite lookup_app_l in H1 by lia.
  destruct (decide (S i < length ivs)) as [Hin|Hout].
  - rewrite lookup_app_l in H2 by lia.
    apply (H i); by rewrite lookup_app_l by lia.
  - assert (S i = length ivs) as Hi by lia.
    rewrite Hi, list_lookup_middle in H2 by done. injection H2 as <-.
    apply (H i iv1 (b, e)); [by rewrite lookup_app_l by lia|].
    by rewrite Hi, list_lookup_middle.
Qed.

Lemma consecutive_snoc ivs b e iv :
  consecutive (ivs ++ [(b, e)]) → e ≤ iv.1 →
  consecutive ((ivs ++ [(b, e)]) ++ [iv]).
Proof.
  intros H He i iv1 iv2 H1 H2.
  assert (S i < length ((ivs ++ [(b, e)]) ++ [iv])) as Hlt by (by eapply lookup_lt_Some).
  rewrite !length_app in Hlt. simpl in Hlt.
  rewrite lookup_app_l in H1 by (rewrite length_app; simpl; lia).
  destruct (decide (S i < length ivs + 1)) as [Hin|Hout].
  - rewrite lookup_app_l in H2 by (rewrite length_app; simpl; lia).
    by apply (H i).
  - assert (i = length ivs) as Hi by lia.
    rewrite Hi, list_lookup_middle in H1 by done. injection H1 as <-.
    replace (S i) with (length (ivs ++ [(b, e)])) in H2
      by (rewrite length_app; simpl; lia).
    rewrite list_lookup_middle in H2 by done. by injection H2 as <-.
Qed.

Lemma consecutive_setBackSecond ivs idx :
  consecutive ivs → consecutive (setBackSecond ivs idx).
Proof.
  destruct ivs as [|[b e] ivs _] using rev_ind; [done|].
  rewrite setBackSecond_snoc. apply consecutive_change_last.
Qed.

Lemma last_setBackSecond ivs idx :
  ivs ≠ [] → ∃ b, last (setBackSecond ivs idx) = Some (b, idx).
Proof.
  destruct ivs as [|[b e] ivs _] using rev_ind; [done|]. intros _.
  rewrite setBackSecond_snoc, last_snoc. by exists b.
Qed.

Lemma locationOf_self M v loc :
  locationOf M v = Some loc → loc = v ∧ locationOf M loc = Some loc.
Proof.
  intros H. assert (loc = v) as ->; [|done].
  unfold locationOf in H. repeat case_match; congruence.
Qed.

Lemma liveOperand_sorted M ins idx lv O lv' :
  livenessOk lv idx → intervalsSorted M lv →
  liveOperand NDEBUG M ins idx lv O = Ok lv' →
  intervalsSorted M lv'.
Proof.
  intros Hok Hs. unfold liveOperand.
  destruct (locationOf M O.1) as [loc|] eqn:Hloc; [|by intros [= <-]].
  apply locationOf_self in Hloc as [_ Hloc].
  assert (∀ ivs', consecutive ivs' → intervalsSorted M (<[loc := ivs']> lv)) as Hins.
  { intros ivs' Hc loc0 ivs0. destruct (decide (loc = loc0)) as [<-|Hne].
    - rewrite lookup_insert_eq. by intros [= <-].
    - rewrite lookup_insert_ne by done. apply Hs. }
  destruct (lv !! loc) as [ivs|] eqn:Hl.
  - destruct (Hok loc ivs Hl) as [Hne Hall]. destruct (Hs loc ivs Hl) as [_ Hc].
    destruct (last ivs) as [bk|] eqn:Hlast; [|done].
    apply last_Some in Hlast as [ivs0 ->]. destruct bk as [b e].
    rewrite Forall_app, Forall_singleton in Hall. simpl in *.
    destruct Hall as [_ [Hbe He]].
    destruct (_ || _); destruct (_ || _); intros [= <-]; apply Hins.
    + rewrite setBackSecond_snoc. by eapply consecutive_change_last.
    + done.
    + rewrite setBackSecond_snoc. apply consecutive_snoc; [|done].
      by eapply consecutive_change_last.
    + by apply consecutive_snoc.
  - intros H. apply bind_Ok in H as ([] & _ & [= <-]).
    apply Hins, consecutive_singleton.
Qed.

Lemma liveOperands_sorted M ins idx ops lv lv' :
  livenessOk lv idx → intervalsSorted M lv →
  foldM (liveOperand NDEBUG M ins idx) lv ops = Ok lv' →
  intervalsSorted M lv'.
Proof.
  revert lv. induction ops as [|O ops IH]; intros lv Hok Hs; simpl.
  - by intros [= <-].
  - intros H. apply bind_Ok in H as (lv1 & H1 & H).
    destruct (liveOperand_spec NDEBUG M ins idx lv O lv1 Hok H1) as (Hok1 & _).
    apply (IH lv1 Hok1); [|done].
    by apply (liveOperand_sorted M ins idx lv O lv1).
Qed.

Lemma liveLoop_sorted M l i lv lv' :
  livenessOk lv i → intervalsSorted M lv →
  liveLoop NDEBUG M l i lv = Ok lv' →
  intervalsSorted M lv'.
Proof.
  revert i lv. induction l as [|x l IH]; intros i lv Hok Hs; simpl.
  - by intros [= <-].
  - intros H. apply bind_Ok in H as (lv1 & H1 & H).
    assert (livenessOk lv1 i ∧ intervalsSorted M lv1) as [Hok1 Hs1].
    { unfold liveInstr in H1. destruct (isDealloc x).
      - by injection H1 as <-.
      - destruct (liveOperands_spec NDEBUG M x i _ lv lv1 Hok H1) as (? & _).
        split; [done|].
        by apply (liveOperands_sorted M x i (sortOperands (getOperands x)) lv lv1). }
    apply (IH (S i) lv1); [|done..].
    apply (livenessOk_mono _ i); [lia | done].
Qed.

(** X12: the live intervals the analysis returns: a key of the map is an
    allocation of the stream or a weight that is not constant; its list
    of intervals is not empty; every interval begins before it ends and
    ends at the length of the stream at the latest; an interval ends
    before the next one begins, or where it begins; the last interval of
    a weight ends at the length of the stream. *)
Theorem calculateLiveIntervals_shape (M : Module)
    (liveness : gmap Value (list (nat * nat))) (loc : Value) (ivs : list (nat * nat)) :
  calculateLiveIntervals NDEBUG M = Ok liveness →
  liveness !! loc = Some ivs →
  locationOf M loc = Some loc
  ∧ ivs ≠ []
  ∧ Forall (λ iv : nat * nat, iv.1 ≤ iv.2 ∧ iv.2 ≤ length (getInstrs M)) ivs
  ∧ consecutive ivs
  ∧ (isWeightVar loc = true → ∃ b, last ivs = Some (b, length (getInstrs M))).
Proof.
  unfold calculateLiveIntervals. intros H Hl.
  apply bind_Ok in H as (lv & Hloop & H).
  apply bind_Ok in H as ([] & _ & [= <-]).
  rewrite extendWeights_lookup in Hl.
  destruct (lv !! loc) as [IL|] eqn:Hlv; [|done]. injection Hl as <-.
  destruct (liveLoop_spec NDEBUG M _ 0 ∅ lv (livenessOk_empty 0) Hloop) as (Hok & _).
  assert (intervalsSorted M lv) as Hs.
  { eapply liveLoop_sorted; [apply (livenessOk_empty 0) | | exact Hloop].
    intros loc0 ivs0 H0. by rewrite lookup_empty in H0. }
  destruct (Hok loc IL Hlv) as [Hne Hall]. destruct (Hs loc IL Hlv) as [Hloc Hc].
  simpl in Hall. destruct (isWeightVar loc).
  - split_and!; [done | | | |].
    + intros Hnil. by apply setBackSecond_nil_inv in Hnil.
    + by apply (setBackSecond_bounded _ (length (getInstrs M))).
    + by apply consecutive_setBackSecond.
    + intros _. by apply last_setBackSecond.
  - by split_and!.
Qed.
End LiveShape.

(** In [storeToWeight] the weight is written by the copy at index 2; its
    interval goes to the end of the stream. *)
Lemma calculateLiveIntervals_shape_witness :
  ∃ liveness,
    calculateLiveIntervals false Samples.storeToWeight = Ok liveness
    ∧ liveness !! WeightPtr 1 = Some [(2, 4)]
    ∧ last [(2, 4)] = Some (2, length (getInstrs Samples.storeToWeight)).
Proof.
  assert (∃ lv, calculateLiveIntervals false Samples.storeToWeight = Ok lv
                ∧ lv !! WeightPtr 1 = Some [(2, 4)]) as (lv & Hlv & Hl).
  { eexists. split; vm_compute; reflexivity. }
  exists lv. split_and!; [exact Hlv | exact Hl |].
  destruct (calculateLiveIntervals_shape false Samples.storeToWeight lv
              (WeightPtr 1) [(2, 4)] Hlv Hl) as (_ & _ & _ & _ & Hlast).
  destruct (Hlast eq_refl) as [b Hb]. rewrite Hb. by injection Hb as <-.
Defined.

(** ** The debug instrumentation *)

Section DebugInstrumentation.

Lemma maxOperand_ge (ops : list Operand) m :
  (m ≤ foldr (λ (op : Operand) m',
               match op.1 with InstrPtr n => Pos.max n m' | WeightPtr _ => m' end)
         m ops)%positive.
Proof. induction ops as [|op ops IH]; simpl; [lia|]. destruct op.1; lia. Qed.

Lemma maxId_ge l x : x ∈ l → (iid x ≤ maxId l)%positive.
Proof.
  unfold maxId. induction l as [|y l IH]; intros Hx; [by apply elem_of_nil in Hx|].
  simpl. etransitivity; [|apply maxOperand_ge].
  apply elem_of_cons in Hx as [->|Hx]; [lia|]. specialize (IH Hx). lia.
Qed.

Lemma debugOperand_step M name bs as_ n v kind :
  debugOperand M name (bs, as_, n) (v, kind)
  = match kind with
    | OperandKind.In =>
        (bs ++ [DebugPrintInst n
                  (String.append "debug_print.before."
                     (String.append (nameOf M v) (String.append "." name))) v],
         as_, Pos.succ n)
    | OperandKind.InOut =>
        (bs ++ [DebugPrintInst n
                  (String.append "debug_print.before."
                     (String.append (nameOf M v) (String.append "." name))) v],
         as_ ++ [DebugPrintInst (Pos.succ n)
                   (String.append "debug_print.after."
                      (String.append (nameOf M v) (String.append "." name))) v],
         Pos.succ (Pos.succ n))
    | OperandKind.Out =>
        (bs,
         as_ ++ [DebugPrintInst n
                   (String.append "debug_print.after."
                      (String.append (nameOf M v) (String.append "." name))) v],
         Pos.succ n)
    end.
Proof. by destruct kind. Qed.

Lemma debugOperands_spec M name ops bs as_ n :
  ∃ bs' as' k,
    (foldl (debugOperand M name) (bs, as_, n) ops).1.1 = bs ++ bs'
    ∧ (foldl (debugOperand M name) (bs, as_, n) ops).1.2 = as_ ++ as'
    ∧ Pos.to_nat (foldl (debugOperand M name) (bs, as_, n) ops).2 = Pos.to_nat n + k
    ∧ (λ p : Instruction, Pos.to_nat (iid p)) <$> (bs' ++ as') ≡ₚ seq (Pos.to_nat n) k
    ∧ getOperands <$> bs' = (λ op : Operand, [(op.1, OperandKind.In)])
        <$> filter (λ op : Operand, op.2 ≠ OperandKind.Out) ops
    ∧ getOperands <$> as' = (λ op : Operand, [(op.1, OperandKind.In)])
        <$> filter (λ op : Operand, op.2 ≠ OperandKind.In) ops
    ∧ Forall (λ p, getKind p = Kind.DebugPrintInstKind) (bs' ++ as').
Proof.
  revert bs as_ n. induction ops as [|[v kind] ops IH]; intros bs as_ n.
  - exists [], [], 0. simpl. rewrite !app_nil_r. split_and!; [done | done | lia | done..].
  - cbn [foldl]. rewrite debugOperand_step. destruct kind.
    + destruct (IH (bs ++ [DebugPrintInst n
                             (String.append "debug_print.before."
                                (String.append (nameOf M v) (String.append "." name))) v])
                  as_ (Pos.succ n)) as (bs' & as' & k & H1 & H2 & H3 & H4 & H5 & H6 & H7).
      eexists (_ :: bs'), as', (S k).
      rewrite H1, H2, H3, <- app_assoc, Pos2Nat.inj_succ.
      split_and!; [done | done | lia | | | |].
      * simpl. rewrite <- Pos2Nat.inj_succ. by f_equiv.
      * rewrite filter_cons_True by done. by rewrite !fmap_cons, H5.
      * by rewrite filter_cons_False by (intros H; by apply H).
      * by apply Forall_cons.
    + destruct (IH (bs ++ [DebugPrintInst n
                             (String.append "debug_print.before."
                                (String.append (nameOf M v) (String.append "." name))) v])
                  (as_ ++ [DebugPrintInst (Pos.succ n)
                             (String.append "debug_print.after."
                                (String.append (nameOf M v) (String.append "." name))) v])
                  (Pos.succ (Pos.succ n)))
        as (bs' & as' & k & H1 & H2 & H3 & H4 & H5 & H6 & H7).
      eexists (_ :: bs'), (_ :: as'), (S (S k)).
      rewrite H1, H2, H3, <- !app_assoc, !Pos2Nat.inj_succ.
      split_and!; [done | done | lia | | | |].
      * rewrite <- Permutation_middle. simpl. rewrite Permutation_swap.
        rewrite Pos2Nat.inj_succ. do 2 f_equiv.
        by rewrite <- !Pos2Nat.inj_succ.
      * rewrite filter_cons_True by done. by rewrite !fmap_cons, H5.
      * rewrite filter_cons_True by done. by rewrite !fmap_cons, H6.
      * apply Forall_cons. split; [done|].
        apply Forall_app in H7 as [? ?]. apply Forall_app. split; [done|].
        by apply Forall_cons.
    + destruct (IH bs
                  (as_ ++ [DebugPrintInst n
                             (String.append "debug_print.after."
                                (String.append (nameOf M v) (String.append "." name))) v])
                  (Pos.succ n)) as (bs' & as' & k & H1 & H2 & H3 & H4 & H5 & H6 & H7).
      eexists bs', (_ :: as'), (S k).
      rewrite H1, H2, H3, <- app_assoc, Pos2Nat.inj_succ.
      split_and!; [done | done | lia | | | |].
      * rewrite <- Permutation_middle. simpl. rewrite <- Pos2Nat.inj_succ. by f_equiv.
      * by rewrite filter_cons_False by (intros H; by apply H).
      * rewrite filter_cons_True by done. by rewrite !fmap_cons, H6.
      * apply Forall_app in H7 as [? ?]. apply Forall_app. split; [done|].
        by apply Forall_cons.
Qed.

Lemma ids_seq_ge (l : list Instruction) n k p :
  (λ p : Instruction, Pos.to_nat (iid p)) <$> l ≡ₚ seq (Pos.to_nat n) k →
  p ∈ l → (n ≤ iid p)%positive.
Proof.
  intros Hperm Hp.
  assert (Pos.to_nat (iid p) ∈ seq (Pos.to_nat n) k) as Hin.
  { rewrite <- Hperm. by apply (list_elem_of_fmap_2 (λ p, Pos.to_nat (iid p))). }
  apply elem_of_seq in Hin. lia.
Qed.

Lemma debugLoop_spec M n0 l acc n :
  (n0 ≤ n)%positive → Forall (λ x, (iid x < n0)%positive) l →
  ∃ out prints k,
    (foldl (debugInstr M) (acc, n) l).1 = acc ++ out
    ∧ Pos.to_nat (foldl (debugInstr M) (acc, n) l).2 = Pos.to_nat n + k
    ∧ out ≡ₚ l ++ prints
    ∧ (λ p : Instruction, Pos.to_nat (iid p)) <$> prints ≡ₚ seq (Pos.to_nat n) k
    ∧ Forall (λ p, getKind p = Kind.DebugPrintInstKind) prints
    ∧ filter (λ p, (iid p <? n0)%positive = true) out = l
    ∧ ∀ i ins, l !! i = Some ins →
        isa Kind.DebugPrintInstKind ins || isAlloc ins || isDealloc ins = false →
        ∃ A befores afters B,
          out = A ++ befores ++ ins :: afters ++ B
          ∧ getOperands <$> befores
            = (λ op : Operand, [(op.1, OperandKind.In)])
                <$> filter (λ op : Operand, op.2 ≠ OperandKind.Out) (getOperands ins)
          ∧ getOperands <$> afters
            = (λ op : Operand, [(op.1, OperandKind.In)])
                <$> filter (λ op : Operand, op.2 ≠ OperandKind.In) (getOperands ins)
          ∧ Forall (λ p, getKind p = Kind.DebugPrintInstKind) (befores ++ afters).
Proof.
  intros Hn Hold. revert acc n Hn.
  induction Hold as [|x l Hx Hold IH]; intros acc n Hn.
  - exists [], [], 0. simpl. rewrite app_nil_r.
    split_and!; [done | lia | done..|]. intros i ins Hi. by rewrite lookup_nil in Hi.
  - cbn [foldl]. unfold debugInstr at 2 4. cbn [fst snd].
    destruct (isa Kind.DebugPrintInstKind x || isAlloc x || isDealloc x) eqn:Hskip.
    + destruct (IH (acc ++ [x]) n Hn)
        as (out & prints & k & H1 & H2 & H3 & H4 & H5 & H6 & H7).
      exists (x :: out), prints, k. rewrite H1, H2, <- app_assoc.
      split_and!; [done | done | by simpl; f_equiv | done | done | |].
      * rewrite filter_cons_True by (by apply Pos.ltb_lt). by rewrite H6.
      * intros [|i] ins Hi Hins; simpl in Hi.
        { injection Hi as <-. congruence. }
        destruct (H7 i ins Hi Hins) as (A & bf & af & B & -> & ? & ? & ?).
        by exists (x :: A), bf, af, B.
    + destruct (debugOperands_spec M (getName x) (getOperands x) [] [] n)
        as (bs & as_ & kd & D1 & D2 & D3 & D4 & D5 & D6 & D7).
      rewrite D1, D2, !app_nil_l.
      destruct (IH (acc ++ bs ++ x :: as_)
                  (foldl (debugOperand M (getName x)) ([], [], n) (getOperands x)).2
                  ltac:(lia))
        as (out & prints & k & H1 & H2 & H3 & H4 & H5 & H6 & H7).
      exists (bs ++ x :: as_ ++ out), ((bs ++ as_) ++ prints), (kd + k).
      rewrite H1, H2, D3.
      assert (Forall (λ p, (n0 ≤ iid p)%positive) (bs ++ as_)) as Hnew.
      { apply Forall_forall. intros p Hp.
        pose proof (ids_seq_ge _ _ _ _ D4 Hp). lia. }
      assert (∀ ps, Forall (λ p, (n0 ≤ iid p)%positive) ps →
                    filter (λ p, (iid p <? n0)%positive = true) ps = []) as Hfresh.
      { intros ps Hps. apply filter_none. eapply Forall_impl; [exact Hps|].
        simpl. intros p Hp Hlt%Pos.ltb_lt. lia. }
      apply Forall_app in Hnew as [Hbs Has].
      split_and!.
      * by rewrite <- !app_assoc.
      * lia.
      * rewrite H3, <- Permutation_middle. simpl. f_equiv.
        rewrite (app_assoc bs as_), (app_assoc (bs ++ as_) l), (app_assoc l).
        f_equiv. apply Permutation_app_comm.
      * rewrite fmap_app, D4, H4, D3. by rewrite seq_app.
      * by apply Forall_app.
      * rewrite filter_app, (Hfresh _ Hbs), filter_cons_True by (by apply Pos.ltb_lt).
        by rewrite filter_app, (Hfresh _ Has), H6.
      * intros [|i] ins Hi Hins; simpl in Hi.
        { injection Hi as <-. by exists [], bs, as_, out. }
        destruct (H7 i ins Hi Hins) as (A & bf & af & B & -> & ? & ? & ?).
        exists (bs ++ x :: as_ ++ A), bf, af, B.
        split_and!; [|done..]. assoc.
Qed.

(** X13: the debug instrumentation, when it is switched on, only inserts
    DebugPrint instructions at fresh addresses: taking them out gives
    back the stream, the weights are kept, distinct addresses stay
    distinct.  Every instruction other than a DebugPrint, an allocation
    or a deallocation has in front of it one print for each operand that
    is not Out, and behind it one print for each operand that is not In,
    in the order of the operands, each reading the operand's value.
    Switched off, it returns the module as it is. *)
Theorem performDebugInstrumentation_spec (M : Module) :
  getWeights (performDebugInstrumentation true M) = getWeights M
  ∧ filter (λ p, (iid p <? freshId (getInstrs M))%positive = true)
      (getInstrs (performDebugInstrumentation true M)) = getInstrs M
  ∧ (∀ p, p ∈ getInstrs (performDebugInstrumentation true M) →
       p ∈ getInstrs M
       ∨ (getKind p = Kind.DebugPrintInstKind
          ∧ (freshId (getInstrs M) ≤ iid p)%positive))
  ∧ (NoDup (iid <$> getInstrs M) →
     NoDup (iid <$> getInstrs (performDebugInstrumentation true M)))
  ∧ (∀ i ins, getInstrs M !! i = Some ins →
       isa Kind.DebugPrintInstKind ins || isAlloc ins || isDealloc ins = false →
       ∃ A befores afters B,
         getInstrs (performDebugInstrumentation true M)
         = A ++ befores ++ ins :: afters ++ B
         ∧ getOperands <$> befores
           = (λ op : Operand, [(op.1, OperandKind.In)])
               <$> filter (λ op : Operand, op.2 ≠ OperandKind.Out) (getOperands ins)
         ∧ getOperands <$> afters
           = (λ op : Operand, [(op.1, OperandKind.In)])
               <$> filter (λ op : Operand, op.2 ≠ OperandKind.In) (getOperands ins)
         ∧ Forall (λ p, getKind p = Kind.DebugPrintInstKind) (befores ++ afters))
  ∧ performDebugInstrumentation false M = M.
Proof.
  unfold performDebugInstrumentation. cbn [negb setInstrs getInstrs getWeights].
  assert (Forall (λ x, (iid x < freshId (getInstrs M))%positive) (getInstrs M)) as Hold.
  { apply Forall_forall. intros x Hx. apply maxId_ge in Hx. unfold freshId. lia. }
  destruct (debugLoop_spec M (freshId (getInstrs M)) (getInstrs M) []
              (freshId (getInstrs M)) ltac:(lia) Hold)
    as (out & prints & k & H1 & H2 & H3 & H4 & H5 & H6 & H7).
  rewrite H1, app_nil_l.
  split_and!; [done | done | | | done | done].
  - intros p Hp. rewrite H3 in Hp. apply elem_of_app in Hp as [?|Hp]; [by left|].
    right. rewrite Forall_forall in H5. split; [by apply H5|].
    by apply (ids_seq_ge prints _ k).
  - intros Hnd. rewrite H3, fmap_app. apply NoDup_app. split_and!.
    + done.
    + intros n (x & -> & Hx)%list_elem_of_fmap (p & Heq & Hp)%list_elem_of_fmap.
      rewrite Forall_forall in Hold. specialize (Hold x Hx).
      pose proof (ids_seq_ge prints _ k p H4 Hp). lia.
    + apply (NoDup_fmap_1 Pos.to_nat). rewrite <- list_fmap_compose.
      change (Pos.to_nat ∘ iid) with (λ p : Instruction, Pos.to_nat (iid p)).
      rewrite H4. apply NoDup_seq.
Qed.
End DebugInstrumentation.

(** ** The peephole pass on a stream it has no rule for *)

Section PeepholeFrame.
Variable NDEBUG : bool.

Lemma peepholeStep_other M cur it :
  isPeepholeKind (getKind cur) = false →
  peepholeStep NDEBUG M cur it = Ok (M, it).
Proof. unfold peepholeStep. by destruct (getKind cur). Qed.

Lemma peepholeLoop_other M A B fuel :
  NoDup (iid <$> getInstrs M) →
  getInstrs M = A ++ B →
  Forall (λ ins, isPeepholeKind (getKind ins) = false) B →
  length B ≤ fuel →
  peepholeLoop NDEBUG fuel M (self <$> head B) = Ok M.
Proof.
  intros Hnd. revert A fuel. induction B as [|x B IH]; intros A fuel Heq Hall Hlen.
  - by destruct fuel.
  - apply Forall_cons in Hall as [Hx Hall]. destruct fuel as [|fuel]; simpl in Hlen; [lia|].
    destruct (NoDup_iid_split _ A x B Hnd Heq) as [HA _].
    change (self <$> head (x :: B)) with (Some (self x)). cbn [peepholeLoop].
    unfold getInstr. rewrite Heq, (findInstr_app_cons A x B HA), <- Heq.
    rewrite (peepholeStep_other _ _ _ Hx).
    cbv beta iota delta [mbind result_bind]. cbn [fst snd].
    rewrite Heq, (next_app_cons A x B HA).
    apply (IH (A ++ [x])); [by rewrite <- app_assoc | done | lia].
Qed.

(** X14: the peephole pass returns the module unchanged when the
    stream, whose instructions have distinct addresses, has no
    PoolMaxWithXY, SoftMaxWithE, Reshape, Transpose, ElementMax,
    TensorView or Copy instruction; the walk ends within its bound. *)
Theorem performPeepholeOptimizations_other (M : Module) :
  NoDup (iid <$> getInstrs M) →
  Forall (λ ins, isPeepholeKind (getKind ins) = false) (getInstrs M) →
  performPeepholeOptimizations NDEBUG M = Ok M.
Proof.
  intros Hnd Hall. unfold performPeepholeOptimizations, begin_.
  apply (peepholeLoop_other M [] (getInstrs M)); [done | done | done | lia].
Qed.
End PeepholeFrame.

(** [twoBuffers] has allocations, splats and deallocations only. *)
Lemma performPeepholeOptimizations_other_witness :
  NoDup (iid <$> getInstrs Samples.twoBuffers)
  ∧ performPeepholeOptimizations false Samples.twoBuffers = Ok Samples.twoBuffers.
Proof.
  assert (NoDup (iid <$> getInstrs Samples.twoBuffers)) as Hnd.
  { apply (bool_decide_unpack _). by vm_compute. }
  split; [exact Hnd|].
  apply (performPeepholeOptimizations_other false Samples.twoBuffers Hnd).
  repeat (apply Forall_cons_2; [reflexivity|]). apply Forall_nil_2.
Defined.

(** ** What the dead-allocation sweep keeps *)

Section DeadAllocsFrame.

Lemma sweep_keeps (p : Module → Instruction → bool) M ins :
  NoDup (iid <$> getInstrs M) → ins ∈ getInstrs M → p M ins = false →
  ins ∈ getInstrs (sweep p M).
Proof.
  intros Hnd Hin Hp. destruct (sweep_filter p M Hnd) as (-> & _).
  by apply list_elem_of_filter.
Qed.

Lemma sweep_sublist (p : Module → Instruction → bool) M :
  NoDup (iid <$> getInstrs M) → getInstrs (sweep p M) `sublist_of` getInstrs M.
Proof.
  intros Hnd. destruct (sweep_filter p M Hnd) as (-> & _). apply sublist_filter.
Qed.

Lemma two_members {A} (l : list A) x y : x ∈ l → y ∈ l → x ≠ y → 2 ≤ length l.
Proof.
  destruct l as [|a [|b l]]; simpl; intros Hx Hy Hne; [|exfalso|lia].
  - by apply elem_of_nil in Hx.
  - apply list_elem_of_singleton in Hx, Hy. congruence.
Qed.

(** An allocation with a dealloc and one more user has two users. *)
Lemma used_alloc_users M a d u :
  d ∈ getInstrs M → u ∈ getInstrs M →
  isDealloc d = true → getAlloc d = Some a →
  isDealloc u = false → references a u →
  2 ≤ getNumUsers M a.
Proof.
  intros Hd Hu Hkd Hda Hku Hua. unfold getNumUsers.
  unfold getAlloc, getOperandValue in Hda.
  destruct (getOperands d !! 0) as [[v kd]|] eqn:Hop; [|done].
  injection Hda as ->. apply list_elem_of_lookup_2 in Hop.
  unfold references in Hua. apply list_elem_of_fmap in Hua as ([v ku] & -> & Hopu).
  apply (two_members _ (d, kd) (u, ku)).
  - by apply elem_of_getUsers.
  - by apply elem_of_getUsers.
  - intros [= -> _]. congruence.
Qed.

(** X15: on a stream of distinct instructions the sweep of dead
    allocations keeps the weights and the order of what it keeps; it
    erases nothing but allocations, deallocations and views; an
    allocation that has its dealloc and is an operand of an instruction
    other than an allocation, a dealloc or a view stays, with its
    dealloc. *)
Theorem deleteDeadAllocs_keeps (M : Module) :
  NoDup (iid <$> getInstrs M) →
  getWeights (deleteDeadAllocs M) = getWeights M
  ∧ getInstrs (deleteDeadAllocs M) `sublist_of` getInstrs M
  ∧ (∀ ins, ins ∈ getInstrs M → isMemoryOp ins = false →
            ins ∈ getInstrs (deleteDeadAllocs M))
  ∧ ∀ a d u,
      a ∈ getInstrs M → d ∈ getInstrs M → u ∈ getInstrs M →
      isAlloc a = true →
      isDealloc d = true → getAlloc d = Some (self a) →
      isMemoryOp u = false → references (self a) u →
      a ∈ getInstrs (deleteDeadAllocs M) ∧ d ∈ getInstrs (deleteDeadAllocs M).
Proof.
  intros Hnd. unfold deleteDeadAllocs.
  set (M1 := sweep isUnusedTensorView M).
  set (M2 := sweep closesUnusedAlloc M1).
  destruct (sweep_filter isUnusedTensorView M Hnd) as (_ & Hw1 & Hnd1).
  fold M1 in Hw1, Hnd1.
  destruct (sweep_filter closesUnusedAlloc M1 Hnd1) as (_ & Hw2 & Hnd2).
  fold M2 in Hw2, Hnd2.
  destruct (sweep_filter isUnusedAlloc M2 Hnd2) as (_ & Hw3 & _).
  assert (∀ ins, ins ∈ getInstrs M → isMemoryOp ins = false →
                 ins ∈ getInstrs M1 ∧ ins ∈ getInstrs M2
                 ∧ ins ∈ getInstrs (sweep isUnusedAlloc M2)) as Hother.
  { intros ins Hin Hk. unfold isMemoryOp in Hk.
    apply orb_false_iff in Hk as [Hk Hv]. apply orb_false_iff in Hk as [Hd Ha].
    assert (ins ∈ getInstrs M1) as H1.
    { apply sweep_keeps; [done..|]. unfold isUnusedTensorView. by rewrite Hv. }
    assert (ins ∈ getInstrs M2) as H2.
    { apply sweep_keeps; [done..|]. unfold closesUnusedAlloc. by rewrite Hd. }
    split_and!; [done | done |].
    apply sweep_keeps; [done..|]. unfold isUnusedAlloc. by rewrite Ha. }
  split_and!.
  - by rewrite Hw3, Hw2, Hw1.
  - etransitivity; [by apply sweep_sublist|].
    etransitivity; [by apply sweep_sublist|]. by apply sweep_sublist.
  - intros ins Hin Hk. by apply Hother.
  - intros a d u Ha Hd Hu Hka Hkd Hda Hku Hua.
    destruct (Hother u Hu Hku) as (Hu1 & Hu2 & _).
    assert (isDealloc u = false) as Hud.
    { unfold isMemoryOp in Hku. apply orb_false_iff in Hku as [Hku _].
      by apply orb_false_iff in Hku as [? _]. }
    assert (isTensorView a = false ∧ isDealloc a = false) as [Hav Had].
    { unfold isAlloc, isTensorView, isDealloc, isa in *.
      apply bool_decide_eq_true in Hka. rewrite Hka. by split. }
    assert (isTensorView d = false ∧ isAlloc d = false) as [Hdv Hdk].
    { unfold isAlloc, isTensorView, isDealloc, isa in *.
      apply bool_decide_eq_true in Hkd. rewrite Hkd. by split. }
    assert (a ∈ getInstrs M1) as Ha1.
    { apply sweep_keeps; [done..|]. unfold isUnusedTensorView. by rewrite Hav. }
    assert (d ∈ getInstrs M1) as Hd1.
    { apply sweep_keeps; [done..|]. unfold isUnusedTensorView. by rewrite Hdv. }
    pose proof (used_alloc_users M1 (self a) d u Hd1 Hu1 Hkd Hda Hud Hua) as Hn1.
    assert (a ∈ getInstrs M2) as Ha2.
    { apply sweep_keeps; [done..|]. unfold closesUnusedAlloc. by rewrite Had. }
    assert (d ∈ getInstrs M2) as Hd2.
    { apply sweep_keeps; [done..|]. unfold closesUnusedAlloc. rewrite Hkd, Hda.
      simpl. apply Nat.ltb_ge. lia. }
    pose proof (used_alloc_users M2 (self a) d u Hd2 Hu2 Hkd Hda Hud Hua) as Hn2.
    split.
    + apply sweep_keeps; [done..|]. unfold isUnusedAlloc. rewrite Hka.
      simpl. apply Nat.ltb_ge. lia.
    + apply sweep_keeps; [done..|]. unfold isUnusedAlloc. by rewrite Hdk.
Qed.
End DeadAllocsFrame.

(** In [copyChain] the first buffer is written by the splat and closed
    by its dealloc. *)
Lemma deleteDeadAllocs_keeps_witness :
  NoDup (iid <$> getInstrs Samples.copyChain)
  ∧ Samples.alloc 1 7 ∈ getInstrs (deleteDeadAllocs Samples.copyChain)
  ∧ Samples.dealloc 5 1 ∈ getInstrs (deleteDeadAllocs Samples.copyChain).
Proof.
  assert (NoDup (iid <$> getInstrs Samples.copyChain)) as Hnd.
  { apply (bool_decide_unpack _). by vm_compute. }
  split; [exact Hnd|].
  destruct (deleteDeadAllocs_keeps Samples.copyChain Hnd) as (_ & _ & _ & Hused).
  apply (Hused (Samples.alloc 1 7) (Samples.dealloc 5 1) (Samples.splat 2 (InstrPtr 1)));
    try reflexivity; unfold references;
    apply (bool_decide_unpack _); by vm_compute.
Defined.

(** ** What buffer sharing changes *)

Section ShareFrame.
Variable NDEBUG : bool.
Variable isInplaceOp : Kind.t → nat → nat → bool.

Lemma replaceAllNonDeallocUsersWith_dealloc M val with_ M' i d :
  replaceAllNonDeallocUsersWith NDEBUG M val with_ = Ok M' →
  getInstrs M !! i = Some d → isDealloc d = true →
  getInstrs M' !! i = Some d.
Proof.
  intros ->%replaceAllNonDeallocUsersWith_Ok Hi Hd. simpl.
  by rewrite list_lookup_fmap, Hi; simpl; rewrite Hd.
Qed.

Lemma shareStep_frame s s' :
  shareStep NDEBUG isInplaceOp s = Ok s' →
  skeleton <$> getInstrs (shareModule s') = skeleton <$> getInstrs (shareModule s)
  ∧ ∀ i d, getInstrs (shareModule s) !! i = Some d → isDealloc d = true →
           getInstrs (shareModule s') !! i = Some d.
Proof.
  unfold shareStep. destruct (pos s) as [|k]; [by intros [= <-]|].
  destruct (getInstrs (shareModule s) !! k) as [ins|]; [|by intros [= <-]].
  intros H. apply bind_Ok in H as (M' & Ht & [= <-]). simpl.
  unfold tryToShareBuffersForInstr in Ht.
  destruct (sharedPair _ _ _ _) as [[dest src]|]; [|by injection Ht as <-].
  split.
  - by eapply replaceAllNonDeallocUsersWith_skeleton.
  - intros i d. by eapply replaceAllNonDeallocUsersWith_dealloc.
Qed.

Lemma shareLoop_frame n s s' :
  shareLoop NDEBUG isInplaceOp n s = Ok s' →
  skeleton <$> getInstrs (shareModule s') = skeleton <$> getInstrs (shareModule s)
  ∧ ∀ i d, getInstrs (shareModule s) !! i = Some d → isDealloc d = true →
           getInstrs (shareModule s') !! i = Some d.
Proof.
  revert s. induction n as [|n IH]; intros s; simpl.
  - by intros [= <-].
  - intros H. apply bind_Ok in H as (s1 & Hstep & H).
    destruct (shareStep_frame _ _ Hstep) as [Hsk1 Hd1].
    destruct (IH _ H) as [Hsk Hd]. split; [by rewrite Hsk|].
    intros i d Hi Hk. apply Hd; [|done]. by apply Hd1.
Qed.

(** X16: buffer sharing changes nothing but the values of operands:
    the result has the same weights and, place by place, instructions
    with the same address, kind, name, type, attributes and operand
    kinds; the deallocations are left as they are. *)
Theorem shareBuffers_frame (M M' : Module) :
  shareBuffers NDEBUG isInplaceOp M = Ok M' →
  getWeights M' = getWeights M
  ∧ skeleton <$> getInstrs M' = skeleton <$> getInstrs M
  ∧ ∀ i d, getInstrs M !! i = Some d → isDealloc d = true →
           getInstrs M' !! i = Some d.
Proof.
  intros H. split; [by eapply shareBuffers_weights|].
  unfold shareBuffers in H. apply bind_Ok in H as (s & Hs & [= <-]).
  by apply shareLoop_frame in Hs.
Qed.
End ShareFrame.

(** The element max writes the second buffer and reads the first for the
    last time: the second buffer is replaced by the first everywhere but
    in its dealloc. *)
Lemma shareBuffers_frame_witness :
  shareBuffers false inplaceTable
    (mkModule [Samples.alloc 1 7; Samples.alloc 2 7; Samples.splat 3 (InstrPtr 1);
               Samples.elementmax 4 (InstrPtr 2) (InstrPtr 1) (InstrPtr 1);
               Samples.print 5 (InstrPtr 2);
               Samples.dealloc 6 1; Samples.dealloc 7 2] [])
  = Ok (mkModule [Samples.alloc 1 7; Samples.alloc 2 7; Samples.splat 3 (InstrPtr 1);
                  Samples.elementmax 4 (InstrPtr 1) (InstrPtr 1) (InstrPtr 1);
                  Samples.print 5 (InstrPtr 1);
                  Samples.dealloc 6 1; Samples.dealloc 7 2] [])
  ∧ [Samples.alloc 1 7; Samples.alloc 2 7; Samples.splat 3 (InstrPtr 1);
     Samples.elementmax 4 (InstrPtr 1) (InstrPtr 1) (InstrPtr 1);
     Samples.print 5 (InstrPtr 1);
     Samples.dealloc 6 1; Samples.dealloc 7 2] !! 6 = Some (Samples.dealloc 7 2).
Proof.
  assert (shareBuffers false inplaceTable
            (mkModule [Samples.alloc 1 7; Samples.alloc 2 7;
                       Samples.splat 3 (InstrPtr 1);
                       Samples.elementmax 4 (InstrPtr 2) (InstrPtr 1) (InstrPtr 1);
                       Samples.print 5 (InstrPtr 2);
                       Samples.dealloc 6 1; Samples.dealloc 7 2] [])
          = Ok (mkModule [Samples.alloc 1 7; Samples.alloc 2 7;
                          Samples.splat 3 (InstrPtr 1);
                          Samples.elementmax 4 (InstrPtr 1) (InstrPtr 1) (InstrPtr 1);
                          Samples.print 5 (InstrPtr 1);
                          Samples.dealloc 6 1; Samples.dealloc 7 2] [])) as Hrun
    by (by vm_compute).
  split; [exact Hrun|].
  destruct (shareBuffers_frame false inplaceTable _ _ Hrun) as (_ & _ & Hd).
  exact (Hd 6 (Samples.dealloc 7 2) eq_refl eq_refl).
Defined.

(** ** What copy propagation changes *)

Section CopyFrame.
Variable NDEBUG : bool.

Lemma replaceInside_skeleton val with_ iv i ins :
  skeleton (replaceInside val with_ iv i ins) = skeleton ins.
Proof.
  unfold skeleton, replaceInside. simpl. f_equal.
  rewrite <- list_fmap_compose. apply list_fmap_ext. intros j O _. simpl.
  by destruct (isReplaced val iv i O).
Qed.

Lemma replaceAllUsesWith_skeleton val with_ iv M :
  skeleton <$> getInstrs (replaceAllUsesWith val with_ iv M).1
  = skeleton <$> getInstrs M.
Proof.
  simpl. apply list_eq. intros i.
  rewrite !list_lookup_fmap, list_lookup_imap.
  destruct (getInstrs M !! i) as [ins|]; [|done]. simpl.
  by rewrite replaceInside_skeleton.
Qed.

Lemma copyStep_frame IntervalsMap st i st' :
  copyStep NDEBUG IntervalsMap st i = Ok st' →
  skeleton <$> getInstrs st'.1 = skeleton <$> getInstrs st.1
  ∧ (st'.2 = st.2
     ∨ ∃ ci, getInstrs st.1 !! i = Some ci
             ∧ getKind ci = Kind.CopyInstKind
             ∧ st'.2 = {[self ci]} ∪ st.2).
Proof.
  unfold copyStep.
  destruct (getInstrs st.1 !! i) as [ci|] eqn:Hci;
    [|intros [= <-]; split; [done | by left]].
  destruct (isa Kind.CopyInstKind ci) eqn:Hk; simpl;
    [|intros [= <-]; split; [done | by left]].
  apply bool_decide_eq_true in Hk.
  destruct (getSrc ci) as [Src|]; [|done]. destruct (getDest ci) as [Dest|]; [|done].
  intros H. apply bind_Ok in H as ([] & _ & H).
  destruct (isWeightVar Src).
  - unfold propagateFromWeight in H. destruct (_ || _).
    + injection H as <-. split; [done | by left].
    + apply bind_Ok in H as (M' & HM' & [= <-]). simpl. split.
      * by eapply replaceAllNonDeallocUsersWith_skeleton.
      * right. by exists ci.
  - unfold propagateInInterval in H.
    repeat (case_match; try (injection H as <-; split; [done | by left])).
    apply bind_Ok in H as ([] & _ & H). apply bind_Ok in H as ([] & _ & [= <-]).
    cbn [fst snd]. split.
    + apply replaceAllUsesWith_skeleton.
    + right. by exists ci.
Qed.

Lemma copyLoop_frame IntervalsMap M l st st' :
  foldM (copyStep NDEBUG IntervalsMap) st l = Ok st' →
  skeleton <$> getInstrs st.1 = skeleton <$> getInstrs M →
  (∀ p, p ∈ st.2 → ∃ x, x ∈ getInstrs M ∧ self x = p ∧ getKind x = Kind.CopyInstKind) →
  skeleton <$> getInstrs st'.1 = skeleton <$> getInstrs M
  ∧ ∀ p, p ∈ st'.2 → ∃ x, x ∈ getInstrs M ∧ self x = p ∧ getKind x = Kind.CopyInstKind.
Proof.
  revert st. induction l as [|i l IH]; intros st; simpl.
  - by intros [= <-].
  - intros H Hsk HE. apply bind_Ok in H as (st1 & Hstep & H).
    destruct (copyStep_frame _ _ _ _ Hstep) as [Hsk1 HE1].
    apply (IH st1 H); [by rewrite Hsk1|].
    destruct HE1 as [->|(ci & Hci & Hk & ->)]; [done|].
    intros p [->%elem_of_singleton|Hp]%elem_of_union; [|by apply HE].
    assert (skeleton ci ∈ skeleton <$> getInstrs M) as Hin.
    { rewrite <- Hsk. apply list_elem_of_fmap_2. by eapply list_elem_of_lookup_2. }
    apply list_elem_of_fmap in Hin as (x & Heq & Hx). exists x.
    unfold skeleton in Heq. injection Heq as Hid Hkind _ _ _ _.
    split_and!; [done | unfold self; by rewrite Hid | congruence].
Qed.

(** X17: copy propagation changes the values of operands and erases
    copies, nothing else: the weights are kept; address, kind, name,
    type, attributes and operand kinds of the instructions of the result
    are those of the stream, in the same order, with some left out; no
    instruction other than a Copy is left out. *)
Theorem copyPropagation_frame (M M' : Module) :
  NoDup (iid <$> getInstrs M) →
  copyPropagation NDEBUG M = Ok M' →
  getWeights M' = getWeights M
  ∧ skeleton <$> getInstrs M' `sublist_of` skeleton <$> getInstrs M
  ∧ ∀ ins, ins ∈ getInstrs M → getKind ins ≠ Kind.CopyInstKind →
           ∃ ins', ins' ∈ getInstrs M' ∧ skeleton ins' = skeleton ins.
Proof.
  intros Hnd H. split; [by eapply copyPropagation_weights|].
  unfold copyPropagation in H.
  apply bind_Ok in H as (IntervalsMap & _ & H).
  apply bind_Ok in H as (st & Hloop & [= <-]).
  destruct (copyLoop_frame IntervalsMap M _ _ _ Hloop eq_refl) as [Hsk HE].
  { intros p Hp. by apply not_elem_of_empty in Hp. }
  rewrite eraseInstructions_instrs. split.
  - rewrite <- Hsk. apply fmap_sublist, sublist_filter.
  - intros ins Hin Hk.
    assert (skeleton ins ∈ skeleton <$> getInstrs st.1) as Hin1.
    { rewrite Hsk. by apply list_elem_of_fmap_2. }
    apply list_elem_of_fmap in Hin1 as (ins1 & Heq & Hin1). exists ins1.
    split; [|done]. apply list_elem_of_filter. split; [|done].
    intros (x & Hx & Hself & Hkx)%HE.
    assert (iid ins1 = iid ins) as Hid by (unfold skeleton in Heq; congruence).
    assert (x = ins) as ->; [|done].
    apply (NoDup_iid_inj (getInstrs M)); [done..|].
    apply self_inj in Hself. congruence.
Qed.
End CopyFrame.

(** In [copyChain] the copy goes away and the splat writes the second
    buffer; the other instructions are there as before. *)
Lemma copyPropagation_frame_witness :
  NoDup (iid <$> getInstrs Samples.copyChain)
  ∧ copyPropagation false Samples.copyChain
    = Ok (mkModule [Samples.alloc 1 7; Samples.splat 2 (InstrPtr 3);
                    Samples.alloc 3 7; Samples.dealloc 5 1;
                    Samples.print 6 (InstrPtr 3); Samples.dealloc 7 3] [])
  ∧ skeleton <$> [Samples.alloc 1 7; Samples.splat 2 (InstrPtr 3);
                  Samples.alloc 3 7; Samples.dealloc 5 1;
                  Samples.print 6 (InstrPtr 3); Samples.dealloc 7 3]
    `sublist_of` skeleton <$> getInstrs Samples.copyChain.
Proof.
  assert (NoDup (iid <$> getInstrs Samples.copyChain)) as Hnd.
  { apply (bool_decide_unpack _). by vm_compute. }
  assert (copyPropagation false Samples.copyChain
          = Ok (mkModule [Samples.alloc 1 7; Samples.splat 2 (InstrPtr 3);
                          Samples.alloc 3 7; Samples.dealloc 5 1;
                          Samples.print 6 (InstrPtr 3); Samples.dealloc 7 3] []))
    as Hrun by (by vm_compute).
  split_and!; [exact Hnd | exact Hrun |].
  exact (proj1 (proj2 (copyPropagation_frame false Samples.copyChain _ Hnd Hrun))).
Defined.

(** ** Copy propagation between two allocations: the pass *)

Section CopyPass.
Variable NDEBUG : bool.
Implicit Types (IntervalsMap : gmap Value (list (nat * nat))).

Lemma foldM_app {A B} (f : A → B → result A) (a : A) (l1 l2 : list B) :
  foldM f a (l1 ++ l2) = foldM f a l1 ≫= λ a', foldM f a' l2.
Proof.
  revert a. induction l1 as [|b l1 IH]; intros a; simpl; [done|].
  destruct (f a b); simpl; [apply IH | done..].
Qed.

Lemma skeleton_lookup (l1 l2 : list Instruction) i x :
  skeleton <$> l1 = skeleton <$> l2 → l1 !! i = Some x →
  ∃ y, l2 !! i = Some y ∧ skeleton y = skeleton x.
Proof.
  intros Hsk Hx.
  assert ((skeleton <$> l2) !! i = Some (skeleton x)) as Hy
    by (by rewrite <- Hsk, list_lookup_fmap, Hx).
  rewrite list_lookup_fmap in Hy. destruct (l2 !! i) as [y|]; [|done].
  cbn [fmap option_fmap option_map] in Hy. exists y. split; [done | congruence].
Qed.

Lemma skeleton_self x y : skeleton x = skeleton y → self x = self y.
Proof. unfold skeleton, self. by intros [= -> _ _ _ _ _]. Qed.

Lemma skeleton_kind x y : skeleton x = skeleton y → getKind x = getKind y.
Proof. unfold skeleton. by intros [= _ -> _ _ _ _]. Qed.

Lemma NoDup_iid_lookup (l : list Instruction) i j x y :
  NoDup (iid <$> l) → l !! i = Some x → l !! j = Some y → self x = self y → i = j.
Proof.
  intros Hnd Hi Hj Heq%self_inj.
  apply (NoDup_lookup (iid <$> l) i j (iid x)); [done | |].
  - by rewrite list_lookup_fmap, Hi.
  - by rewrite list_lookup_fmap, Hj, Heq.
Qed.

(** The walk leaves everything as it is at an instruction that is not a
    copy. *)
Lemma copyStep_noncopy IntervalsMap st i :
  (∀ x, getInstrs st.1 !! i = Some x → getKind x ≠ Kind.CopyInstKind) →
  copyStep NDEBUG IntervalsMap st i = Ok st.
Proof.
  intros H. unfold copyStep. destruct (getInstrs st.1 !! i) as [x|]; [|done].
  unfold isa. rewrite bool_decide_false; [done|]. by apply H.
Qed.

Lemma copyLoop_noncopy IntervalsMap st l :
  (∀ j x, j ∈ l → getInstrs st.1 !! j = Some x → getKind x ≠ Kind.CopyInstKind) →
  foldM (copyStep NDEBUG IntervalsMap) st l = Ok st.
Proof.
  induction l as [|j l IH]; intros H; simpl; [done|].
  rewrite copyStep_noncopy.
  - simpl. apply IH. intros j' x Hj'. apply H. by right.
  - intros x. apply H. by left.
Qed.

Lemma copyLoop_skeleton IntervalsMap l st st' :
  foldM (copyStep NDEBUG IntervalsMap) st l = Ok st' →
  skeleton <$> getInstrs st'.1 = skeleton <$> getInstrs st.1.
Proof.
  revert st. induction l as [|i l IH]; intros st; simpl.
  - by intros [= <-].
  - intros H. apply bind_Ok in H as (st1 & Hstep & H).
    destruct (copyStep_frame _ _ _ _ _ Hstep) as [Hsk1 _].
    by rewrite (IH st1 H).
Qed.

(** The instructions that the walk over the indices [l] marks stand at
    these indices. *)
Lemma copyLoop_erased_at IntervalsMap M l st st' :
  foldM (copyStep NDEBUG IntervalsMap) st l = Ok st' →
  skeleton <$> getInstrs st.1 = skeleton <$> getInstrs M →
  ∀ p, p ∈ st'.2 →
    p ∈ st.2 ∨ ∃ j x, j ∈ l ∧ getInstrs M !! j = Some x ∧ self x = p.
Proof.
  revert st. induction l as [|i l IH]; intros st; simpl.
  - intros [= <-] _ p Hp. by left.
  - intros H Hsk p Hp. apply bind_Ok in H as (st1 & Hstep & H).
    destruct (copyStep_frame _ _ _ _ _ Hstep) as [Hsk1 HE1].
    destruct (IH st1 H (eq_trans Hsk1 Hsk) p Hp) as [Hp1|(j & x & Hj & Hx & Hself)].
    + destruct HE1 as [HE1|(ci & Hci & _ & HE1)]; rewrite HE1 in Hp1; [by left|].
      apply elem_of_union in Hp1 as [->%elem_of_singleton|Hp1]; [|by left].
      destruct (skeleton_lookup _ _ _ _ Hsk Hci) as (y & Hy & Hyc).
      right. exists i, y. split_and!; [by left | done | by apply skeleton_self].
    + right. exists j, x. split_and!; [by right | done | done].
Qed.

(** Erasing the one instruction at the index [i]. *)
Lemma filter_erase_one (l : list Instruction) i c :
  NoDup (iid <$> l) → l !! i = Some c →
  filter (λ x, self x ∉ ({[self c]} ∪ ∅ : gset Value)) l = delete i l.
Proof.
  intros Hnd Hi.
  pose proof (take_drop_middle l i c Hi) as Hl.
  destruct (NoDup_iid_split l _ c _ Hnd (eq_sym Hl)) as [HA HB].
  rewrite delete_take_drop. rewrite <- Hl at 1.
  rewrite filter_app, filter_cons_False.
  - rewrite !filter_all; [done | |]; apply Forall_forall; intros x Hx;
      rewrite elem_of_union, elem_of_singleton; intros [?|?%not_elem_of_empty];
      [by apply (HB x) | done | by apply (HA x) | done].
  - intros Hnot. apply Hnot. apply elem_of_union_l. by apply elem_of_singleton.
Qed.

(** C3: the walk of [copyPropagation] over the module [M], with the
    intervals it computes at its start, at a copy from [Src] to [Dest]
    that stands at the index [i], both values with an interval that
    encloses [i] ([SI] and [DI]).  The propagation fires exactly when
    [SI] ends at or before the start of [DI], or [DI] is enclosed in
    [SI] ([SI.begin < DI.begin] and [DI.end <= SI.end]): when it does
    not the iteration changes nothing, and the copy is missing from what
    the pass returns exactly when it does.  When it fires, every operand
    that references [Src] in an instruction inside the index range of
    [SI] is redirected to [Dest], except the operands at the index
    [SI.begin] whose kind is not Out, and nothing else changes in that
    iteration.  When the copy is the only one of the stream, the pass
    returns the module itself if the propagation does not fire, and the
    stream with these operands redirected and the copy taken out if it
    does. *)
Theorem copyPropagation_between_allocations (M : Module) IntervalsMap
    (i : nat) (Mi : Module) (Ei : gset Value) (ci : Instruction)
    (Src Dest : Value) (SI DI : nat * nat) :
  NoDup (iid <$> getInstrs M) →
  calculateLiveIntervals NDEBUG M = Ok IntervalsMap →
  foldM (copyStep NDEBUG IntervalsMap) (M, ∅) (seq 0 i) = Ok (Mi, Ei) →
  getInstrs Mi !! i = Some ci →
  isa Kind.CopyInstKind ci = true →
  getSrc ci = Some Src →
  getDest ci = Some Dest →
  isWeightVar Src = false →
  typeOf Mi Src = typeOf Mi Dest →
  getEnclosingInterval (default [] (IntervalsMap !! Src)) i = Some SI →
  getEnclosingInterval (default [] (IntervalsMap !! Dest)) i = Some DI →
  (∀ M', copyPropagation NDEBUG M = Ok M' →
     ∃ st1 st',
       copyStep NDEBUG IntervalsMap (Mi, Ei) i = Ok st1
       ∧ foldM (copyStep NDEBUG IntervalsMap) st1
           (seq (S i) (length (getInstrs M) - S i)) = Ok st'
       ∧ M' = eraseInstructions st'.1 st'.2
       ∧ (SI.2 ≤ DI.1 ∨ (SI.1 < DI.1 ∧ DI.2 ≤ SI.2)
          ↔ ∀ x, x ∈ getInstrs M' → self x ≠ self ci)
       ∧ (¬ (SI.2 ≤ DI.1 ∨ (SI.1 < DI.1 ∧ DI.2 ≤ SI.2)) → st1 = (Mi, Ei))
       ∧ (SI.2 ≤ DI.1 ∨ (SI.1 < DI.1 ∧ DI.2 ≤ SI.2) →
          st1.2 = {[self ci]} ∪ Ei
          ∧ getWeights st1.1 = getWeights Mi
          ∧ length (getInstrs st1.1) = length (getInstrs Mi)
          ∧ ∀ j ins, getInstrs Mi !! j = Some ins →
              ∃ ops, getInstrs st1.1 !! j = Some (setOperands ins ops)
                     ∧ length ops = length (getOperands ins)
                     ∧ ∀ k v kd, getOperands ins !! k = Some (v, kd) →
                         ops !! k
                         = Some (if decide (SI.1 ≤ j ≤ SI.2 ∧ v = Src
                                            ∧ (j = SI.1 → kd = OperandKind.Out))
                                 then Dest else v, kd)))
  ∧ (¬ (SI.2 ≤ DI.1 ∨ (SI.1 < DI.1 ∧ DI.2 ≤ SI.2)) →
     copyStep NDEBUG IntervalsMap (Mi, Ei) i = Ok (Mi, Ei))
  ∧ (SI.2 ≤ DI.1 ∨ (SI.1 < DI.1 ∧ DI.2 ≤ SI.2) → NDEBUG = true →
     ∃ st, copyStep NDEBUG IntervalsMap (Mi, Ei) i = Ok st)
  ∧ ((∀ j x, getInstrs M !! j = Some x → j ≠ i → getKind x ≠ Kind.CopyInstKind) →
     Mi = M ∧ Ei = ∅
     ∧ (¬ (SI.2 ≤ DI.1 ∨ (SI.1 < DI.1 ∧ DI.2 ≤ SI.2)) →
        copyPropagation NDEBUG M = Ok M)
     ∧ (SI.2 ≤ DI.1 ∨ (SI.1 < DI.1 ∧ DI.2 ≤ SI.2) →
        (NDEBUG = true → ∃ M', copyPropagation NDEBUG M = Ok M')
        ∧ ∀ M', copyPropagation NDEBUG M = Ok M' →
            getWeights M' = getWeights M
            ∧ ∃ l1,
                getInstrs M' = delete i l1
                ∧ length l1 = length (getInstrs M)
                ∧ ∀ j ins, getInstrs M !! j = Some ins →
                    ∃ ops, l1 !! j = Some (setOperands ins ops)
                           ∧ length ops = length (getOperands ins)
                           ∧ ∀ k v kd, getOperands ins !! k = Some (v, kd) →
                               ops !! k
                               = Some (if decide (SI.1 ≤ j ≤ SI.2 ∧ v = Src
                                                  ∧ (j = SI.1 → kd = OperandKind.Out))
                                       then Dest else v, kd))).
Proof.
  intros Hnd Hcalc Hpre Hi Hcopy Hsrc Hdest Hw Hty HSI HDI.
  (* the state of the walk at the copy *)
  pose proof (copyLoop_skeleton _ _ _ _ Hpre) as Hski. cbn [fst] in Hski.
  destruct (skeleton_lookup _ _ _ _ Hski Hi) as (y & Hy & Hyc).
  assert (i < length (getInstrs M)) as Hlen by (by eapply lookup_lt_Some).
  assert (self ci ∉ Ei) as HnotEi.
  { intros Hin.
    destruct (copyLoop_erased_at IntervalsMap M _ _ _ Hpre eq_refl _ Hin)
      as [Hin'|(j & x & Hj & Hx & Hself)]; [by apply not_elem_of_empty in Hin'|].
    apply elem_of_seq in Hj.
    assert (j = i); [|lia].
    apply (NoDup_iid_lookup (getInstrs M) j i x y); [done..|].
    rewrite Hself. symmetry. by apply skeleton_self. }
  destruct (copyStep_fires NDEBUG IntervalsMap Mi Ei i ci Src Dest SI DI
              Hi Hcopy Hsrc Hdest Hw Hty HSI HDI)
    as (Hstay & Hdef & Hiff & Hfire).
  assert (seq 0 (length (getInstrs M))
          = seq 0 i ++ i :: seq (S i) (length (getInstrs M) - S i)) as Hseq.
  { replace (length (getInstrs M)) with (i + S (length (getInstrs M) - S i)) at 1
      by lia.
    by rewrite seq_app. }
  assert (∀ M', copyPropagation NDEBUG M = Ok M' ↔
            ∃ st1 st',
              copyStep NDEBUG IntervalsMap (Mi, Ei) i = Ok st1
              ∧ foldM (copyStep NDEBUG IntervalsMap) st1
                  (seq (S i) (length (getInstrs M) - S i)) = Ok st'
              ∧ M' = eraseInstructions st'.1 st'.2) as Hpass.
  { intros M'. unfold copyPropagation. rewrite Hcalc. cbn [mbind result_bind].
    rewrite Hseq, foldM_app, Hpre. cbn [mbind result_bind foldM]. split.
    - intros (st' & Hrun & [= <-])%bind_Ok.
      apply bind_Ok in Hrun as (st1 & Hstep & Hrun). by exists st1, st'.
    - intros (st1 & st' & Hstep & Hrun & ->).
      rewrite Hstep. cbn [mbind result_bind]. by rewrite Hrun. }
  split_and!.
  - intros M' (st1 & st' & Hstep & Hrun & ->)%Hpass.
    exists st1, st'. split_and!; [done | done | done | | |].
    + destruct st1 as [M1 E1].
      destruct (copyStep_frame _ _ _ _ _ Hstep) as [Hsk1 _]. cbn [fst snd] in Hsk1.
      pose proof (copyLoop_skeleton _ _ _ _ Hrun) as Hsk'. cbn [fst] in Hsk'.
      rewrite Hsk1, Hski in Hsk'.
      rewrite <- (Hiff M1 E1 Hstep HnotEi).
      assert (self ci ∈ E1 ↔ self ci ∈ st'.2) as ->.
      { split.
        - intros Hin. by apply (copyLoop_erased_mono _ _ _ _ _ Hrun).
        - intros Hin.
          destruct (copyLoop_erased_at IntervalsMap M _ _ _ Hrun
                      (eq_trans Hsk1 Hski) _ Hin)
            as [Hin'|(j & x & Hj & Hx & Hself)]; [done|].
          apply elem_of_seq in Hj.
          assert (j = i); [|lia].
          apply (NoDup_iid_lookup (getInstrs M) j i x y); [done..|].
          rewrite Hself. symmetry. by apply skeleton_self. }
      rewrite eraseInstructions_instrs. split.
      * intros Hin x [Hx _]%list_elem_of_filter Heq. apply Hx. by rewrite Heq.
      * intros Hall. destruct (decide (self ci ∈ st'.2)) as [|Hnot]; [done|].
        exfalso.
        destruct (skeleton_lookup (getInstrs M) (getInstrs st'.1) i y
                    (eq_sym Hsk') Hy) as (z & Hz & Hzy).
        assert (self z = self ci) as Hzc.
        { rewrite (skeleton_self _ _ Hzy). by apply skeleton_self. }
        apply (Hall z); [|done].
        apply list_elem_of_filter. split; [by rewrite Hzc|].
        by eapply list_elem_of_lookup_2.
    + intros Hnot. rewrite (Hstay Hnot) in Hstep. by injection Hstep.
    + intros Hyes. destruct st1 as [M1 E1].
      destruct (Hfire Hyes M1 E1 Hstep) as (HE & HW & HL & Hops & _).
      by split_and!.
  - done.
  - done.
  - intros Honly.
    assert (foldM (copyStep NDEBUG IntervalsMap) (M, ∅) (seq 0 i) = Ok (M, ∅))
      as Hpre'.
    { apply copyLoop_noncopy. intros j x Hj%elem_of_seq Hx.
      apply (Honly j x Hx). lia. }
    rewrite Hpre' in Hpre. injection Hpre as <- <-.
    assert (∀ st1, copyStep NDEBUG IntervalsMap (M, ∅) i = Ok st1 →
              foldM (copyStep NDEBUG IntervalsMap) st1
                (seq (S i) (length (getInstrs M) - S i)) = Ok st1) as Hrest.
    { intros st1 Hstep. apply copyLoop_noncopy. intros j x Hj%elem_of_seq Hx.
      destruct (copyStep_frame _ _ _ _ _ Hstep) as [Hsk1 _]. cbn [fst] in Hsk1.
      destruct (skeleton_lookup _ _ _ _ Hsk1 Hx) as (x' & Hx' & Hxx).
      rewrite <- (skeleton_kind _ _ Hxx). apply (Honly j x' Hx'). lia. }
    split_and!; [done | done | |].
    + intros Hnot. apply Hpass. exists (M, ∅), (M, ∅).
      split_and!; [by apply Hstay | by apply Hrest, Hstay |].
      by rewrite eraseInstructions_none.
    + intros Hyes. split.
      * intros Hnd'. destruct (Hdef Hyes Hnd') as [st1 Hstep].
        exists (eraseInstructions st1.1 st1.2). apply Hpass.
        exists st1, st1. split_and!; [done | by apply Hrest | done].
      * intros M' (st1 & st' & Hstep & Hrun & ->)%Hpass.
        rewrite (Hrest st1 Hstep) in Hrun. injection Hrun as <-.
        destruct st1 as [M1 E1].
        destruct (Hfire Hyes M1 E1 Hstep) as (-> & HW & HL & Hops & _).
        cbn [fst snd]. split.
        -- destruct (eraseAll_pointers M1 (elements ({[self ci]} ∪ ∅ : gset Value)))
             as [_ HW']. unfold eraseInstructions. by rewrite HW'.
        -- exists (getInstrs M1). split_and!; [|done|done].
           rewrite eraseInstructions_instrs.
           destruct (Hops i ci Hi) as (ops & Hi1 & _).
           assert (self (setOperands ci ops) = self ci) as <- by done.
           apply filter_erase_one; [|done].
           destruct (copyStep_frame _ _ _ _ _ Hstep) as [Hsk1 _]. cbn [fst] in Hsk1.
           assert (iid <$> getInstrs M1 = iid <$> getInstrs M) as ->; [|done].
           assert (∀ l : list Instruction, iid <$> l = (λ s, s.1.1.1.1.1) <$> (skeleton <$> l))
             as Hid by (intros l; by rewrite <- list_fmap_compose).
           by rewrite !Hid, Hsk1.
Qed.
End CopyPass.

(** In [copyChain] the copy stands at the index 3; the interval of its
    source ends where that of its destination starts, the propagation
    fires, and the pass returns the stream without the copy, the splat
    writing the second buffer. *)
Lemma copyPropagation_between_allocations_witness :
  NoDup (iid <$> getInstrs Samples.copyChain)
  ∧ (∃ IntervalsMap,
       calculateLiveIntervals false Samples.copyChain = Ok IntervalsMap
       ∧ IntervalsMap !! InstrPtr 1 = Some [(1, 3)]
       ∧ IntervalsMap !! InstrPtr 3 = Some [(3, 5)])
  ∧ copyPropagation false Samples.copyChain
    = Ok (mkModule [Samples.alloc 1 7; Samples.splat 2 (InstrPtr 3);
                    Samples.alloc 3 7; Samples.dealloc 5 1;
                    Samples.print 6 (InstrPtr 3); Samples.dealloc 7 3] [])
  ∧ ∀ x, x ∈ [Samples.alloc 1 7; Samples.splat 2 (InstrPtr 3);
              Samples.alloc 3 7; Samples.dealloc 5 1;
              Samples.print 6 (InstrPtr 3); Samples.dealloc 7 3] →
         self x ≠ InstrPtr 4.
Proof.
  assert (NoDup (iid <$> getInstrs Samples.copyChain)) as Hnd.
  { apply (bool_decide_unpack _). by vm_compute. }
  assert (∃ IntervalsMap,
            calculateLiveIntervals false Samples.copyChain = Ok IntervalsMap
            ∧ IntervalsMap !! InstrPtr 1 = Some [(1, 3)]
            ∧ IntervalsMap !! InstrPtr 3 = Some [(3, 5)]) as (IM & HIM & H1 & H3).
  { eexists. split_and!; vm_compute; reflexivity. }
  assert (copyPropagation false Samples.copyChain
          = Ok (mkModule [Samples.alloc 1 7; Samples.splat 2 (InstrPtr 3);
                          Samples.alloc 3 7; Samples.dealloc 5 1;
                          Samples.print 6 (InstrPtr 3); Samples.dealloc 7 3] []))
    as Hrun by (by vm_compute).
  split_and!; [exact Hnd | by exists IM | exact Hrun |].
  destruct (copyPropagation_between_allocations false Samples.copyChain IM 3
              Samples.copyChain ∅ (Samples.copy 4 (InstrPtr 3) (InstrPtr 1))
              (InstrPtr 1) (InstrPtr 3) (1, 3) (3, 5) Hnd HIM)
    as (Hpass & _); [reflexivity.. | by rewrite H1 | by rewrite H3 |].
  destruct (Hpass _ Hrun) as (st1 & st' & _ & _ & _ & Hiff & _).
  apply Hiff. left. simpl. lia.
Defined.

(** ** Copy propagation from a weight *)

Section CopyFromWeight.
Variable NDEBUG : bool.

Lemma replaceAllNonDeallocUsersWith_users M val with_ M' U :
  replaceAllNonDeallocUsersWith NDEBUG M val with_ = Ok M' →
  val ≠ with_ → U ∈ getUsers M' val → isDealloc U.1 = true.
Proof.
  intros ->%replaceAllNonDeallocUsersWith_Ok Hne HU.
  apply elem_of_getUsers in HU as [HU Hop]. simpl in HU.
  apply list_elem_of_fmap in HU as (ins & HU & _).
  destruct (isDealloc ins) eqn:Hd; [by rewrite HU|].
  rewrite HU in Hop. unfold replaceUses in Hop. simpl in Hop.
  apply list_elem_of_fmap in Hop as (op & Hop & _).
  unfold replaceOperand in Hop.
  destruct (decide (op.1 = val)) as [Heq|Hne']; [by injection Hop as -> _|].
  destruct op as [v k]. simpl in *. by injection Hop as -> _.
Qed.

Lemma replaceAllNonDeallocUsersWith_operands M val with_ M' j ins :
  replaceAllNonDeallocUsersWith NDEBUG M val with_ = Ok M' →
  getInstrs M !! j = Some ins → isDealloc ins = false →
  ∃ ins', getInstrs M' !! j = Some ins'
          ∧ ∀ k op, getOperands ins !! k = Some op →
                    getOperands ins' !! k
                    = Some (if decide (op.1 = val) then (with_, op.2) else op).
Proof.
  intros ->%replaceAllNonDeallocUsersWith_Ok Hj Hd. simpl.
  exists (replaceUses val with_ ins). split.
  - by rewrite list_lookup_fmap, Hj; simpl; rewrite Hd.
  - intros k op Hk. unfold replaceUses. simpl. by rewrite list_lookup_fmap, Hk.
Qed.

(** X18: at a copy whose source is a weight, the propagation fires
    exactly when the weight is Constant, the copy is the single writer of
    its destination, and the destination is no weight.  When it fires
    the copy joins the instructions to erase and every operand that
    references the destination in an instruction other than a dealloc is
    redirected to the weight, so that only deallocs use the destination
    afterwards; nothing else changes.  Otherwise the step changes
    nothing. *)
Theorem copyStep_from_weight IntervalsMap (M : Module) (erased : gset Value)
    (i : nat) (ci : Instruction) (Src Dest : Value) :
  getInstrs M !! i = Some ci →
  isa Kind.CopyInstKind ci = true →
  getSrc ci = Some Src →
  getDest ci = Some Dest →
  isWeightVar Src = true →
  typeOf M Src = typeOf M Dest →
  (¬ (mutabilityOf M Src = MutabilityKind.Constant
      ∧ self <$> getSingleWriter M Dest = Some (self ci)
      ∧ isWeightVar Dest = false) →
   copyStep NDEBUG IntervalsMap (M, erased) i = Ok (M, erased))
  ∧ (mutabilityOf M Src = MutabilityKind.Constant
     ∧ self <$> getSingleWriter M Dest = Some (self ci)
     ∧ isWeightVar Dest = false →
     ∃ M', copyStep NDEBUG IntervalsMap (M, erased) i = Ok (M', {[self ci]} ∪ erased)
           ∧ getWeights M' = getWeights M
           ∧ skeleton <$> getInstrs M' = skeleton <$> getInstrs M
           ∧ (∀ j d, getInstrs M !! j = Some d → isDealloc d = true →
                     getInstrs M' !! j = Some d)
           ∧ (∀ j ins, getInstrs M !! j = Some ins → isDealloc ins = false →
                ∃ ins', getInstrs M' !! j = Some ins'
                        ∧ ∀ k op, getOperands ins !! k = Some op →
                                  getOperands ins' !! k
                                  = Some (if decide (op.1 = Dest)
                                          then (Src, op.2) else op))
           ∧ ∀ U, U ∈ getUsers M' Dest → isDealloc U.1 = true).
Proof.
  intros Hci Hk Hsrc Hdest Hw Hty.
  assert (copyStep NDEBUG IntervalsMap (M, erased) i
          = propagateFromWeight NDEBUG M ci Src Dest erased) as ->.
  { unfold copyStep. cbn [fst snd]. rewrite Hci, Hk, Hsrc, Hdest. cbn [negb].
    unfold assert. rewrite bool_decide_true, orb_true_r by done.
    cbv beta iota delta [mbind result_bind]. by rewrite Hw. }
  unfold propagateFromWeight. split.
  - intros Hnot.
    destruct (bool_decide (mutabilityOf M Src = MutabilityKind.Mutable)) eqn:Hm;
      [done|].
    destruct (bool_decide (self <$> getSingleWriter M Dest ≠ Some (self ci))) eqn:Hs;
      [done|].
    destruct (isWeightVar Dest) eqn:Hd; [done|]. exfalso. apply Hnot.
    apply bool_decide_eq_false in Hm, Hs. split_and!; [|by apply dec_stable|done].
    by destruct (mutabilityOf M Src).
  - intros (Hm & Hs & Hd).
    rewrite bool_decide_false by congruence.
    rewrite bool_decide_false by (intros Hn; by apply Hn).
    rewrite Hd. cbn [orb].
    assert (Dest ≠ Src) as Hne by (intros ->; congruence).
    assert (∃ M', replaceAllNonDeallocUsersWith NDEBUG M Dest Src = Ok M') as [M' HM'].
    { unfold replaceAllNonDeallocUsersWith, assert.
      rewrite bool_decide_true, orb_true_r by done. by eauto. }
    rewrite HM'. exists M'. split_and!.
    + done.
    + by eapply replaceAllNonDeallocUsersWith_weights.
    + by eapply replaceAllNonDeallocUsersWith_skeleton.
    + intros j d. by eapply replaceAllNonDeallocUsersWith_dealloc.
    + intros j ins. by eapply replaceAllNonDeallocUsersWith_operands.
    + intros U. by eapply replaceAllNonDeallocUsersWith_users.
Qed.
End CopyFromWeight.

(** A buffer that is filled from a constant weight and printed: the
    print reads the weight after the step, and only the dealloc still
    mentions the buffer. *)
Lemma copyStep_from_weight_witness :
  ∃ M', copyStep false ∅
          (mkModule [Samples.alloc 1 7; Samples.copy 2 (InstrPtr 1) (WeightPtr 1);
                     Samples.print 3 (InstrPtr 1); Samples.dealloc 4 1]
             [Samples.weight 1 MutabilityKind.Constant], ∅) 1
        = Ok (M', {[InstrPtr 2]} ∪ ∅)
        ∧ getInstrs M' !! 2 = Some (Samples.print 3 (WeightPtr 1)).
Proof.
  destruct (copyStep_from_weight false ∅
              (mkModule [Samples.alloc 1 7; Samples.copy 2 (InstrPtr 1) (WeightPtr 1);
                         Samples.print 3 (InstrPtr 1); Samples.dealloc 4 1]
                 [Samples.weight 1 MutabilityKind.Constant]) ∅ 1
              (Samples.copy 2 (InstrPtr 1) (WeightPtr 1)) (WeightPtr 1) (InstrPtr 1)
              eq_refl eq_refl eq_refl eq_refl eq_refl eq_refl) as [_ Hfire].
  destruct Hfire as (M' & Hrun & _ & _ & _ & Hops & _).
  { split_and!; [reflexivity | by vm_compute | reflexivity]. }
  exists M'. split; [exact Hrun|].
  destruct (Hops 2 (Samples.print 3 (InstrPtr 1)) eq_refl eq_refl)
    as (ins' & Hins' & _).
  rewrite Hins'. f_equal.
  assert (copyStep false ∅
            (mkModule [Samples.alloc 1 7; Samples.copy 2 (InstrPtr 1) (WeightPtr 1);
                       Samples.print 3 (InstrPtr 1); Samples.dealloc 4 1]
               [Samples.weight 1 MutabilityKind.Constant], ∅) 1
          = Ok (mkModule [Samples.alloc 1 7; Samples.copy 2 (WeightPtr 1) (WeightPtr 1);
                          Samples.print 3 (WeightPtr 1); Samples.dealloc 4 1]
                  [Samples.weight 1 MutabilityKind.Constant], {[InstrPtr 2]} ∪ ∅))
    as Hval by (by vm_compute).
  rewrite Hval in Hrun. injection Hrun as <-. simpl in Hins'. by injection Hins'.
Defined.

(** ** Peephole rewrites that drop a cache *)

Section PeepholeRewrite.
Variable NDEBUG : bool.

(** The walk over a stretch of instructions that the pass leaves alone. *)
Lemma peepholeLoop_skip M A1 A2 B fuel :
  NoDup (iid <$> getInstrs M) →
  getInstrs M = A1 ++ A2 ++ B →
  Forall (λ ins, ∀ it, peepholeStep NDEBUG M ins it = Ok (M, it)) A2 →
  peepholeLoop NDEBUG (length A2 + fuel) M (self <$> head (A2 ++ B))
  = peepholeLoop NDEBUG fuel M (self <$> head B).
Proof.
  intros Hnd. revert A1. induction A2 as [|x A2 IH]; intros A1 Heq Hall; [done|].
  apply Forall_cons in Hall as [Hx Hall].
  change ((x :: A2) ++ B) with (x :: A2 ++ B) in Heq.
  destruct (NoDup_iid_split _ A1 x (A2 ++ B) Hnd Heq) as [HA _].
  change (self <$> head ((x :: A2) ++ B)) with (Some (self x)).
  change (length (x :: A2) + fuel) with (S (length A2 + fuel)).
  cbn [peepholeLoop]. unfold getInstr.
  rewrite Heq, (findInstr_app_cons A1 x (A2 ++ B) HA), <- Heq, Hx.
  cbv beta iota delta [mbind result_bind]. cbn [fst snd].
  rewrite Heq, (next_app_cons A1 x (A2 ++ B) HA).
  apply (IH (A1 ++ [x])); [|done]. rewrite Heq. assoc.
Qed.

Lemma peepholeLoop_end fuel M : peepholeLoop NDEBUG fuel M None = Ok M.
Proof. by destruct fuel. Qed.

(** A new instruction takes the place of the one it replaces. *)
Lemma replaceBy_create M A cur B k name ty ops attrs :
  NoDup (iid <$> getInstrs M) →
  getInstrs M = A ++ cur :: B →
  replaceBy (create M k name ty ops attrs).1 cur (create M k name ty ops attrs).2
  = (setInstrs M (A ++ mkInstruction (freshId (getInstrs M)) k name ty ops attrs :: B),
     Some (InstrPtr (freshId (getInstrs M)))).
Proof.
  intros Hnd Heq. unfold replaceBy, create, moveBefore, moveInstruction. cbn [fst snd].
  set (new := mkInstruction (freshId (getInstrs M)) k name ty ops attrs).
  assert (∀ x, x ∈ getInstrs M → self x ≠ self new) as Hfresh.
  { intros x Hx [= Hid]. apply maxId_ge in Hx. unfold freshId in Hid. lia. }
  destruct (NoDup_iid_split _ A cur B Hnd Heq) as [HA HB].
  unfold setInstrs, eraseInstruction, insertInstruction. cbn [getInstrs getWeights].
  assert (removeInstruction (getInstrs M ++ [new]) (self new) = getInstrs M) as ->.
  { rewrite <- (app_nil_r (getInstrs M)) at 2.
    apply (removeInstruction_app_cons (getInstrs M) new []); [done|].
    intros b Hb. by apply elem_of_nil in Hb. }
  assert (removeInstruction (A ++ new :: cur :: B) (self cur) = A ++ new :: B)
    as Hrm.
  { replace (A ++ new :: cur :: B) with ((A ++ [new]) ++ cur :: B) by assoc.
    replace (A ++ new :: B) with ((A ++ [new]) ++ B) by assoc.
    apply removeInstruction_app_cons; [|done].
    intros a [Ha|Ha%list_elem_of_singleton]%elem_of_app; [by apply HA|].
    subst a. intros Heq'. apply (Hfresh cur); [|done].
    rewrite Heq. apply elem_of_app. right. by left. }
  assert (insertBefore (self cur) new (getInstrs M) = A ++ new :: cur :: B) as ->
    by (rewrite Heq; by apply insertBefore_app_cons).
  unfold removeInstruction in Hrm. by rewrite Hrm.
Qed.

(** The pass on a stream in which one instruction is rewritten into one
    new instruction of a kind the pass has no rule for. *)
Lemma peepholeLoop_single M A cur B k name ty ops attrs :
  NoDup (iid <$> getInstrs M) →
  getInstrs M = A ++ cur :: B →
  Forall (λ ins, isPeepholeKind (getKind ins) = false) (A ++ B) →
  isPeepholeKind k = false →
  (∀ it, peepholeStep NDEBUG M cur it
         = Ok (replaceBy (create M k name ty ops attrs).1 cur
                 (create M k name ty ops attrs).2)) →
  performPeepholeOptimizations NDEBUG M
  = Ok (setInstrs M
          (A ++ mkInstruction (freshId (getInstrs M)) k name ty ops attrs :: B)).
Proof.
  intros Hnd Heq Hall Hk Hstep. apply Forall_app in Hall as [HallA HallB].
  unfold performPeepholeOptimizations, begin_.
  replace (3 * length (getInstrs M))
    with (length A + S (length A + length A + 2 + 3 * length B))
    by (rewrite Heq, length_app; simpl; lia).
  rewrite Heq at 1.
  rewrite (peepholeLoop_skip M [] A (cur :: B)); [|done|done|].
  2: { eapply Forall_impl; [exact HallA|]. intros x Hx it. by apply peepholeStep_other. }
  destruct (NoDup_iid_split _ A cur B Hnd Heq) as [HA _].
  change (self <$> head (cur :: B)) with (Some (self cur)).
  cbn [peepholeLoop]. unfold getInstr.
  rewrite Heq, (findInstr_app_cons A cur B HA), <- Heq, Hstep.
  rewrite (replaceBy_create M A cur B k name ty ops attrs Hnd Heq).
  cbv beta iota delta [mbind result_bind]. cbn [fst snd].
  set (new := mkInstruction (freshId (getInstrs M)) k name ty ops attrs).
  assert (NoDup (iid <$> (A ++ new :: B))) as Hnd'.
  { rewrite Heq in Hnd. rewrite fmap_app, fmap_cons in Hnd |- *.
    apply NoDup_app in Hnd as (HndA & Hdisj & HndB).
    apply NoDup_cons in HndB as [_ HndB].
    assert (∀ x, x ∈ A ++ cur :: B → iid x ≠ iid new) as Hfresh.
    { intros x Hx Hid. rewrite <- Heq in Hx. apply maxId_ge in Hx.
      simpl in Hid. unfold freshId in Hid. lia. }
    apply NoDup_app. split_and!; [done | |].
    - intros n Hn [->|Hin]%elem_of_cons.
      + apply list_elem_of_fmap in Hn as (x & Hid & Hx).
        apply (Hfresh x); [apply elem_of_app; by left | done].
      + apply (Hdisj n Hn). by right.
    - apply NoDup_cons. split; [|done].
      intros (x & Hid & Hx)%list_elem_of_fmap.
      apply (Hfresh x); [apply elem_of_app; right; by right | done]. }
  apply (peepholeLoop_other NDEBUG (setInstrs M (A ++ new :: B)) A (new :: B));
    [done | done | by apply Forall_cons | simpl; lia].
Qed.
End PeepholeRewrite.

Section PeepholeCaches.
Variable NDEBUG : bool.

Lemma peephole_identity M :
  NoDup (iid <$> getInstrs M) →
  Forall (λ ins, ∀ it, peepholeStep NDEBUG M ins it = Ok (M, it)) (getInstrs M) →
  performPeepholeOptimizations NDEBUG M = Ok M.
Proof.
  intros Hnd Hall. unfold performPeepholeOptimizations, begin_.
  replace (3 * length (getInstrs M))
    with (length (getInstrs M) + 2 * length (getInstrs M)) by lia.
  rewrite <- (app_nil_r (getInstrs M)) at 3.
  rewrite (peepholeLoop_skip NDEBUG M [] (getInstrs M) []);
    [apply peepholeLoop_end | done | by rewrite app_nil_r | done].
Qed.

Lemma peephole_stretch M A cur B :
  Forall (λ ins, isPeepholeKind (getKind ins) = false) (A ++ B) →
  (∀ it, peepholeStep NDEBUG M cur it = Ok (M, it)) →
  Forall (λ ins, ∀ it, peepholeStep NDEBUG M ins it = Ok (M, it)) (A ++ cur :: B).
Proof.
  intros [HA HB]%Forall_app Hcur. apply Forall_app. split; [|apply Forall_cons; split].
  - eapply Forall_impl; [exact HA|]. intros x Hx it. by apply peepholeStep_other.
  - done.
  - eapply Forall_impl; [exact HB|]. intros x Hx it. by apply peepholeStep_other.
Qed.

(** X19: a PoolMaxWithXY whose XY cache is an allocation with exactly
    two users is replaced, at its place in the stream, by a PoolMax with
    the same name, destination, source, kernel, stride and pad; with any
    other cache it stays.  (On a stream of distinct instructions in
    which the pass has no rule for the other instructions.) *)
Theorem peephole_drops_pool_cache (M : Module) (A B : list Instruction)
    (cur : Instruction) (Dest Src SrcXY : Value) :
  NoDup (iid <$> getInstrs M) →
  getInstrs M = A ++ cur :: B →
  Forall (λ ins, isPeepholeKind (getKind ins) = false) (A ++ B) →
  getKind cur = Kind.PoolMaxWithXYInstKind →
  getOperandValue cur 0 = Some Dest →
  getOperandValue cur 1 = Some Src →
  getOperandValue cur 2 = Some SrcXY →
  (isAllocValue M SrcXY = true ∧ getNumUsers M SrcXY = 2 →
   performPeepholeOptimizations NDEBUG M
   = Ok (setInstrs M
           (A ++ mkInstruction (freshId (getInstrs M)) Kind.PoolMaxInstKind
                   (getName cur) (getType cur)
                   [(Dest, OperandKind.Out); (Src, OperandKind.In)] (getAttrs cur)
              :: B)))
  ∧ (¬ (isAllocValue M SrcXY = true ∧ getNumUsers M SrcXY = 2) →
     performPeepholeOptimizations NDEBUG M = Ok M).
Proof.
  intros Hnd Heq Hall Hk H0 H1 H2. split.
  - intros [Ha Hn]. apply (peepholeLoop_single NDEBUG M A cur B); [done..|].
    intros it. unfold peepholeStep. rewrite Hk, H0, H1, H2, Ha, Hn. done.
  - intros Hnot. apply peephole_identity; [done|]. rewrite Heq.
    apply peephole_stretch; [done|]. intros it.
    unfold peepholeStep. rewrite Hk, H0, H1, H2.
    destruct (isAllocValue M SrcXY); [|done].
    destruct (getNumUsers M SrcXY =? 2) eqn:Hn; [|done].
    apply Nat.eqb_eq in Hn. by destruct Hnot.
Qed.

(** X20: a SoftMaxWithE whose cache E is read by no other instruction
    (no operand other than Out, of another instruction, has the origin
    of E as its value) is replaced, at its place in the stream, by a
    SoftMax with the same name, destination, source and selected; a
    SoftMaxWithE whose cache is read elsewhere stays.  (On a stream of
    distinct instructions in which the pass has no rule for the other
    instructions.) *)
Theorem peephole_drops_softmax_cache (M : Module) (A B : list Instruction)
    (cur : Instruction) (Dest Src Selected E : Value) :
  NoDup (iid <$> getInstrs M) →
  getInstrs M = A ++ cur :: B →
  Forall (λ ins, isPeepholeKind (getKind ins) = false) (A ++ B) →
  getKind cur = Kind.SoftMaxWithEInstKind →
  getOperandValue cur 0 = Some Dest →
  getOperandValue cur 1 = Some Src →
  getOperandValue cur 2 = Some Selected →
  getOperandValue cur 3 = Some E →
  ((∀ user k, user ∈ getInstrs M → (getOrigin M E, k) ∈ getOperands user →
              k ≠ OperandKind.Out → user = cur) →
   performPeepholeOptimizations NDEBUG M
   = Ok (setInstrs M
           (A ++ mkInstruction (freshId (getInstrs M)) Kind.SoftMaxInstKind
                   (getName cur) (getType cur)
                   [(Dest, OperandKind.Out); (Src, OperandKind.In);
                    (Selected, OperandKind.In)] (getAttrs cur)
              :: B)))
  ∧ ((∃ user k, user ∈ getInstrs M ∧ (getOrigin M E, k) ∈ getOperands user
                ∧ k ≠ OperandKind.Out ∧ user ≠ cur) →
     performPeepholeOptimizations NDEBUG M = Ok M).
Proof.
  intros Hnd Heq Hall Hk H0 H1 H2 H3.
  assert (cur ∈ getInstrs M) as Hcur.
  { rewrite Heq. apply elem_of_app. right. by left. }
  assert (∀ user, user ∈ getInstrs M → self user = self cur → user = cur) as Hinj.
  { intros user Hu Hs. apply (NoDup_iid_inj (getInstrs M)); [done..|].
    by apply self_inj. }
  split.
  - intros Honly. apply (peepholeLoop_single NDEBUG M A cur B); [done..|].
    intros it. unfold peepholeStep. rewrite Hk, H0, H1, H2, H3.
    destruct (existsb _ _) eqn:Hex; [|done]. exfalso.
    apply existsb_exists in Hex as (U & HU & Hc).
    apply list_elem_of_In, elem_of_getUsers in HU as [Hu Hop].
    apply andb_true_iff in Hc as [Hko%bool_decide_eq_true Hne%bool_decide_eq_true].
    apply Hne. by rewrite (Honly U.1 U.2 Hu Hop Hko).
  - intros (user & k & Hu & Hop & Hko & Hne).
    apply peephole_identity; [done|]. rewrite Heq.
    apply peephole_stretch; [done|]. intros it.
    unfold peepholeStep. rewrite Hk, H0, H1, H2, H3.
    destruct (existsb _ _) eqn:Hex; [done|]. exfalso.
    assert (existsb (λ U : Instruction * OperandKind.t,
                       bool_decide (U.2 ≠ OperandKind.Out)
                       && bool_decide (self U.1 ≠ self cur))
              (getUsers M (getOrigin M E)) = true) as Htrue; [|congruence].
    apply existsb_exists. exists (user, k). split.
    + by apply list_elem_of_In, elem_of_getUsers.
    + apply andb_true_iff. split; apply bool_decide_eq_true; [done|].
      intros Hs. by apply Hne, Hinj.
Qed.
End PeepholeCaches.

(** A pool max whose XY cache is used by it and by its dealloc only. *)
Lemma peephole_drops_pool_cache_witness :
  performPeepholeOptimizations false
    (mkModule [Samples.alloc 1 7; Samples.alloc 2 7; Samples.alloc 3 7;
               mkInstruction 4 Kind.PoolMaxWithXYInstKind "pool" 0
                 [(InstrPtr 1, OperandKind.Out); (InstrPtr 2, OperandKind.In);
                  (InstrPtr 3, OperandKind.InOut)] [3; 2; 0];
               Samples.dealloc 5 3; Samples.dealloc 6 2; Samples.dealloc 7 1] [])
  = Ok (mkModule [Samples.alloc 1 7; Samples.alloc 2 7; Samples.alloc 3 7;
                  mkInstruction 8 Kind.PoolMaxInstKind "pool" 0
                    [(InstrPtr 1, OperandKind.Out); (InstrPtr 2, OperandKind.In)]
                    [3; 2; 0];
                  Samples.dealloc 5 3; Samples.dealloc 6 2; Samples.dealloc 7 1] []).
Proof.
  refine (proj1 (peephole_drops_pool_cache false
                   (mkModule [Samples.alloc 1 7; Samples.alloc 2 7; Samples.alloc 3 7;
                              mkInstruction 4 Kind.PoolMaxWithXYInstKind "pool" 0
                                [(InstrPtr 1, OperandKind.Out);
                                 (InstrPtr 2, OperandKind.In);
                                 (InstrPtr 3, OperandKind.InOut)] [3; 2; 0];
                              Samples.dealloc 5 3; Samples.dealloc 6 2;
                              Samples.dealloc 7 1] [])
                   [Samples.alloc 1 7; Samples.alloc 2 7; Samples.alloc 3 7]
                   [Samples.dealloc 5 3; Samples.dealloc 6 2; Samples.dealloc 7 1]
                   _ (InstrPtr 1) (InstrPtr 2) (InstrPtr 3)
                   _ eq_refl _ eq_refl eq_refl eq_refl eq_refl) _).
  - apply (bool_decide_unpack _). by vm_compute.
  - repeat (apply Forall_cons_2; [reflexivity|]). apply Forall_nil_2.
  - split; by vm_compute.
Defined.

(** A soft max whose cache E is mentioned by it and by its dealloc
    only. *)
Lemma peephole_drops_softmax_cache_witness :
  performPeepholeOptimizations false
    (mkModule [Samples.alloc 1 7; Samples.alloc 2 7; Samples.alloc 3 7;
               Samples.alloc 4 7;
               mkInstruction 5 Kind.SoftMaxWithEInstKind "sm" 0
                 [(InstrPtr 1, OperandKind.Out); (InstrPtr 2, OperandKind.In);
                  (InstrPtr 3, OperandKind.In); (InstrPtr 4, OperandKind.InOut)] [];
               Samples.dealloc 6 4] [])
  = Ok (mkModule [Samples.alloc 1 7; Samples.alloc 2 7; Samples.alloc 3 7;
                  Samples.alloc 4 7;
                  mkInstruction 7 Kind.SoftMaxInstKind "sm" 0
                    [(InstrPtr 1, OperandKind.Out); (InstrPtr 2, OperandKind.In);
                     (InstrPtr 3, OperandKind.In)] [];
                  Samples.dealloc 6 4] []).
Proof.
  refine (proj1 (peephole_drops_softmax_cache false
                   (mkModule [Samples.alloc 1 7; Samples.alloc 2 7; Samples.alloc 3 7;
                              Samples.alloc 4 7;
                              mkInstruction 5 Kind.SoftMaxWithEInstKind "sm" 0
                                [(InstrPtr 1, OperandKind.Out);
                                 (InstrPtr 2, OperandKind.In);
                                 (InstrPtr 3, OperandKind.In);
                                 (InstrPtr 4, OperandKind.InOut)] [];
                              Samples.dealloc 6 4] [])
                   [Samples.alloc 1 7; Samples.alloc 2 7; Samples.alloc 3 7;
                    Samples.alloc 4 7]
                   [Samples.dealloc 6 4]
                   _ (InstrPtr 1) (InstrPtr 2) (InstrPtr 3) (InstrPtr 4)
                   _ eq_refl _ eq_refl eq_refl eq_refl eq_refl eq_refl) _).
  - apply (bool_decide_unpack _). by vm_compute.
  - repeat (apply Forall_cons_2; [reflexivity|]). apply Forall_nil_2.
  - intros user k Hu Hop Hk. cbn [getInstrs] in Hu.
    change (getOrigin _ (InstrPtr 4)) with (InstrPtr 4) in Hop.
    repeat (apply elem_of_cons in Hu as [->|Hu]);
      try (by apply elem_of_nil in Hu); try (by apply elem_of_nil in Hop);
      try reflexivity.
    apply list_elem_of_singleton in Hop. injection Hop as ->. by destruct Hk.
Defined.

(** ** Peephole rewrites of copies and views *)

Section PeepholeCopies.
Variable NDEBUG : bool.

(** The pass up to the first instruction it has a rule for. *)
Lemma peephole_at M A cur B :
  NoDup (iid <$> getInstrs M) →
  getInstrs M = A ++ cur :: B →
  Forall (λ ins, isPeepholeKind (getKind ins) = false) A →
  performPeepholeOptimizations NDEBUG M
  = st ← peepholeStep NDEBUG M cur (self <$> head B);
    peepholeLoop NDEBUG (length A + length A + 2 + 3 * length B) st.1 st.2.
Proof.
  intros Hnd Heq HallA. unfold performPeepholeOptimizations, begin_.
  replace (3 * length (getInstrs M))
    with (length A + S (length A + length A + 2 + 3 * length B))
    by (rewrite Heq, length_app; simpl; lia).
  rewrite Heq at 1.
  rewrite (peepholeLoop_skip NDEBUG M [] A (cur :: B)); [|done|done|].
  2: { eapply Forall_impl; [exact HallA|]. intros x Hx it. by apply peepholeStep_other. }
  destruct (NoDup_iid_split _ A cur B Hnd Heq) as [HA _].
  change (self <$> head (cur :: B)) with (Some (self cur)).
  cbn [peepholeLoop]. unfold getInstr.
  by rewrite Heq, (findInstr_app_cons A cur B HA), (next_app_cons A cur B HA).
Qed.

(** X21: a copy between two values with the same origin is useless and
    is taken out of the stream; a copy between values with different
    origins stays.  (On a stream of distinct instructions in which the
    pass has no rule for the other instructions.) *)
Theorem peephole_erases_useless_copy (M : Module) (A B : list Instruction)
    (cur : Instruction) (Src Dest : Value) :
  NoDup (iid <$> getInstrs M) →
  getInstrs M = A ++ cur :: B →
  Forall (λ ins, isPeepholeKind (getKind ins) = false) (A ++ B) →
  getKind cur = Kind.CopyInstKind →
  getSrc cur = Some Src →
  getDest cur = Some Dest →
  (getOrigin M Src = getOrigin M Dest →
   performPeepholeOptimizations NDEBUG M = Ok (setInstrs M (A ++ B)))
  ∧ (getOrigin M Src ≠ getOrigin M Dest →
     performPeepholeOptimizations NDEBUG M = Ok M).
Proof.
  intros Hnd Heq Hall Hk Hs Hd. split.
  - intros Ho. apply Forall_app in Hall as [HallA HallB].
    rewrite (peephole_at M A cur B Hnd Heq HallA).
    unfold peepholeStep. rewrite Hk, Hs, Hd, bool_decide_true by done.
    cbv beta iota delta [mbind result_bind]. cbn [fst snd].
    destruct (NoDup_iid_split _ A cur B Hnd Heq) as [HA HB].
    assert (eraseInstruction M (self cur) = setInstrs M (A ++ B)) as ->.
    { unfold eraseInstruction. rewrite Heq. f_equal.
      by apply removeInstruction_app_cons. }
    apply (peepholeLoop_other NDEBUG (setInstrs M (A ++ B)) A B);
      [|done|done|lia].
    simpl. rewrite Heq in Hnd. rewrite fmap_app, fmap_cons in Hnd.
    rewrite fmap_app. apply NoDup_app in Hnd as (HndA & Hdisj & HndB).
    apply NoDup_cons in HndB as [_ HndB]. apply NoDup_app. split_and!; [done| |done].
    intros n Hn Hin. apply (Hdisj n Hn). by right.
  - intros Hne. apply peephole_identity; [done|]. rewrite Heq.
    apply peephole_stretch; [done|]. intros it.
    unfold peepholeStep. by rewrite Hk, Hs, Hd, bool_decide_false.
Qed.
End PeepholeCopies.

(** A copy of a buffer onto itself. *)
Lemma peephole_erases_useless_copy_witness :
  performPeepholeOptimizations false
    (mkModule [Samples.alloc 1 7; Samples.splat 2 (InstrPtr 1);
               Samples.copy 3 (InstrPtr 1) (InstrPtr 1); Samples.dealloc 4 1] [])
  = Ok (mkModule [Samples.alloc 1 7; Samples.splat 2 (InstrPtr 1);
                  Samples.dealloc 4 1] []).
Proof.
  refine (proj1 (peephole_erases_useless_copy false
                   (mkModule [Samples.alloc 1 7; Samples.splat 2 (InstrPtr 1);
                              Samples.copy 3 (InstrPtr 1) (InstrPtr 1);
                              Samples.dealloc 4 1] [])
                   [Samples.alloc 1 7; Samples.splat 2 (InstrPtr 1)]
                   [Samples.dealloc 4 1]
                   _ (InstrPtr 1) (InstrPtr 1)
                   _ eq_refl _ eq_refl eq_refl eq_refl) eq_refl).
  - apply (bool_decide_unpack _). by vm_compute.
  - repeat (apply Forall_cons_2; [reflexivity|]). apply Forall_nil_2.
Defined.

Section PeepholeViews.
Variable NDEBUG : bool.

Lemma replaceUses_iid_kind val with_ x :
  iid (if isDealloc x then x else replaceUses val with_ x) = iid x
  ∧ getKind (if isDealloc x then x else replaceUses val with_ x) = getKind x.
Proof. by destruct (isDealloc x). Qed.

(** X22: a tensor view whose type is the type of its source is bypassed:
    the pass does what replacing the non-dealloc users of the view by its
    source does (every operand of an instruction other than a dealloc
    that referenced the view references the source), and the view itself
    stays in the stream; a view that changes the type is left alone.
    (On a stream of distinct instructions in which the pass has no rule
    for the other instructions.) *)
Theorem peephole_bypasses_view (M : Module) (A B : list Instruction)
    (cur : Instruction) (Src : Value) :
  NoDup (iid <$> getInstrs M) →
  getInstrs M = A ++ cur :: B →
  Forall (λ ins, isPeepholeKind (getKind ins) = false) (A ++ B) →
  getKind cur = Kind.TensorViewInstKind →
  getOperandValue cur 0 = Some Src →
  (Some (getType cur) = typeOf M Src →
   performPeepholeOptimizations NDEBUG M
   = replaceAllNonDeallocUsersWith NDEBUG M (self cur) Src)
  ∧ (Some (getType cur) ≠ typeOf M Src →
     performPeepholeOptimizations NDEBUG M = Ok M).
Proof.
  intros Hnd Heq Hall Hk Hs. split.
  - intros Hty. apply Forall_app in Hall as [HallA HallB].
    rewrite (peephole_at NDEBUG M A cur B Hnd Heq HallA).
    unfold peepholeStep. rewrite Hk, Hs, bool_decide_true by done.
    destruct (replaceAllNonDeallocUsersWith NDEBUG M (self cur) Src)
      as [M'| | |] eqn:Hrep; try done.
    cbv beta iota delta [mbind result_bind]. cbn [fst snd].
    apply replaceAllNonDeallocUsersWith_Ok in Hrep.
    set (f := λ ins, if isDealloc ins then ins else replaceUses (self cur) Src ins)
      in Hrep.
    assert (∀ l : list Instruction, iid <$> (f <$> l) = iid <$> l) as Hids.
    { intros l. rewrite <- list_fmap_compose. apply list_fmap_ext.
      intros i x _. apply replaceUses_iid_kind. }
    assert (self <$> head B = self <$> head (f <$> B)) as ->.
    { destruct B as [|x B]; [done|]. simpl. unfold self, f.
      by destruct (isDealloc x). }
    apply (peepholeLoop_other NDEBUG M' (f <$> (A ++ [cur])) (f <$> B)).
    + rewrite Hrep. simpl. by rewrite Hids.
    + rewrite Hrep. simpl. rewrite Heq, <- fmap_app. f_equal. assoc.
    + apply Forall_fmap. eapply Forall_impl; [exact HallB|].
      intros x Hx. simpl. unfold f. by destruct (isDealloc x).
    + rewrite length_fmap. lia.
  - intros Hne. apply peephole_identity; [done|]. rewrite Heq.
    apply peephole_stretch; [done|]. intros it.
    unfold peepholeStep. by rewrite Hk, Hs, bool_decide_false.
Qed.
End PeepholeViews.

(** A view of a buffer with the type of the buffer: the print that read
    the view reads the buffer. *)
Lemma peephole_bypasses_view_witness :
  performPeepholeOptimizations false
    (mkModule [Samples.alloc 1 7; Samples.tensorview 2 (InstrPtr 1) 7;
               Samples.print 3 (InstrPtr 2); Samples.dealloc 4 1] [])
  = Ok (mkModule [Samples.alloc 1 7; Samples.tensorview 2 (InstrPtr 1) 7;
                  Samples.print 3 (InstrPtr 1); Samples.dealloc 4 1] []).
Proof.
  rewrite (proj1 (peephole_bypasses_view false
                    (mkModule [Samples.alloc 1 7; Samples.tensorview 2 (InstrPtr 1) 7;
                               Samples.print 3 (InstrPtr 2); Samples.dealloc 4 1] [])
                    [Samples.alloc 1 7]
                    [Samples.print 3 (InstrPtr 2); Samples.dealloc 4 1]
                    (Samples.tensorview 2 (InstrPtr 1) 7) (InstrPtr 1)
                    ltac:(apply (bool_decide_unpack _); by vm_compute) eq_refl
                    ltac:(repeat (apply Forall_cons_2; [reflexivity|]);
                          apply Forall_nil_2)
                    eq_refl eq_refl) eq_refl).
  by vm_compute.
Defined.

(** ** The canonical form of an element max *)

Section PeepholeMax.
Variable NDEBUG : bool.

(** The writer uses of a value by an element max: its destination. *)
Lemma max_writers v x Dest a b :
  getKind x = Kind.ElementMaxInstKind →
  getOperands x = [(Dest, OperandKind.Out); (a, OperandKind.In); (b, OperandKind.In)] →
  filter (λ U, isWriterUse U = true) (usesIn v x)
  = if decide (Dest = v) then [(x, OperandKind.Out)] else [].
Proof.
  intros Hk Hops. unfold usesIn. rewrite Hops.
  assert (isWriterUse (x, OperandKind.Out) = true) as Hout.
  { unfold isWriterUse, isDealloc, isa. simpl. by rewrite Hk. }
  assert (isWriterUse (x, OperandKind.In) ≠ true) as Hin.
  { unfold isWriterUse. cbn [fst snd].
    rewrite (bool_decide_false (OperandKind.In ≠ OperandKind.In))
      by (intros H; by apply H).
    by rewrite andb_false_r. }
  rewrite !filter_cons, filter_nil. simpl.
  destruct (decide (Dest = v)), (decide (a = v)), (decide (b = v)); simpl;
    rewrite ?filter_cons, ?filter_nil;
    repeat (destruct (decide _); try done); done.
Qed.

(** Swapping the two sources of an element max changes the single
    writer of no value into a splat, nor a splat into something else. *)
Lemma isSplatWriter_swap M A cur B new Dest LHS RHS v :
  getInstrs M = A ++ cur :: B →
  getKind cur = Kind.ElementMaxInstKind →
  getOperands cur
  = [(Dest, OperandKind.Out); (LHS, OperandKind.In); (RHS, OperandKind.In)] →
  getKind new = Kind.ElementMaxInstKind →
  getOperands new
  = [(Dest, OperandKind.Out); (RHS, OperandKind.In); (LHS, OperandKind.In)] →
  isSplatWriter (setInstrs M (A ++ new :: B)) v = isSplatWriter M v.
Proof.
  intros Heq Hk Hops Hk' Hops'. unfold isSplatWriter, getSingleWriter, getUsers.
  simpl. rewrite Heq, !bind_app, !bind_cons, !filter_app.
  rewrite (max_writers v cur Dest LHS RHS Hk Hops).
  rewrite (max_writers v new Dest RHS LHS Hk' Hops').
  destruct (decide (Dest = v)); [|done].
  assert (isa Kind.SplatInstKind cur = false) as Hc.
  { unfold isa. by rewrite Hk. }
  assert (isa Kind.SplatInstKind new = false) as Hn.
  { unfold isa. by rewrite Hk'. }
  destruct (filter _ (A ≫= usesIn v)) as [|U1 [|U2 W1]];
    destruct (filter _ (B ≫= usesIn v)) as [|U3 [|U4 W2]]; simpl; by rewrite ?Hc, ?Hn.
Qed.

(** X23: an element max whose left source is written by a single
    instruction, a splat, while its right source is not, is replaced at
    its place by an element max of the same destination with the two
    sources swapped, and the pass does not swap them back; any other
    element max stays.  (On a stream of distinct instructions in which
    the pass has no rule for the other instructions.) *)
Theorem peephole_canonical_max (M : Module) (A B : list Instruction)
    (cur : Instruction) (Dest LHS RHS : Value) :
  NoDup (iid <$> getInstrs M) →
  getInstrs M = A ++ cur :: B →
  Forall (λ ins, isPeepholeKind (getKind ins) = false) (A ++ B) →
  getKind cur = Kind.ElementMaxInstKind →
  getOperands cur
  = [(Dest, OperandKind.Out); (LHS, OperandKind.In); (RHS, OperandKind.In)] →
  (isSplatWriter M LHS = true ∧ isSplatWriter M RHS = false →
   performPeepholeOptimizations NDEBUG M
   = Ok (setInstrs M
           (A ++ mkInstruction (freshId (getInstrs M)) Kind.ElementMaxInstKind
                   (getName cur) (getType cur)
                   [(Dest, OperandKind.Out); (RHS, OperandKind.In);
                    (LHS, OperandKind.In)] (getAttrs cur)
              :: B)))
  ∧ (¬ (isSplatWriter M LHS = true ∧ isSplatWriter M RHS = false) →
     performPeepholeOptimizations NDEBUG M = Ok M).
Proof.
  intros Hnd Heq Hall Hk Hops.
  assert (getOperandValue cur 0 = Some Dest ∧ getOperandValue cur 1 = Some LHS
          ∧ getOperandValue cur 2 = Some RHS) as (H0 & H1 & H2).
  { unfold getOperandValue. by rewrite Hops. }
  split.
  - intros [Hl Hr]. pose proof Hall as [HallA HallB]%Forall_app.
    rewrite (peephole_at NDEBUG M A cur B Hnd Heq HallA).
    unfold peepholeStep. rewrite Hk, H0, H1, H2, Hl, Hr. cbn [negb].
    rewrite (replaceBy_create M A cur B _ _ _ _ _ Hnd Heq).
    cbv beta iota delta [mbind result_bind]. cbn [fst snd].
    set (new := mkInstruction (freshId (getInstrs M)) Kind.ElementMaxInstKind
                  (getName cur) (getType cur)
                  [(Dest, OperandKind.Out); (RHS, OperandKind.In);
                   (LHS, OperandKind.In)] (getAttrs cur)).
    set (M' := setInstrs M (A ++ new :: B)).
    assert (NoDup (iid <$> getInstrs M')) as Hnd'.
    { simpl. rewrite Heq in Hnd. rewrite fmap_app, fmap_cons in Hnd |- *.
      apply NoDup_app in Hnd as (HndA & Hdisj & HndB).
      apply NoDup_cons in HndB as [_ HndB].
      assert (∀ x, x ∈ A ++ cur :: B → iid x ≠ iid new) as Hfresh.
      { intros x Hx Hid. rewrite <- Heq in Hx. apply maxId_ge in Hx.
        simpl in Hid. unfold freshId in Hid. lia. }
      apply NoDup_app. split_and!; [done | |].
      - intros n Hn [->|Hin]%elem_of_cons.
        + apply list_elem_of_fmap in Hn as (x & Hid & Hx).
          apply (Hfresh x); [apply elem_of_app; by left | done].
        + apply (Hdisj n Hn). by right.
      - apply NoDup_cons. split; [|done].
        intros (x & Hid & Hx)%list_elem_of_fmap.
        apply (Hfresh x); [apply elem_of_app; right; by right | done]. }
    replace (length A + length A + 2 + 3 * length B)
      with (length (new :: B) + (length A + length A + 1 + 2 * length B))
      by (simpl; lia).
    change (Some (InstrPtr (freshId (getInstrs M))))
      with (self <$> head ((new :: B) ++ [])).
    rewrite (peepholeLoop_skip NDEBUG M' A (new :: B) []);
      [apply peepholeLoop_end | done | by rewrite app_nil_r |].
    apply Forall_cons. split.
    + intros it.
      pose proof (isSplatWriter_swap M A cur B new Dest LHS RHS RHS Heq Hk Hops
                    eq_refl eq_refl) as Hsw.
      fold M' in Hsw. unfold peepholeStep.
      change (getKind new) with Kind.ElementMaxInstKind.
      change (getOperandValue new 0) with (Some Dest).
      change (getOperandValue new 1) with (Some RHS).
      change (getOperandValue new 2) with (Some LHS).
      cbv beta iota. by rewrite Hsw, Hr.
    + eapply Forall_impl; [exact HallB|]. intros x Hx it. by apply peepholeStep_other.
  - intros Hnot. apply peephole_identity; [done|]. rewrite Heq.
    apply peephole_stretch; [done|]. intros it.
    unfold peepholeStep. rewrite Hk, H0, H1, H2.
    destruct (isSplatWriter M LHS); [|done]. simpl.
    destruct (isSplatWriter M RHS); [done|]. by destruct Hnot.
Qed.
End PeepholeMax.

(** The maximum of a splat and a buffer nothing has written: the splat
    goes to the right. *)
Lemma peephole_canonical_max_witness :
  performPeepholeOptimizations false
    (mkModule [Samples.alloc 1 7; Samples.alloc 2 7; Samples.alloc 3 7;
               Samples.splat 4 (InstrPtr 1);
               Samples.elementmax 5 (InstrPtr 3) (InstrPtr 1) (InstrPtr 2);
               Samples.dealloc 6 1] [])
  = Ok (mkModule [Samples.alloc 1 7; Samples.alloc 2 7; Samples.alloc 3 7;
                  Samples.splat 4 (InstrPtr 1);
                  Samples.elementmax 7 (InstrPtr 3) (InstrPtr 2) (InstrPtr 1);
                  Samples.dealloc 6 1] []).
Proof.
  refine (proj1 (peephole_canonical_max false
                   (mkModule [Samples.alloc 1 7; Samples.alloc 2 7; Samples.alloc 3 7;
                              Samples.splat 4 (InstrPtr 1);
                              Samples.elementmax 5 (InstrPtr 3) (InstrPtr 1)
                                (InstrPtr 2);
                              Samples.dealloc 6 1] [])
                   [Samples.alloc 1 7; Samples.alloc 2 7; Samples.alloc 3 7;
                    Samples.splat 4 (InstrPtr 1)]
                   [Samples.dealloc 6 1]
                   _ (InstrPtr 3) (InstrPtr 1) (InstrPtr 2)
                   _ eq_refl _ eq_refl eq_refl) _).
  - apply (bool_decide_unpack _). by vm_compute.
  - repeat (apply Forall_cons_2; [reflexivity|]). apply Forall_nil_2.
  - split; by vm_compute.
Defined.
